(** * k3s cluster provisioning script: a shallow embedding of [__main__.py]

    The script declares a network, a security group, one k3s server
    instance and [num_workers] agent instances, renders the agents' user
    data from the server's private address once the engine knows it, and
    writes an ssh client configuration when every public address is known.

    Part I holds the definitions, one module per component:
    - [Text]: the few string operations the script relies on;
    - [SecurityPolicy]: the ingress and egress tables of [k3s_security_group];
    - [Bootstrap]: [make_worker_userdata] and the worker loop;
    - [AccessProfile]: [create_config_file];
    - [Deferred]: deferred values with [resolve], [transform] and [fan_in];
    - [Topology]: the invariant that relates the deferred values of a run;
    - [Cluster]: the instances the script declares and how they are wired;
    - [Settings]: the values read through [pulumi.Config];
    - [Hostnames] and [Digits]: what the proofs about rendered text need;
    - [Declarations]: the resources in the order of their declaration;
    - [Exports]: the calls of [pulumi.export].

    Part II holds the lemmas and theorems about them. *)

From Stdlib Require Import ZArith Lia Ascii.
From stdpp Require Import base list strings pretty gmap.

(** * Part I: definitions *)

(** ** Strings *)

Module Text.

(** The line feed, the double quote and the backslash, which the script
    writes as escapes inside its string literals. *)
Definition nl : string := String "010"%char EmptyString.
Definition dq : string := String "034"%char EmptyString.
Definition backslash : string := String "092"%char EmptyString.

(** [sub] occurs somewhere inside [s]. *)
Definition contains (s sub : string) : Prop :=
  ∃ pre post, s = pre +:+ sub +:+ post.

(** Python's [s.split(sep)] for a one-character separator; [cur] is the
    piece being read, kept reversed. *)
Fixpoint split_on (sep : ascii) (cur : string) (s : string) : list string :=
  match s with
  | EmptyString => [String.rev cur]
  | String c rest =>
      if decide (c = sep) then String.rev cur :: split_on sep EmptyString rest
      else split_on sep (String c cur) rest
  end.

Definition lines (s : string) : list string :=
  split_on "010"%char EmptyString s.

(** Python's [sep.join(pieces)]. *)
Definition join (sep : string) (pieces : list string) : string :=
  String.concat sep pieces.

(** [str(n)] for a non-negative integer. *)
Definition str (n : nat) : string := pretty n.

End Text.

(** ** The security group *)

Module SecurityPolicy.

(** One entry of the [ingress] / [egress] lists: the dictionary with keys
    [protocol], [from_port], [to_port] and [cidr_blocks]. *)
Record rule := Rule {
  protocol : string;
  from_port : Z;
  to_port : Z;
  cidr_blocks : list string
}.

Record security_group := SecurityGroup {
  description : string;
  ingress : list rule;
  egress : list rule;
  tags : list (string * string)
}.

Definition open_internet : string := "0.0.0.0/0".

(** [k3s_security_group], as a function of the resolved
    [public_subnet.cidr_block]. *)
Definition k3s_security_group (subnet_cidr : string) : security_group :=
  {| description := "Security group for K3s cluster nodes";
     ingress :=
       [ (* K3s API server *)
         Rule "tcp" 6443 6443 [subnet_cidr];
         (* Flannel VXLAN *)
         Rule "udp" 8472 8472 [subnet_cidr];
         (* SSH for administration *)
         Rule "tcp" 22 22 [open_internet];
         (* HTTP/HTTPS for applications *)
         Rule "tcp" 80 80 [open_internet];
         Rule "tcp" 443 443 [subnet_cidr];
         (* Allow all internal cluster communication *)
         Rule "-1" 0 0 [subnet_cidr] ];
     egress :=
       [ (* Allow all outbound traffic *)
         Rule "-1" 0 0 [open_internet] ];
     tags := [("Name", "k3s-cluster-sg")] |}.

(** How the provider reads a rule: protocol [-1] stands for every protocol
    and every port, otherwise the protocol must agree and the port must lie
    in the closed range. *)
Definition covers (r : rule) (proto : string) (port : Z) : bool :=
  bool_decide (protocol r = "-1")
  || (bool_decide (protocol r = proto)
      && bool_decide (from_port r ≤ port ≤ to_port r)%Z).

(** The ingress rules that apply to a protocol and port. *)
Definition rules_for (sg : security_group) (proto : string) (port : Z) : list rule :=
  filter (λ r, covers r proto port = true) (ingress sg).

Section Traffic.
(** Source addresses and the provider's membership test of an address in
    a CIDR block are left abstract. *)
Context {addr : Type} (in_cidr : string → addr → bool).

Definition rule_allows (r : rule) (proto : string) (port : Z) (src : addr) : bool :=
  covers r proto port && existsb (λ c, in_cidr c src) (cidr_blocks r).

Definition allows (rules : list rule) (proto : string) (port : Z) (src : addr) : bool :=
  existsb (λ r, rule_allows r proto port src) rules.
End Traffic.

(** The ports whose single-port rule has the subnet range as source. *)
Definition subnet_ports : list Z := [6443; 8472; 443]%Z.

End SecurityPolicy.

(** ** Worker bootstrap payload *)

Module Bootstrap.
Import Text.

(** [make_worker_userdata(ip, index)]; the module-level [k3s_token] is an
    explicit argument. *)
Definition make_worker_userdata (k3s_token : string) (ip : string) (index : nat) : string :=
  "#!/bin/bash" +:+ nl +:+
  "    sudo apt update" +:+ nl +:+
  "    sudo hostnamectl set-hostname k3s-worker" +:+ str index +:+ nl +:+
  "    # Install K3s agent" +:+ nl +:+
  "    curl -sfL https://get.k3s.io | K3S_TOKEN=" +:+ dq +:+ k3s_token +:+ dq +:+
  " K3S_URL=https://" +:+ ip +:+ ":6443 sh -s -" +:+ nl +:+
  "    ".

(** [range(1, num_workers + 1)].  The script sets [num_workers = 2]; the
    count is an argument here. *)
Definition worker_indices (num_workers : nat) : list nat := seq 1 num_workers.

(** What the loop's [lambda ip, idx=i: make_worker_userdata(ip, idx)]
    closures return, one per iteration, once the server's private address
    [ip] is known. *)
Definition worker_payloads (k3s_token : string) (ip : string) (num_workers : nat) : list string :=
  map (λ idx, make_worker_userdata k3s_token ip idx) (worker_indices num_workers).

(** The part of a payload before and after the index. *)
Definition payload_head : string :=
  "#!/bin/bash" +:+ nl +:+
  "    sudo apt update" +:+ nl +:+
  "    sudo hostnamectl set-hostname k3s-worker".

Definition payload_tail (k3s_token ip : string) : string :=
  nl +:+
  "    # Install K3s agent" +:+ nl +:+
  "    curl -sfL https://get.k3s.io | K3S_TOKEN=" +:+ dq +:+ k3s_token +:+ dq +:+
  " K3S_URL=https://" +:+ ip +:+ ":6443 sh -s -" +:+ nl +:+
  "    ".

Definition token_setting (k3s_token : string) : string :=
  "K3S_TOKEN=" +:+ dq +:+ k3s_token +:+ dq.

Definition join_url (ip : string) : string :=
  "https://" +:+ ip +:+ ":6443".

Definition url_setting (ip : string) : string :=
  "K3S_URL=" +:+ join_url ip.

End Bootstrap.

(** ** The ssh client configuration *)

Module AccessProfile.
Import Text.

(** [["master"] + [f"worker-{i+1}" for i in range(len(workers))]]. *)
Definition hosts (num_workers : nat) : list string :=
  "master" :: map (λ i, "worker-" +:+ str (i + 1)) (seq 0 num_workers).

(** The five lines one loop iteration appends. *)
Definition host_lines (host ip : string) : list string :=
  [ "Host " +:+ host;
    "  HostName " +:+ ip;
    "  User ubuntu";
    "  IdentityFile ~/.ssh/k3s-cluster.id_rsa" +:+ nl;
    EmptyString ].

(** The [for idx, host in enumerate(hosts)] loop; [all_ips[idx]] raises
    [IndexError] past the end of the list, which is [None] here. *)
Fixpoint config_loop (items : list (nat * string)) (all_ips : list string)
    (config_lines : list string) : option (list string) :=
  match items with
  | [] => Some config_lines
  | (idx, host) :: rest =>
      match all_ips !! idx with
      | Some ip => config_loop rest all_ips (config_lines ++ host_lines host ip)
      | None => None
      end
  end.

Definition enumerate {A} (l : list A) : list (nat * A) := zip (seq 0 (length l)) l.

Definition config_content (num_workers : nat) (all_ips : list string) : option string :=
  match config_loop (enumerate (hosts num_workers)) all_ips [] with
  | Some config_lines => Some (join nl config_lines)
  | None => None
  end.

(** [userhome.rstrip("/")]. *)
Fixpoint rstrip_slash (s : string) : string :=
  match s with
  | EmptyString => EmptyString
  | String c rest =>
      match rstrip_slash rest with
      | EmptyString => if decide (c = "/"%char) then EmptyString else String c EmptyString
      | kept => String c kept
      end
  end.

(** [os.path.expanduser(path)], as [posixpath] defines it, for the current
    user: [home] is what the library takes as the home directory (the
    variable [HOME], or the entry of the password database when it is not
    set).  A path that does not start with a tilde is returned as it is;
    for a tilde alone or followed by a slash the home directory, without
    its trailing slashes, replaces the tilde, and an empty result becomes
    the root.  The form [~user] asks the password database for another
    user; the script does not use it, and it is left as it is here, as the
    library does for a user it does not find. *)
Definition expanduser (home : string) (path : string) : string :=
  match path with
  | String "~"%char EmptyString =>
      match rstrip_slash home with
      | EmptyString => "/"
      | userhome => userhome
      end
  | String "~"%char (String "/"%char rest) =>
      rstrip_slash home +:+ String "/"%char rest
  | _ => path
  end.

Definition config_path (home : string) : string := expanduser home "~/.ssh/config".

(** What a path names on the machine that runs the script: a regular file
    with its content, or a directory.  The file system is a map from paths
    to what they name. *)
Inductive node :=
| File (content : string)
| Directory.

(** The exceptions [create_config_file] can end in: the index error of
    [all_ips[idx]], and the errors of [open]. *)
Inductive exception :=
| IndexError
| FileNotFoundError
| NotADirectoryError
| IsADirectoryError.

Inductive outcome (A : Type) :=
| Returned (a : A)
| Raised (e : exception).
Arguments Returned {A} a.
Arguments Raised {A} e.

(** [p[:p.rfind("/") + 1]]: the path up to its last slash, the slash
    included. *)
Fixpoint upto_last_slash (p : string) : string :=
  match p with
  | EmptyString => EmptyString
  | String c rest =>
      match upto_last_slash rest with
      | EmptyString => if decide (c = "/"%char) then String c EmptyString else EmptyString
      | head => String c head
      end
  end.

(** The directory a path is looked up in (as [posixpath.dirname] gives
    it): the part before the last slash, or the root. *)
Definition dirname (p : string) : string :=
  match rstrip_slash (upto_last_slash p) with
  | EmptyString => upto_last_slash p
  | head => head
  end.

(** [open(path, "w")] followed by [write(content)].  The open fails when
    the directory of the path does not exist or is not a directory, and
    when the path names a directory; nothing is changed then.  Otherwise
    the file is created or truncated and holds exactly [content]
    afterwards.  Access rights and links are outside this model. *)
Definition write_file (fs : gmap string node) (path content : string)
    : outcome (gmap string node) :=
  match fs !! dirname path with
  | None => Raised FileNotFoundError
  | Some (File _) => Raised NotADirectoryError
  | Some Directory =>
      match fs !! path with
      | Some Directory => Raised IsADirectoryError
      | _ => Returned (<[path := File content]> fs)
      end
  end.

(** The open succeeds. *)
Definition can_write (fs : gmap string node) (path : string) : Prop :=
  fs !! dirname path = Some Directory ∧ fs !! path ≠ Some Directory.

(** [create_config_file(all_ips)], with the module-level [workers] list
    entering through its length.  The text is built before the file is
    opened, so the index error comes first. *)
Definition create_config_file (num_workers : nat) (home : string)
    (fs : gmap string node) (all_ips : list string) : outcome (gmap string node) :=
  match config_content num_workers all_ips with
  | Some content => write_file fs (config_path home) content
  | None => Raised IndexError
  end.

(** One host entry as it ends up in the file. *)
Definition entry (host ip : string) : string :=
  "Host " +:+ host +:+ nl +:+
  "  HostName " +:+ ip +:+ nl +:+
  "  User ubuntu" +:+ nl +:+
  "  IdentityFile ~/.ssh/k3s-cluster.id_rsa".

(** What separates two entries in the file. *)
Definition entry_gap : string := nl +:+ nl +:+ nl.

End AccessProfile.

(** ** Deferred values *)

Module Deferred.

(** The script obtains its deferred values from the provisioning engine
    ([apply] on an instance attribute, [pulumi.Output.all]); the engine's
    code is not part of the repository, so cells, pending transformations,
    [resolve], [transform] and [fan_in] follow sections 3 and 4.3 of the
    specification: a single-assignment placeholder backed by an ordered
    observer list. *)

(** Modelled from the spec: what a deferred value can hold, a string or an
    ordered collection. *)
#[warnings="-register-all"]
Inductive value :=
| VStr (s : string)
| VList (vs : list value).

(** Modelled from the spec: a pending transformation (the engine's code is
    not in the repository).  [Transform f target] runs [f] on the
    resolved value and resolves the cell [target] with the result;
    [Member join pos] hands the value to position [pos] of the fan-in
    cell [join]. *)
Inductive callback :=
| Transform (f : value → value) (target : nat)
| Member (join : nat) (pos : nat).

(** Modelled from the spec: a deferred value, the single-assignment
    placeholder of section 3, unresolved ([held = None]) or resolved, with the
    transformations registered so far in registration order.  A fan-in cell
    also keeps what its members have delivered. *)
Record cell := Cell {
  held : option value;
  pending : list callback;
  slots : list (option value)
}.

(** Modelled from the spec: all deferred values of a run, by handle, and
    the log of resolutions in the order they happened. *)
Record store := Store {
  cells : list cell;
  trace : list (nat * value)
}.

Inductive fatal :=
| AlreadyResolved (d : nat)
| NoSuchCell (d : nat).

Inductive result (A : Type) :=
| Ok (a : A)
| Fatal (e : fatal)
| OutOfFuel.
Global Arguments Ok {A} a.
Global Arguments Fatal {A} e.
Global Arguments OutOfFuel {A}.

(** Sequencing of steps that can fail. *)
Definition and_then {A B} (m : result A) (k : A → result B) : result B :=
  match m with
  | Ok a => k a
  | Fatal e => Fatal e
  | OutOfFuel => OutOfFuel
  end.

Definition empty : store := Store [] [].

Definition value_of (s : store) (d : nat) : option value :=
  c ← cells s !! d; held c.

(** Modelled from the spec: a fresh unresolved deferred value. *)
Definition new_deferred (s : store) : store * nat :=
  (Store (cells s ++ [Cell None [] []]) (trace s), length (cells s)).

(** Modelled from the spec: the single assignment itself (section 4.3,
    resolve on a resolved instance is fatal); fails on a resolved cell, otherwise
    stores the value, logs it and hands back the transformations that were
    waiting. *)
Definition assign (s : store) (d : nat) (v : value) : result (store * list callback) :=
  match cells s !! d with
  | None => Fatal (NoSuchCell d)
  | Some c =>
      match held c with
      | Some _ => Fatal (AlreadyResolved d)
      | None =>
          Ok (Store (<[d := Cell (Some v) [] (slots c)]> (cells s))
                    (trace s ++ [(d, v)]),
              pending c)
      end
  end.

(** Modelled from the spec: a fan-in cell is complete once every position
    holds a value. *)
Definition gathered (sl : list (option value)) : option (list value) :=
  mapM id sl.

(** Modelled from the spec: running one transformation on the value [v] of
    the cell it waited on (resolution triggers each transformation once).
    The result lists the transformations this sets off in turn, with the
    value each of them receives. *)
Definition deliver (s : store) (cb : callback) (v : value)
    : result (store * list (callback * value)) :=
  match cb with
  | Transform f t =>
      and_then (assign s t (f v))
        (λ r, Ok (r.1, (λ cb', (cb', f v)) <$> r.2))
  | Member j pos =>
      match cells s !! j with
      | None => Fatal (NoSuchCell j)
      | Some c =>
          let sl := <[pos := Some v]> (slots c) in
          let s1 := Store (<[j := Cell (held c) (pending c) sl]> (cells s)) (trace s) in
          match gathered sl with
          | None => Ok (s1, [])
          | Some vs =>
              and_then (assign s1 j (VList vs))
                (λ r, Ok (r.1, (λ cb', (cb', VList vs)) <$> r.2))
          end
      end
  end.

(** Modelled from the spec: transformations run in registration order,
    synchronously; what a transformation sets off runs before the next one
    waiting on the same cell. *)
Fixpoint run (fuel : nat) (s : store) (work : list (callback * value)) : result store :=
  match work with
  | [] => Ok s
  | (cb, v) :: rest =>
      match fuel with
      | 0 => OutOfFuel
      | S fuel' =>
          and_then (deliver s cb v) (λ r, run fuel' r.1 (r.2 ++ rest))
      end
  end.

(** The number of transformations still registered; each of them runs at
    most once, so this bounds the work of any resolution. *)
Definition weight (cs : list cell) : nat :=
  sum_list_with (λ c, length (pending c)) cs.

(** Modelled from the spec: [resolve(value)] of section 4.3. *)
Definition resolve (s : store) (d : nat) (v : value) : result store :=
  and_then (assign s d v)
    (λ r, run (weight (cells s)) r.1 ((λ cb, (cb, v)) <$> r.2)).

(** Modelled from the spec: [transform(f)] of section 4.3 (the script's
    [apply]); on an unresolved cell the function is queued, on a
    resolved one it runs at once; either way the caller gets the handle of
    a new deferred value for the result. *)
Definition transform (s : store) (d : nat) (f : value → value) : result (store * nat) :=
  let t := length (cells s) in
  match cells s !! d with
  | None => Fatal (NoSuchCell d)
  | Some c =>
      match held c with
      | Some v =>
          Ok (Store (cells s ++ [Cell (Some (f v)) [] []])
                    (trace s ++ [(t, f v)]), t)
      | None =>
          Ok (Store (<[d := Cell None (pending c ++ [Transform f t]) (slots c)]> (cells s)
                     ++ [Cell None [] []])
                    (trace s), t)
      end
  end.

(** Queue [cb] on the cell [d] if it is still unresolved. *)
Definition register (cb : callback) (d : nat) (cs : list cell) : list cell :=
  match cs !! d with
  | Some c =>
      match held c with
      | None => <[d := Cell None (pending c ++ [cb]) (slots c)]> cs
      | Some _ => cs
      end
  | None => cs
  end.

Fixpoint register_members (j pos : nat) (ds : list nat) (cs : list cell) : list cell :=
  match ds with
  | [] => cs
  | d :: ds' => register_members j (S pos) ds' (register (Member j pos) d cs)
  end.

(** Modelled from the spec: [fan_in(list)] of section 4.3 (the script's
    [pulumi.Output.all]); a new deferred value over the members' values in list
    order.  Members that are resolved already fill their position at once;
    if all are, the result is resolved on the spot. *)
Definition fan_in (s : store) (ds : list nat) : result (store * nat) :=
  let j := length (cells s) in
  match list_find (λ d, cells s !! d = None) ds with
  | Some (_, d) => Fatal (NoSuchCell d)
  | None =>
      let sl := value_of s <$> ds in
      let cs := register_members j 0 ds (cells s) in
      match gathered sl with
      | Some vs =>
          Ok (Store (cs ++ [Cell (Some (VList vs)) [] sl])
                    (trace s ++ [(j, VList vs)]), j)
      | None => Ok (Store (cs ++ [Cell None [] sl]) (trace s), j)
      end
  end.

(** The engine delivering provider-assigned values, one [resolve] after
    the other, in the order of the list. *)
Fixpoint resolve_all (s : store) (events : list (nat * value)) : result store :=
  match events with
  | [] => Ok s
  | (d, v) :: rest => and_then (resolve s d v) (λ s', resolve_all s' rest)
  end.

(** Anything a client or the engine can do with a store. *)
Inductive action :=
| DoNew
| DoResolve (d : nat) (v : value)
| DoTransform (d : nat) (f : value → value)
| DoFanIn (ds : list nat).

Definition perform (s : store) (a : action) : result store :=
  match a with
  | DoNew => Ok (new_deferred s).1
  | DoResolve d v => resolve s d v
  | DoTransform d f => and_then (transform s d f) (λ r, Ok r.1)
  | DoFanIn ds => and_then (fan_in s ds) (λ r, Ok r.1)
  end.

Fixpoint perform_all (s : store) (acts : list action) : result store :=
  match acts with
  | [] => Ok s
  | a :: rest => and_then (perform s a) (λ s', perform_all s' rest)
  end.

(** How often the cell [d] was resolved according to the log. *)
Definition fired (s : store) (d : nat) : nat :=
  length (filter (λ e, e.1 = d) (trace s)).

End Deferred.

(** ** How deferred values depend on one another *)

Module Topology.
Import Deferred.

(** Where a deferred value comes from: the engine resolves it ([Src]), it
    is the result of [transform f] on [p] ([Map f p]), or it is the fan-in
    of [ds] ([All ds]).  A list of origins, one per handle, describes a
    store built by [new_deferred], [transform] and [fan_in]. *)
Inductive origin :=
| Src
| Map (f : value → value) (p : nat)
| All (ds : list nat).

(** What a transformation will write to: a cell, or one position of a
    fan-in cell. *)
Definition key (cb : callback) : nat * option nat :=
  match cb with
  | Transform _ t => (t, None)
  | Member j pos => (j, Some pos)
  end.

(** The cell a transformation waits on, according to the origins. *)
Definition owner (g : list origin) (cb : callback) (d : nat) : Prop :=
  match cb with
  | Transform f t => g !! t = Some (Map f d)
  | Member j pos => ∃ ds, g !! j = Some (All ds) ∧ ds !! pos = Some d
  end.

(** The effect of a transformation has not happened yet. *)
Definition undelivered (cs : list cell) (cb : callback) : Prop :=
  match cb with
  | Transform _ t => ∃ c, cs !! t = Some c ∧ held c = None
  | Member j pos => ∃ c, cs !! j = Some c ∧ slots c !! pos = Some None
  end.

(** The log lists exactly the resolved cells with their values, each once. *)
Definition trace_ok (s : store) : Prop :=
  NoDup (trace s).*1 ∧ ∀ d v, (d, v) ∈ trace s ↔ value_of s d = Some v.

(** Only unresolved cells have transformations waiting, no two of them
    write to the same place, and each waits where the origins say. *)
Definition pending_ok (g : list origin) (cs : list cell) : Prop :=
  ∀ d c, cs !! d = Some c →
    (held c ≠ None → pending c = [])
    ∧ NoDup (key <$> pending c)
    ∧ ∀ cb, cb ∈ pending c → owner g cb d.

(** The transformations that are due: their cell is resolved with the value
    they carry, and their effect is still to come. *)
Definition work_ok (g : list origin) (cs : list cell) (work : list (callback * value)) : Prop :=
  NoDup (key <$> work.*1)
  ∧ ∀ cb v, (cb, v) ∈ work →
      undelivered cs cb
      ∧ ∃ d c, owner g cb d ∧ cs !! d = Some c ∧ held c = Some v.

(** The state of the cell [i] agrees with its origin: a transformation
    result is unresolved and queued while its source is unresolved, and
    resolved or due once the source is resolved; likewise each position of
    a fan-in cell, which itself is resolved exactly when it is complete. *)
Definition cell_ok (g : list origin) (cs : list cell) (work : list (callback * value))
    (i : nat) (c : cell) : Prop :=
  match g !! i with
  | None => False
  | Some Src => True
  | Some (Map f p) =>
      p < i ∧ ∃ cp, cs !! p = Some cp ∧
        match held cp with
        | None => held c = None ∧ Transform f i ∈ pending cp
        | Some v => held c = Some (f v) ∨ (held c = None ∧ (Transform f i, v) ∈ work)
        end
  | Some (All ds) =>
      length (slots c) = length ds
      ∧ held c = VList <$> gathered (slots c)
      ∧ ∀ pos d, ds !! pos = Some d →
          d < i ∧ ∃ cd, cs !! d = Some cd ∧
            match held cd with
            | None => slots c !! pos = Some None ∧ Member i pos ∈ pending cd
            | Some v =>
                slots c !! pos = Some (Some v)
                ∨ (slots c !! pos = Some None ∧ (Member i pos, v) ∈ work)
            end
  end.

(** In the log a result comes after what it was computed from. *)
Definition order_ok (g : list origin) (tr : list (nat * value)) : Prop :=
  ∀ pre i x post, tr = pre ++ (i, x) :: post →
    match g !! i with
    | Some (Map f p) => p ∈ pre.*1
    | Some (All ds) => ∀ d, d ∈ ds → d ∈ pre.*1
    | _ => True
    end.

Definition base_ok (g : list origin) (s : store) (work : list (callback * value)) : Prop :=
  length g = length (cells s)
  ∧ trace_ok s
  ∧ pending_ok g (cells s)
  ∧ work_ok g (cells s) work
  ∧ order_ok g (trace s).

(** The invariant of a run, with the cell [x] (if any) exempt from
    [cell_ok] while it is being resolved. *)
Definition coherent_but (x : option nat) (g : list origin) (s : store)
    (work : list (callback * value)) : Prop :=
  base_ok g s work
  ∧ ∀ i c, Some i ≠ x → cells s !! i = Some c → cell_ok g (cells s) work i c.

Definition coherent (g : list origin) (s : store) (work : list (callback * value)) : Prop :=
  coherent_but None g s work.

(** Between two resolutions nothing is due. *)
Definition settled (g : list origin) (s : store) : Prop := coherent g s [].

(** Nothing is resolved yet. *)
Definition blank (s : store) : Prop := ∀ k, value_of s k = None.

(** A delivery schedule the engine may follow from [s]: it resolves
    engine-owned cells only, each at most once, none resolved already. *)
Definition schedule_ok (g : list origin) (s : store) (events : list (nat * value)) : Prop :=
  NoDup events.*1
  ∧ ∀ d, d ∈ events.*1 → g !! d = Some Src ∧ value_of s d = None.

(** The cells [cs1] are the cells [cs] with further transformations queued
    on unresolved ones, all of them writing to the new cell [n]. *)
Definition grown (g' : list origin) (n : nat) (cs cs1 : list cell) : Prop :=
  length cs1 = length cs
  ∧ ∀ k ck, cs !! k = Some ck →
      ∃ extra, cs1 !! k = Some (Cell (held ck) (pending ck ++ extra) (slots ck))
        ∧ (held ck ≠ None → extra = [])
        ∧ NoDup (key <$> extra)
        ∧ ∀ cb, cb ∈ extra → (key cb).1 = n ∧ owner g' cb k.

(** The transformations [register_members] queues on the cell [k]. *)
Fixpoint member_callbacks (n pos : nat) (k : nat) (ds : list nat) : list callback :=
  match ds with
  | [] => []
  | d :: ds' =>
      (if decide (d = k) then [Member n pos] else [])
      ++ member_callbacks n (S pos) k ds'
  end.

(** [s'] is a later state of [s]: handles stay valid, the log is extended
    at its end, and what was resolved keeps its value. *)
Definition extends (s s' : store) : Prop :=
  length (cells s) ≤ length (cells s')
  ∧ trace s `prefix_of` trace s'
  ∧ ∀ k u, value_of s k = Some u → value_of s' k = Some u.

End Topology.

(** ** The compute topology and the final artifact *)

Module Cluster.
Import Text Deferred Topology Bootstrap AccessProfile.

(** The values the script reads through [pulumi.Config]. *)
Record config := Config {
  vpc_cidr : string;
  public_subnet_cidr : string;
  availability_zone : string;
  ubuntu_ami_id : string;
  k3s_token : string;
  access_key : string
}.

(** The defaults after the [or] of each [config.get]. *)
Definition default_config : config :=
  {| vpc_cidr := "10.0.0.0/16";
     public_subnet_cidr := "10.0.1.0/24";
     availability_zone := "ap-southeast-1a";
     ubuntu_ami_id := "ami-060e277c0d4cce553";
     k3s_token := "super-secret-token";
     access_key := "k3s-cluster" |}.

(** User data is either text known when the instance is declared or a
    deferred value. *)
Inductive payload :=
| Literal (text : string)
| Pending (cell : nat).

(** One [aws.ec2.Instance]: its arguments, and the handles of the two
    addresses the provider assigns. *)
Record instance := Instance {
  name : string;
  instance_type : string;
  ami : string;
  key_name : string;
  associate_public_ip_address : bool;
  user_data : payload;
  tag_name : string;
  depends_on : list string;
  private_ip : nat;
  public_ip : nat
}.

(** What the engine has been told so far: the deferred values and the
    resource names in the order of their declaration. *)
Record engine := Engine {
  outputs : store;
  registered : list string
}.

(** The resources declared before the instances. *)
Definition network_resources : list string :=
  [ "my-vpc"; "public-subnet"; "internet-gateway"; "public-route-table";
    "igw-route"; "public-route-table-association"; "k3s-secgrp" ].

(** The user data of the server instance. *)
Definition master_userdata (token : string) : string :=
  "#!/bin/bash" +:+ nl +:+
  "    sudo apt update" +:+ nl +:+
  "    sudo hostnamectl set-hostname k3s-master" +:+ nl +:+
  "    # Install K3s server" +:+ nl +:+
  "    curl -sfL https://get.k3s.io | K3S_TOKEN=" +:+ dq +:+ token +:+ dq +:+
  " sh -s - server " +:+ backslash +:+ nl +:+
  "    --cluster-init" +:+ nl +:+
  nl +:+
  "    # Wait for K3s to be ready" +:+ nl +:+
  "    export KUBECONFIG=/etc/rancher/k3s/k3s.yaml" +:+ nl +:+
  "    until /usr/local/bin/kubectl get nodes 2>/dev/null; do" +:+ nl +:+
  "        echo " +:+ dq +:+ "Waiting for K3s to start..." +:+ dq +:+ nl +:+
  "        sleep 5" +:+ nl +:+
  "    done" +:+ nl +:+
  nl +:+
  "    chown ubuntu:ubuntu /etc/rancher/k3s/k3s.yaml" +:+ nl +:+
  "    chmod 600 /etc/rancher/k3s/k3s.yaml" +:+ nl +:+
  "    ".

(** Declaring an instance: the engine notes the name and hands out fresh
    deferred values for the private and the public address. *)
Definition new_instance (e : engine) (cfg : config) (nm tag : string)
    (ud : payload) (deps : list string) : engine * instance :=
  let r1 := new_deferred (outputs e) in
  let r2 := new_deferred r1.1 in
  (Engine r2.1 (registered e ++ [nm]),
   Instance nm "t3.small" (ubuntu_ami_id cfg) (access_key cfg) true ud tag deps
            r1.2 r2.2).

(** An address is a string; a collection has no text. *)
Definition text_of (v : value) : string :=
  match v with
  | VStr s => s
  | VList _ => EmptyString
  end.

Definition texts_of (v : value) : list string :=
  match v with
  | VStr _ => []
  | VList vs => text_of <$> vs
  end.

(** [lambda ip, idx=i: make_worker_userdata(ip, idx)]. *)
Definition worker_userdata_of (token : string) (idx : nat) (ip : value) : value :=
  VStr (make_worker_userdata token (text_of ip) idx).

(** The loop over [range(1, num_workers + 1)], appending to [workers]. *)
Fixpoint worker_loop (cfg : config) (master : instance) (indices : list nat)
    (e : engine) (workers : list instance) : result (engine * list instance) :=
  match indices with
  | [] => Ok (e, workers)
  | i :: rest =>
      match transform (outputs e) (private_ip master)
                      (worker_userdata_of (k3s_token cfg) i) with
      | Ok (s1, worker_user_data) =>
          let r := new_instance (Engine s1 (registered e)) cfg
                     ("worker" +:+ str i +:+ "-instance")
                     ("k3s-worker" +:+ str i)
                     (Pending worker_user_data) [name master] in
          worker_loop cfg master rest r.1 (workers ++ [r.2])
      | Fatal err => Fatal err
      | OutOfFuel => OutOfFuel
      end
  end.

(** [create_config_file] as the function given to [apply]: it returns
    nothing, and what it does is to write the file; the value of the
    result cell stands for the text written. *)
Definition config_file_text (num_workers : nat) (all_ips : value) : value :=
  match config_content num_workers (texts_of all_ips) with
  | Some content => VStr content
  | None => VList []
  end.

Record cluster := Cluster {
  state : engine;
  master_instance : instance;
  workers : list instance;
  all_ips : list nat;
  config_written : nat
}.

(** The script from the declaration of the server instance on. *)
Definition provision (cfg : config) (num_workers : nat) : result cluster :=
  let e0 := Engine empty network_resources in
  let r := new_instance e0 cfg "master-instance" "k3s-master"
             (Literal (master_userdata (k3s_token cfg))) [] in
  match worker_loop cfg r.2 (worker_indices num_workers) r.1 [] with
  | Ok (e2, ws) =>
      let ips := public_ip r.2 :: (public_ip <$> ws) in
      match fan_in (outputs e2) ips with
      | Ok (s3, collected) =>
          match transform s3 collected (config_file_text (length ws)) with
          | Ok (s4, written) =>
              Ok (Cluster (Engine s4 (registered e2)) r.2 ws ips written)
          | Fatal err => Fatal err
          | OutOfFuel => OutOfFuel
          end
      | Fatal err => Fatal err
      | OutOfFuel => OutOfFuel
      end
  | Fatal err => Fatal err
  | OutOfFuel => OutOfFuel
  end.

(** The files on the machine once the deferred values are in state [s]:
    the configuration is there if and only if the write has happened, and
    a write that [open] refuses leaves the files as they were. *)
Definition files_after (home : string) (fs : gmap string node)
    (c : cluster) (s : store) : gmap string node :=
  match value_of s (config_written c) with
  | Some (VStr content) =>
      match write_file fs (config_path home) content with
      | Returned fs' => fs'
      | Raised _ => fs
      end
  | _ => fs
  end.

(** How the loop wires the worker with index [i]: its names, the explicit
    dependency on the server instance, user data computed from the
    server's private address, and two addresses of its own. *)
Definition worker_wired (g : list origin) (cfg : config) (m : instance)
    (i : nat) (w : instance) : Prop :=
  name w = "worker" +:+ str i +:+ "-instance"
  ∧ tag_name w = "k3s-worker" +:+ str i
  ∧ depends_on w = [name m]
  ∧ (∃ ud, user_data w = Pending ud
           ∧ g !! ud = Some (Map (worker_userdata_of (k3s_token cfg) i) (private_ip m)))
  ∧ g !! private_ip w = Some Src
  ∧ g !! public_ip w = Some Src.

(** The deferred values the provider resolves: the two addresses of every
    instance. *)
Definition provider_cells (c : cluster) : list nat :=
  private_ip (master_instance c) :: public_ip (master_instance c)
  :: flat_map (λ w, [private_ip w; public_ip w]) (workers c).

(** A delivery of provider-assigned addresses, in the order of the list:
    each address at most once. *)
Definition delivery (c : cluster) (events : list (nat * value)) : Prop :=
  NoDup events.*1 ∧ ∀ d, d ∈ events.*1 → d ∈ provider_cells c.

(** What [provision] builds, in terms of origins. *)
Definition wired (g : list origin) (cfg : config) (num_workers : nat) (c : cluster) : Prop :=
  name (master_instance c) = "master-instance"
  ∧ depends_on (master_instance c) = []
  ∧ g !! private_ip (master_instance c) = Some Src
  ∧ g !! public_ip (master_instance c) = Some Src
  ∧ Forall2 (worker_wired g cfg (master_instance c))
            (worker_indices num_workers) (workers c)
  ∧ registered (state c)
    = network_resources ++ name (master_instance c) :: (name <$> workers c)
  ∧ all_ips c = public_ip (master_instance c) :: (public_ip <$> workers c)
  ∧ ∃ collected, g !! collected = Some (All (all_ips c))
                 ∧ g !! config_written c
                   = Some (Map (config_file_text num_workers) collected).

(** The alias of the host at a position of the file. *)
Definition host_at (i : nat) : string :=
  match i with
  | 0 => "master"
  | S k => "worker-" +:+ str (k + 1)
  end.

(** [a] is requested before [b] in an order of creation requests. *)
Definition before (a b : string) (order : list string) : Prop :=
  ∃ l1 l2 l3, order = l1 ++ a :: l2 ++ b :: l3.

(** An order of creation requests honours the declared dependencies. *)
Definition honours (insts : list instance) (order : list string) : Prop :=
  ∀ r dep, r ∈ insts → dep ∈ depends_on r → name r ∈ order →
           before dep (name r) order.

End Cluster.

(** ** Settings *)

Module Settings.
Import Cluster.

(** [config.get(key) or default]: the default stands in for a missing
    value and, [or] being what it is, for an empty one. *)
Definition get_or (raw : gmap string string) (key default : string) : string :=
  match raw !! key with
  | Some v => if decide (v = EmptyString) then default else v
  | None => default
  end.

(** The six assignments at the top of the script; [raw] is what
    [pulumi.Config()] holds. *)
Definition load_config (raw : gmap string string) : config :=
  {| vpc_cidr := get_or raw "vpc_cidr" "10.0.0.0/16";
     public_subnet_cidr := get_or raw "public_subnet_cidr" "10.0.1.0/24";
     availability_zone := get_or raw "availability_zone" "ap-southeast-1a";
     ubuntu_ami_id := get_or raw "ami_id" "ami-060e277c0d4cce553";
     k3s_token := get_or raw "k3s_token" "super-secret-token";
     access_key := get_or raw "k3sCluster" "k3s-cluster" |}.

(** The keys the script asks for. *)
Definition config_keys : list string :=
  [ "vpc_cidr"; "public_subnet_cidr"; "availability_zone"; "ami_id";
    "k3s_token"; "k3sCluster" ].

End Settings.

(** ** Decimal digits *)

Module Digits.

Definition is_digit (c : ascii) : bool :=
  match Ascii.is_nat c with
  | Some _ => true
  | None => false
  end.

Fixpoint all_digits (s : string) : bool :=
  match s with
  | EmptyString => true
  | String c rest => is_digit c && all_digits rest
  end.

(** The string is not empty and does not start with a digit. *)
Definition starts_plain (s : string) : bool :=
  match s with
  | EmptyString => false
  | String c _ => negb (is_digit c)
  end.

End Digits.

(** ** What the user data does to a node *)

Module Hostnames.
Import Text.


End Hostnames.

(** ** The resources in the order of their declaration *)

Module Declarations.
Import Cluster.

(** A resource as the script declares it: its name, its class, the
    resources whose outputs appear among its arguments, and the resources
    in its [depends_on]. *)
Record declaration := Declaration {
  dname : string;
  dkind : string;
  takes_from : list string;
  waits_for : list string
}.

(** From [aws.ec2.Vpc] to [aws.ec2.SecurityGroup]. *)
Definition network_declarations : list declaration :=
  [ Declaration "my-vpc" "aws.ec2.Vpc" [] [];
    Declaration "public-subnet" "aws.ec2.Subnet" ["my-vpc"] [];
    Declaration "internet-gateway" "aws.ec2.InternetGateway" ["my-vpc"] [];
    Declaration "public-route-table" "aws.ec2.RouteTable" ["my-vpc"] [];
    Declaration "igw-route" "aws.ec2.Route"
                ["public-route-table"; "internet-gateway"] [];
    Declaration "public-route-table-association" "aws.ec2.RouteTableAssociation"
                ["public-subnet"; "public-route-table"] [];
    Declaration "k3s-secgrp" "aws.ec2.SecurityGroup" ["my-vpc"; "public-subnet"] [] ].

(** Every instance takes the security group's and the subnet's id; a worker
    also takes the server's private address, through its user data. *)
Definition declare_instance (more : list string) (i : instance) : declaration :=
  Declaration (name i) "aws.ec2.Instance"
              ("k3s-secgrp" :: "public-subnet" :: more) (depends_on i).

Definition declarations (c : cluster) : list declaration :=
  network_declarations
  ++ declare_instance [] (master_instance c)
  :: (declare_instance [name (master_instance c)] <$> workers c).

(** Whatever the [i]-th declaration refers to is the name of a declaration
    before it. *)
Definition declared_before_use (ds : list declaration) : Prop :=
  ∀ i d r, ds !! i = Some d → r ∈ takes_from d ++ waits_for d →
           ∃ j, j < i ∧ dname <$> ds !! j = Some r.

End Declarations.

(** ** Stack outputs *)

Module Exports.
Import Text Cluster.

(** What [pulumi.export] is given: the id of a resource or one of the
    deferred attributes of an instance. *)
Inductive exported :=
| ResourceId (resource : string)
| Attribute (cell : nat).

(** [enumerate(l, start=k)]. *)
Definition enumerate_from {A} (k : nat) (l : list A) : list (nat * A) :=
  zip (seq k (length l)) l.

(** The three exports of one pass of the last loop. *)
Definition worker_exports (p : nat * instance) : list (string * exported) :=
  [ ("worker" +:+ str p.1 +:+ "_instance_id", ResourceId (name p.2));
    ("worker" +:+ str p.1 +:+ "_instance_public_ip", Attribute (public_ip p.2));
    ("worker" +:+ str p.1 +:+ "_private_ip", Attribute (private_ip p.2)) ].

(** The names the three exports of worker [i] go under. *)
Definition export_names (i : nat) : list string :=
  [ "worker" +:+ str i +:+ "_instance_id";
    "worker" +:+ str i +:+ "_instance_public_ip";
    "worker" +:+ str i +:+ "_private_ip" ].

(** The calls of [pulumi.export], in order. *)
Definition exports (c : cluster) : list (string * exported) :=
  [ ("vpc_id", ResourceId "my-vpc");
    ("public_subnet_id", ResourceId "public-subnet");
    ("igw_id", ResourceId "internet-gateway");
    ("public_route_table_id", ResourceId "public-route-table");
    ("master_instance_id", ResourceId (name (master_instance c)));
    ("master_instance_public_ip", Attribute (public_ip (master_instance c)));
    ("master_private_ip", Attribute (private_ip (master_instance c))) ]
  ++ (enumerate_from 1 (workers c) ≫= worker_exports).

(** The outputs of the stack: a later export under the same name would
    replace an earlier one. *)
Definition stack_outputs (c : cluster) : gmap string exported :=
  list_to_map (reverse (exports c)).

End Exports.

(** * Part II: lemmas and theorems *)

(** ** Strings *)

Module TextFacts.
Import Text.

Lemma sapp_cons (x : ascii) (a b : string) :
  String x a +:+ b = String x (a +:+ b).
Proof. reflexivity. Qed.

Lemma sapp_assoc (a b c : string) : (a +:+ b) +:+ c = a +:+ b +:+ c.
Proof. induction a as [|x a IH]; [done|]. by rewrite !sapp_cons, IH. Qed.

Lemma sapp_nil_r (a : string) : a +:+ EmptyString = a.
Proof. induction a as [|x a IH]; [done|]. by rewrite sapp_cons, IH. Qed.

Lemma slength_app (a b : string) :
  String.length (a +:+ b) = String.length a + String.length b.
Proof. induction a as [|x a IH]; [done|]. rewrite sapp_cons. cbn. by rewrite IH. Qed.

(** Appending on the right is injective, as appending on the left is. *)
Lemma sapp_inj_r (a b c : string) : a +:+ c = b +:+ c → a = b.
Proof.
  revert b. induction a as [|x a IH]; intros [|y b] H.
  - done.
  - apply (f_equal String.length) in H. rewrite !slength_app in H.
    cbn in H. lia.
  - apply (f_equal String.length) in H. rewrite !slength_app in H.
    cbn in H. lia.
  - rewrite !sapp_cons in H. injection H as -> H. f_equal. by apply IH.
Qed.

Lemma str_inj (i j : nat) : str i = str j → i = j.
Proof. unfold str. apply (inj pretty). Qed.

End TextFacts.

(** ** The security group *)

Module SecurityFacts.
Import SecurityPolicy.

Ltac each_ingress_rule H :=
  cbn in H; repeat (apply elem_of_cons in H as [->|H]); [..|by apply elem_of_nil in H].

(** C7. Whatever the subnet range, every ingress rule that applies to the
    k3s API port (TCP 6443) or to the flannel VXLAN port (UDP 8472) has the
    subnet range as its only source; the open internet is a source of such
    a rule exactly when the subnet range itself is 0.0.0.0/0. *)
Theorem api_and_overlay_scoped_to_subnet (subnet_cidr : string) (r : rule) :
  r ∈ ingress (k3s_security_group subnet_cidr) →
  covers r "tcp" 6443 = true ∨ covers r "udp" 8472 = true →
  cidr_blocks r = [subnet_cidr]
  ∧ (open_internet ∈ cidr_blocks r ↔ subnet_cidr = open_internet).
Proof.
  intros Hr Hc.
  assert (cidr_blocks r = [subnet_cidr]) as Hsrc.
  { each_ingress_rule Hr; try reflexivity;
      destruct Hc as [Hc|Hc]; vm_compute in Hc; discriminate. }
  split; [done|]. rewrite Hsrc. split.
  - by intros ->%list_elem_of_singleton.
  - intros ->. apply list_elem_of_here.
Qed.

Lemma api_and_overlay_scoped_to_subnet_witness :
  cidr_blocks (Rule "tcp" 6443 6443 ["10.0.1.0/24"]) = ["10.0.1.0/24"]
  ∧ open_internet ∉ cidr_blocks (Rule "tcp" 6443 6443 ["10.0.1.0/24"]).
Proof.
  destruct (api_and_overlay_scoped_to_subnet "10.0.1.0/24"
              (Rule "tcp" 6443 6443 ["10.0.1.0/24"])) as [H1 H2].
  - cbn. apply elem_of_cons. by left.
  - left. reflexivity.
  - split; [exact H1|]. intros Hin. apply H2 in Hin. discriminate.
Defined.

(** With the subnet range 0.0.0.0/0 the rules for the API port and for
    the VXLAN port are in the security group with the open internet as
    their source: "never to the open internet" does not hold for every
    subnet range. *)
Lemma api_and_overlay_open_for_open_subnet :
  Rule "tcp" 6443 6443 [open_internet] ∈ ingress (k3s_security_group "0.0.0.0/0")
  ∧ covers (Rule "tcp" 6443 6443 [open_internet]) "tcp" 6443 = true
  ∧ open_internet ∈ cidr_blocks (Rule "tcp" 6443 6443 [open_internet])
  ∧ Rule "udp" 8472 8472 [open_internet] ∈ ingress (k3s_security_group "0.0.0.0/0")
  ∧ covers (Rule "udp" 8472 8472 [open_internet]) "udp" 8472 = true
  ∧ open_internet ∈ cidr_blocks (Rule "udp" 8472 8472 [open_internet]).
Proof.
  split; [apply list_elem_of_here|]. split; [done|].
  split; [apply list_elem_of_here|].
  split; [apply list_elem_of_further, list_elem_of_here|]. split; [done|].
  apply list_elem_of_here.
Qed.

(** C8. The rules that apply to SSH, HTTP and HTTPS, for any subnet range:
    ports 22 and 80 take the open internet as source, port 443 takes the
    subnet range only. *)
Theorem admin_and_application_rules (subnet_cidr : string) :
  rules_for (k3s_security_group subnet_cidr) "tcp" 22
    = [Rule "tcp" 22 22 [open_internet]; Rule "-1" 0 0 [subnet_cidr]]
  ∧ rules_for (k3s_security_group subnet_cidr) "tcp" 80
    = [Rule "tcp" 80 80 [open_internet]; Rule "-1" 0 0 [subnet_cidr]]
  ∧ rules_for (k3s_security_group subnet_cidr) "tcp" 443
    = [Rule "tcp" 443 443 [subnet_cidr]; Rule "-1" 0 0 [subnet_cidr]].
Proof. done. Qed.

(** A source outside the subnet cannot reach port 443, although it reaches
    port 80 as soon as it is part of the open internet. *)
Lemma https_closed_to_outside {addr} (in_cidr : string → addr → bool)
    (subnet_cidr : string) (src : addr) :
  in_cidr subnet_cidr src = false →
  allows in_cidr (ingress (k3s_security_group subnet_cidr)) "tcp" 443 src = false
  ∧ allows in_cidr (ingress (k3s_security_group subnet_cidr)) "tcp" 80 src
    = in_cidr open_internet src.
Proof.
  intros H. unfold allows, rule_allows. cbn. rewrite !H.
  by destruct (in_cidr open_internet src).
Qed.

(** C10. The ingress table holds a rule for every protocol and every port
    (protocol -1, ports 0 to 0) with the subnet range as source; hence any
    source inside the subnet is admitted on any protocol and port, and
    dropping the single-port rules for 6443, 8472 and 443 changes nothing
    for any traffic. *)
Theorem catch_all_subnet_rule (subnet_cidr : string) :
  Rule "-1" 0 0 [subnet_cidr] ∈ ingress (k3s_security_group subnet_cidr)
  ∧ (∀ (addr : Type) (in_cidr : string → addr → bool) proto port src,
       in_cidr subnet_cidr src = true →
       allows in_cidr (ingress (k3s_security_group subnet_cidr)) proto port src = true)
  ∧ (∀ (addr : Type) (in_cidr : string → addr → bool) proto port src,
       allows in_cidr
         (filter (λ r, from_port r ∉ subnet_ports)
                 (ingress (k3s_security_group subnet_cidr)))
         proto port src
       = allows in_cidr (ingress (k3s_security_group subnet_cidr)) proto port src).
Proof.
  split; [|split].
  - cbn. do 5 apply list_elem_of_further. apply list_elem_of_here.
  - intros addr in_cidr proto port src H.
    unfold allows, rule_allows. cbn. rewrite !H.
    rewrite !orb_true_r. reflexivity.
  - intros addr in_cidr proto port src.
    assert (filter (λ r, from_port r ∉ subnet_ports)
                   (ingress (k3s_security_group subnet_cidr))
            = [Rule "tcp" 22 22 [open_internet]; Rule "tcp" 80 80 [open_internet];
               Rule "-1" 0 0 [subnet_cidr]]) as -> by (by vm_compute).
    unfold allows, rule_allows. cbn.
    destruct (in_cidr subnet_cidr src), (in_cidr open_internet src);
      cbn; rewrite ?andb_false_r, ?andb_true_r, ?orb_false_r, ?orb_true_r;
      reflexivity.
Qed.

Lemma catch_all_subnet_rule_witness :
  allows (λ c a, bool_decide (c = a))
    (ingress (k3s_security_group "10.0.1.0/24")) "tcp" 30000%Z "10.0.1.0/24" = true.
Proof.
  destruct (catch_all_subnet_rule "10.0.1.0/24") as (_ & H & _).
  apply H. reflexivity.
Defined.

End SecurityFacts.

(** ** Worker bootstrap payload *)

Module BootstrapFacts.
Import Text TextFacts Bootstrap.

(** A payload is a fixed head, the index, and a tail that depends on the
    token and the address only. *)
Lemma make_worker_userdata_split (k3s_token ip : string) (index : nat) :
  make_worker_userdata k3s_token ip index
  = payload_head +:+ str index +:+ payload_tail k3s_token ip.
Proof.
  unfold make_worker_userdata, payload_head, payload_tail.
  by rewrite !sapp_assoc.
Qed.

Lemma make_worker_userdata_token (k3s_token ip : string) (index : nat) :
  contains (make_worker_userdata k3s_token ip index) (token_setting k3s_token).
Proof.
  exists (payload_head +:+ str index +:+ nl +:+
          "    # Install K3s agent" +:+ nl +:+
          "    curl -sfL https://get.k3s.io | "),
         (" K3S_URL=https://" +:+ ip +:+ ":6443 sh -s -" +:+ nl +:+ "    ").
  unfold make_worker_userdata, payload_head, token_setting.
  by rewrite !sapp_assoc.
Qed.

Lemma make_worker_userdata_url (k3s_token ip : string) (index : nat) :
  contains (make_worker_userdata k3s_token ip index) (url_setting ip).
Proof.
  exists (payload_head +:+ str index +:+ nl +:+
          "    # Install K3s agent" +:+ nl +:+
          "    curl -sfL https://get.k3s.io | " +:+ token_setting k3s_token +:+ " "),
         (" sh -s -" +:+ nl +:+ "    ").
  unfold make_worker_userdata, payload_head, token_setting, url_setting, join_url.
  by rewrite !sapp_assoc.
Qed.

Lemma make_worker_userdata_inj (k3s_token ip : string) (i j : nat) :
  make_worker_userdata k3s_token ip i = make_worker_userdata k3s_token ip j →
  i = j.
Proof.
  rewrite !make_worker_userdata_split. intros H.
  apply (inj (String.app payload_head)) in H.
  apply sapp_inj_r in H.
  by apply str_inj.
Qed.

Lemma worker_payloads_lookup (k3s_token ip : string) (num_workers i : nat) :
  i < num_workers →
  worker_payloads k3s_token ip num_workers !! i
  = Some (make_worker_userdata k3s_token ip (i + 1)).
Proof.
  intros Hi. unfold worker_payloads, worker_indices.
  rewrite list_lookup_fmap, lookup_seq_lt by done.
  cbn. do 2 f_equal. lia.
Qed.

(** The payloads as a list: for every worker count, the loop yields exactly
    that many payloads; the payload of worker [i + 1] is the fixed head, the
    index and a tail built from the token and the address alone, so two
    payloads differ in the hostname suffix only (and do differ there);
    every payload carries the token setting and the join URL on port
    6443. *)
Lemma worker_payloads_shape (k3s_token ip : string) (num_workers : nat) :
  length (worker_payloads k3s_token ip num_workers) = num_workers
  ∧ (∀ i, i < num_workers →
       worker_payloads k3s_token ip num_workers !! i
       = Some (payload_head +:+ str (i + 1) +:+ payload_tail k3s_token ip))
  ∧ (∀ p, p ∈ worker_payloads k3s_token ip num_workers →
       contains p (token_setting k3s_token) ∧ contains p (url_setting ip))
  ∧ (∀ i j p, worker_payloads k3s_token ip num_workers !! i = Some p →
       worker_payloads k3s_token ip num_workers !! j = Some p → i = j).
Proof.
  assert (length (worker_payloads k3s_token ip num_workers) = num_workers) as Hlen.
  { unfold worker_payloads, worker_indices. by rewrite length_map, length_seq. }
  split; [done|]. split; [|split].
  - intros i Hi. rewrite worker_payloads_lookup by done.
    by rewrite make_worker_userdata_split.
  - intros p Hp. unfold worker_payloads in Hp.
    apply list_elem_of_fmap in Hp as (idx & -> & _).
    split; [apply make_worker_userdata_token | apply make_worker_userdata_url].
  - intros i j p Hi Hj.
    assert (i < num_workers) as Hi' by (rewrite <- Hlen; by eapply lookup_lt_Some).
    assert (j < num_workers) as Hj' by (rewrite <- Hlen; by eapply lookup_lt_Some).
    rewrite worker_payloads_lookup in Hi, Hj by done.
    assert (make_worker_userdata k3s_token ip (i + 1)
            = make_worker_userdata k3s_token ip (j + 1)) as Heq by congruence.
    apply make_worker_userdata_inj in Heq. lia.
Qed.

Example worker_payloads_two :
  worker_payloads "T" "10.0.1.5" 2
  = [ "#!/bin/bash" +:+ nl +:+
      "    sudo apt update" +:+ nl +:+
      "    sudo hostnamectl set-hostname k3s-worker1" +:+ nl +:+
      "    # Install K3s agent" +:+ nl +:+
      "    curl -sfL https://get.k3s.io | K3S_TOKEN=" +:+ dq +:+ "T" +:+ dq +:+
      " K3S_URL=https://10.0.1.5:6443 sh -s -" +:+ nl +:+ "    ";
      "#!/bin/bash" +:+ nl +:+
      "    sudo apt update" +:+ nl +:+
      "    sudo hostnamectl set-hostname k3s-worker2" +:+ nl +:+
      "    # Install K3s agent" +:+ nl +:+
      "    curl -sfL https://get.k3s.io | K3S_TOKEN=" +:+ dq +:+ "T" +:+ dq +:+
      " K3S_URL=https://10.0.1.5:6443 sh -s -" +:+ nl +:+ "    " ].
Proof. by vm_compute. Qed.

End BootstrapFacts.

(** ** The ssh client configuration *)

Module AccessProfileFacts.
Import Text TextFacts AccessProfile.

Lemma length_hosts (num_workers : nat) : length (hosts num_workers) = S num_workers.
Proof. unfold hosts. cbn. by rewrite length_map, length_seq. Qed.

Lemma hosts_lookup_master (num_workers : nat) : hosts num_workers !! 0 = Some "master".
Proof. done. Qed.

Lemma hosts_lookup_worker (num_workers i : nat) :
  i < num_workers → hosts num_workers !! S i = Some ("worker-" +:+ str (i + 1)).
Proof.
  intros Hi. unfold hosts. rewrite lookup_cons.
  by rewrite list_lookup_fmap, lookup_seq_lt.
Qed.

(** The loop visits the hosts in list order and pairs the host at position
    [idx] with [all_ips[idx]]. *)
Lemma config_loop_zip (hs : list string) :
  ∀ (pre ips acc : list string),
    length hs ≤ length ips →
    config_loop (zip (seq (length pre) (length hs)) hs) (pre ++ ips) acc
    = Some (acc ++ concat (map (λ p, host_lines p.1 p.2) (zip hs ips))).
Proof.
  induction hs as [|h hs IH]; intros pre ips acc Hlen.
  - cbn. by rewrite app_nil_r.
  - destruct ips as [|ip ips]; [cbn in Hlen; lia|].
    cbn [length seq zip zip_with config_loop].
    rewrite lookup_app_r, Nat.sub_diag by done. cbn [lookup list_lookup].
    specialize (IH (pre ++ [ip]) ips (acc ++ host_lines h ip)).
    rewrite length_app, Nat.add_1_r, <- (assoc_L (++)) in IH. cbn [app] in IH.
    rewrite IH by (cbn in Hlen; lia).
    cbn [map concat fst snd]. by rewrite <- (assoc_L (++)).
Qed.

Lemma config_content_defined (num_workers : nat) (all_ips : list string) :
  S num_workers ≤ length all_ips →
  config_content num_workers all_ips
  = Some (join nl (concat (map (λ p, host_lines p.1 p.2)
                               (zip (hosts num_workers) all_ips)))).
Proof.
  intros Hlen. unfold config_content, enumerate.
  pose proof (config_loop_zip (hosts num_workers) [] all_ips []) as H.
  cbn [length app] in H. rewrite H; [done|].
  by rewrite length_hosts.
Qed.

(** With fewer addresses than hosts the indexing fails. *)
Lemma config_loop_short (hs : list string) :
  ∀ (pre ips acc : list string),
    length ips < length hs →
    config_loop (zip (seq (length pre) (length hs)) hs) (pre ++ ips) acc = None.
Proof.
  induction hs as [|h hs IH]; intros pre ips acc Hlen; [cbn in Hlen; lia|].
  cbn [length seq zip zip_with config_loop].
  destruct ips as [|ip ips].
  - rewrite app_nil_r, lookup_ge_None_2; done.
  - rewrite lookup_app_r, Nat.sub_diag by done. cbn [lookup list_lookup].
    specialize (IH (pre ++ [ip]) ips (acc ++ host_lines h ip)).
    rewrite length_app, Nat.add_1_r, <- (assoc_L (++)) in IH. cbn [app] in IH.
    apply IH. cbn in Hlen. lia.
Qed.

(** The text the loop and the final join produce: the entries, three line
    feeds between two of them, two line feeds after the last. *)
Lemma join_host_lines (pairs : list (string * string)) :
  pairs ≠ [] →
  join nl (concat (map (λ p, host_lines p.1 p.2) pairs))
  = join entry_gap (map (λ p, entry p.1 p.2) pairs) +:+ nl +:+ nl.
Proof.
  induction pairs as [|[h ip] pairs IH]; [done|]. intros _.
  destruct pairs as [|q pairs].
  - unfold join, entry, host_lines. cbn [map concat app fst snd String.concat].
    by rewrite !sapp_assoc, sapp_nil_r.
  - specialize (IH ltac:(done)).
    remember (q :: pairs) as l eqn:Hl.
    unfold join in *. cbn [map concat fst snd].
    unfold host_lines at 1. cbn [app].
    destruct (concat (map (λ p, host_lines p.1 p.2) l)) as [|x rest] eqn:Hrest.
    + subst l. cbn in Hrest. discriminate.
    + cbn [String.concat] in *. rewrite IH.
      destruct (map (λ p, entry p.1 p.2) l) as [|y ys] eqn:Hmap.
      * subst l. cbn in Hmap. discriminate.
      * unfold entry at 1, entry_gap. by rewrite !sapp_assoc.
Qed.

(** Text put in front of a path that keeps something after stripping
    stays in front. *)
Lemma rstrip_slash_app (a t : string) :
  rstrip_slash t ≠ EmptyString → rstrip_slash (a +:+ t) = a +:+ rstrip_slash t.
Proof.
  intros Ht. induction a as [|x a IH]; [done|].
  rewrite !sapp_cons. cbn [rstrip_slash]. rewrite IH.
  destruct (a +:+ rstrip_slash t) as [|y rest] eqn:Heq; [|done].
  destruct a; [|discriminate]. by destruct Ht.
Qed.

Lemma upto_last_slash_app (a t : string) :
  upto_last_slash t ≠ EmptyString →
  upto_last_slash (a +:+ t) = a +:+ upto_last_slash t.
Proof.
  intros Ht. induction a as [|x a IH]; [done|].
  rewrite !sapp_cons. cbn [upto_last_slash]. rewrite IH.
  destruct (a +:+ upto_last_slash t) as [|y rest] eqn:Heq; [|done].
  destruct a; [|discriminate]. by destruct Ht.
Qed.


Lemma config_path_eq (home : string) :
  config_path home = rstrip_slash home +:+ "/.ssh/config".
Proof. done. Qed.

(** The file is looked up in the directory [.ssh] of the home directory. *)
Lemma config_path_dirname (home : string) :
  dirname (config_path home) = rstrip_slash home +:+ "/.ssh".
Proof.
  rewrite config_path_eq. unfold dirname.
  rewrite (upto_last_slash_app _ "/.ssh/config") by done.
  change (upto_last_slash "/.ssh/config") with "/.ssh/".
  rewrite (rstrip_slash_app _ "/.ssh/") by done.
  change (rstrip_slash "/.ssh/") with "/.ssh".
  by destruct (rstrip_slash home).
Qed.

Lemma config_path_dirname_ne (home : string) :
  dirname (config_path home) ≠ config_path home.
Proof.
  rewrite config_path_dirname, config_path_eq. intros H.
  by apply (inj (String.app _)) in H.
Qed.

(** When the open succeeds, and what the write leaves. *)
Lemma write_file_Returned (fs fs' : gmap string node) (path content : string) :
  write_file fs path content = Returned fs'
  ↔ can_write fs path ∧ fs' = <[path := File content]> fs.
Proof.
  unfold write_file, can_write.
  destruct (fs !! dirname path) as [[old|]|]; [split; [done|by intros [[? _] _]]|
    |split; [done|by intros [[? _] _]]].
  destruct (fs !! path) as [[old|]|]; split.
  - intros [= <-]. split; [split|]; done.
  - by intros [_ ->].
  - done.
  - by intros [[_ ?] _].
  - intros [= <-]. split; [split|]; done.
  - by intros [_ ->].
Qed.

Lemma write_file_can_write (fs : gmap string node) (path content : string) :
  can_write fs path →
  write_file fs path content = Returned (<[path := File content]> fs).
Proof. intros H. by apply write_file_Returned. Qed.


(** The write replaces what was there: the result does not depend on the
    previous content of the file, and writing again changes nothing. *)
Lemma create_config_file_overwrites (num_workers : nat) (home : string)
    (fs : gmap string node) (old : string) (all_ips : list string) :
  fs !! config_path home ≠ Some Directory →
  create_config_file num_workers home (<[config_path home := File old]> fs) all_ips
  = create_config_file num_workers home fs all_ips.
Proof.
  intros Hnd. unfold create_config_file, write_file.
  destruct (config_content num_workers all_ips); [|done].
  rewrite lookup_insert_ne by (apply not_eq_sym, config_path_dirname_ne).
  rewrite lookup_insert_eq, insert_insert_eq.
  destruct (fs !! dirname (config_path home)) as [[?|]|]; try done.
  by destruct (fs !! config_path home) as [[?|]|].
Qed.

Lemma create_config_file_idempotent (num_workers : nat) (home : string)
    (fs fs' : gmap string node) (all_ips : list string) :
  create_config_file num_workers home fs all_ips = Returned fs' →
  create_config_file num_workers home fs' all_ips = Returned fs'.
Proof.
  unfold create_config_file.
  destruct (config_content num_workers all_ips); [|done].
  intros [[Hdir _] ->]%write_file_Returned. apply write_file_Returned.
  split; [split|].
  - rewrite lookup_insert_ne by (apply not_eq_sym, config_path_dirname_ne). done.
  - by rewrite lookup_insert_eq.
  - by rewrite insert_insert_eq.
Qed.

(** C9. The file written for one worker, with addresses 1.2.3.4 and
    5.6.7.8, line by line: each entry has its four fields, and two empty
    lines, not one, stand between the two entries (one more empty line
    ends the file). *)
Theorem config_file_two_hosts :
  lines <$> config_content 1 ["1.2.3.4"; "5.6.7.8"]
  = Some [ "Host master"; "  HostName 1.2.3.4"; "  User ubuntu";
           "  IdentityFile ~/.ssh/k3s-cluster.id_rsa";
           EmptyString; EmptyString;
           "Host worker-1"; "  HostName 5.6.7.8"; "  User ubuntu";
           "  IdentityFile ~/.ssh/k3s-cluster.id_rsa";
           EmptyString; EmptyString ].
Proof. by vm_compute. Qed.

(** The same for every worker count and every list of addresses. *)
Lemma config_content_shape (num_workers : nat) (all_ips : list string) :
  S num_workers ≤ length all_ips →
  config_content num_workers all_ips
  = Some (join entry_gap (map (λ p, entry p.1 p.2) (zip (hosts num_workers) all_ips))
          +:+ nl +:+ nl).
Proof.
  intros Hlen. rewrite config_content_defined by done.
  rewrite join_host_lines; [done|].
  destruct all_ips; [cbn in Hlen; lia|done].
Qed.

End AccessProfileFacts.

(** ** Deferred values *)

Module DeferredFacts.
Import Deferred Topology.

(** *** Reading and writing cells *)

Lemma value_of_Some (s : store) (d : nat) (v : value) :
  value_of s d = Some v ↔ ∃ c, cells s !! d = Some c ∧ held c = Some v.
Proof.
  unfold value_of. destruct (cells s !! d) as [c|]; cbn; naive_solver.
Qed.

Lemma value_of_None (s : store) (d : nat) (c : cell) :
  cells s !! d = Some c → value_of s d = held c.
Proof. unfold value_of. by intros ->. Qed.

Lemma assign_Ok (s s' : store) (x : nat) (w : value) (cbs : list callback) :
  assign s x w = Ok (s', cbs) ↔
  ∃ c, cells s !! x = Some c ∧ held c = None ∧ cbs = pending c
       ∧ s' = Store (<[x := Cell (Some w) [] (slots c)]> (cells s))
                    (trace s ++ [(x, w)]).
Proof.
  unfold assign. destruct (cells s !! x) as [c|] eqn:Hc.
  - destruct (held c) eqn:Hh; [naive_solver|].
    split; [intros [= <- <-]; eauto|]. by intros (c' & [= <-] & _ & -> & ->).
  - naive_solver.
Qed.

(** A resolved cell refuses a second value. *)
Lemma assign_resolved (s : store) (x : nat) (v w : value) :
  value_of s x = Some v → assign s x w = Fatal (AlreadyResolved x).
Proof.
  intros (c & Hc & Hv)%value_of_Some. unfold assign. by rewrite Hc, Hv.
Qed.

(** *** Fuel *)

Lemma weight_insert (cs : list cell) (x : nat) (c c' : cell) :
  cs !! x = Some c →
  weight (<[x := c']> cs) + length (pending c) = weight cs + length (pending c').
Proof.
  unfold weight. revert x. induction cs as [|c0 cs IH]; intros [|x] H; try done.
  - injection H as ->. simpl. lia.
  - specialize (IH x H). simpl. lia.
Qed.

Lemma assign_weight (s s' : store) (x : nat) (w : value) (cbs : list callback) :
  assign s x w = Ok (s', cbs) →
  weight (cells s') + length cbs = weight (cells s).
Proof.
  intros (c & Hc & _ & -> & ->)%assign_Ok. simpl.
  pose proof (weight_insert (cells s) x c (Cell (Some w) [] (slots c)) Hc) as Hw.
  simpl in Hw. lia.
Qed.

Lemma deliver_weight (s s' : store) (cb : callback) (v : value)
    (new : list (callback * value)) :
  deliver s cb v = Ok (s', new) →
  weight (cells s') + length new = weight (cells s).
Proof.
  destruct cb as [f t|j pos]; cbn.
  - destruct (assign s t (f v)) as [[s1 cbs]| |] eqn:Ha; cbn; [|done..].
    intros [= <- <-]. rewrite length_fmap. by eapply assign_weight.
  - destruct (cells s !! j) as [c|] eqn:Hc; [|done].
    pose proof (weight_insert (cells s) j c
      (Cell (held c) (pending c) (<[pos := Some v]> (slots c))) Hc) as Hw.
    simpl in Hw.
    destruct (gathered _) as [vs|].
    + destruct (assign _ j (VList vs)) as [[s1 cbs]| |] eqn:Ha; cbn; [|done..].
      intros [= <- <-]. rewrite length_fmap.
      apply assign_weight in Ha. simpl in Ha. lia.
    + intros [= <- <-]. simpl. lia.
Qed.

Lemma assign_fuel (s : store) (x : nat) (w : value) : assign s x w ≠ OutOfFuel.
Proof. unfold assign. by repeat case_match. Qed.

Lemma deliver_fuel (s : store) (cb : callback) (v : value) :
  deliver s cb v ≠ OutOfFuel.
Proof.
  destruct cb as [f t|j pos]; simpl.
  - pose proof (assign_fuel s t (f v)). by destruct (assign s t (f v)).
  - destruct (cells s !! j) as [c|]; [|done].
    destruct (gathered _) as [vs|]; [|done].
    match goal with |- and_then ?a _ ≠ _ =>
      pose proof (assign_fuel _ _ _ : a ≠ OutOfFuel); by destruct a end.
Qed.

(** With the registered transformations as fuel, a run ends. *)
Lemma run_fuel (fuel : nat) :
  ∀ s work, weight (cells s) + length work ≤ fuel → run fuel s work ≠ OutOfFuel.
Proof.
  induction fuel as [|fuel IH]; intros s [|[cb v] rest] Hf; try done.
  - simpl in Hf. lia.
  - simpl. pose proof (deliver_fuel s cb v).
    destruct (deliver s cb v) as [[s' new]| |] eqn:Hd; simpl; [|done..].
    apply IH. apply deliver_weight in Hd. rewrite length_app.
    simpl in Hf. lia.
Qed.

(** [resolve] always comes to an end. *)
Lemma resolve_fuel (s : store) (d : nat) (v : value) : resolve s d v ≠ OutOfFuel.
Proof.
  unfold resolve. pose proof (assign_fuel s d v).
  destruct (assign s d v) as [[s' cbs]| |] eqn:Ha; simpl; [|done..].
  apply run_fuel. apply assign_weight in Ha. rewrite length_fmap. simpl. lia.
Qed.

(** *** Values never change once set *)

Global Instance extends_refl : Reflexive extends.
Proof. intros s. by repeat split. Qed.

Global Instance extends_trans : Transitive extends.
Proof.
  intros s1 s2 s3 (Hl1 & Ht1 & Hv1) (Hl2 & Ht2 & Hv2). repeat split.
  - lia.
  - by etrans.
  - eauto.
Qed.

Lemma value_of_cells (s s' : store) (k : nat) :
  cells s !! k = cells s' !! k → value_of s k = value_of s' k.
Proof. unfold value_of. by intros ->. Qed.

Lemma value_of_insert_eq (cs : list cell) (tr : list (nat * value)) (x : nat) (c : cell) :
  x < length cs → value_of (Store (<[x := c]> cs) tr) x = held c.
Proof. intros Hx. unfold value_of. simpl. by rewrite list_lookup_insert_eq. Qed.

Lemma value_of_insert_ne (cs : list cell) (tr tr' : list (nat * value)) (x k : nat) (c : cell) :
  x ≠ k → value_of (Store (<[x := c]> cs) tr) k = value_of (Store cs tr') k.
Proof. intros Hx. unfold value_of. simpl. by rewrite list_lookup_insert_ne. Qed.

Lemma assign_extends (s s' : store) (x : nat) (w : value) (cbs : list callback) :
  assign s x w = Ok (s', cbs) → extends s s' ∧ length (cells s') = length (cells s).
Proof.
  intros (c & Hc & Hh & -> & ->)%assign_Ok. simpl.
  rewrite length_insert. split; [|done].
  split; [simpl; by rewrite length_insert|]. split; [by apply prefix_app_r|].
  intros k u Hk. destruct (decide (x = k)) as [->|Hne].
  - rewrite (value_of_None _ _ _ Hc), Hh in Hk. done.
  - by rewrite (value_of_insert_ne _ _ (trace s)).
Qed.

Lemma fill_extends (s : store) (j pos : nat) (c : cell) (v : value) :
  cells s !! j = Some c →
  extends s (Store (<[j := Cell (held c) (pending c) (<[pos := Some v]> (slots c))]> (cells s))
                   (trace s)).
Proof.
  intros Hc. split; [simpl; by rewrite length_insert|]. split; [done|].
  intros k u Hk. destruct (decide (j = k)) as [->|Hne].
  - rewrite value_of_insert_eq by (by eapply lookup_lt_Some). simpl.
    by rewrite <- (value_of_None _ _ _ Hc).
  - by rewrite (value_of_insert_ne _ _ (trace s)).
Qed.

Lemma deliver_extends (s s' : store) (cb : callback) (v : value)
    (new : list (callback * value)) :
  deliver s cb v = Ok (s', new) → extends s s' ∧ length (cells s') = length (cells s).
Proof.
  destruct cb as [f t|j pos]; simpl.
  - destruct (assign s t (f v)) as [[s1 cbs]| |] eqn:Ha; simpl; [|done..].
    intros [= <- <-]. by eapply assign_extends.
  - destruct (cells s !! j) as [c|] eqn:Hc; [|done].
    pose proof (fill_extends s j pos c v Hc) as Hfill.
    destruct (gathered _) as [vs|].
    + destruct (assign _ j (VList vs)) as [[s1 cbs]| |] eqn:Ha; simpl; [|done..].
      intros [= <- <-]. apply assign_extends in Ha as [Ha Hl]. split.
      * by etrans.
      * rewrite Hl. simpl. by rewrite length_insert.
    + intros [= <- <-]. split; [done|]. simpl. by rewrite length_insert.
Qed.

Lemma run_extends (fuel : nat) :
  ∀ s work s', run fuel s work = Ok s' →
    extends s s' ∧ length (cells s') = length (cells s).
Proof.
  induction fuel as [|fuel IH]; intros s [|[cb v] rest] s' Hrun; simpl in Hrun;
    try done; try (by injection Hrun as ->).
  destruct (deliver s cb v) as [[s1 new]| |] eqn:Hd; simpl in Hrun; [|done..].
  apply deliver_extends in Hd as [Hd Hl]. apply IH in Hrun as [Hrun Hl'].
  split; [by etrans|congruence].
Qed.

Lemma resolve_extends (s s' : store) (d : nat) (v : value) :
  resolve s d v = Ok s' → extends s s' ∧ length (cells s') = length (cells s).
Proof.
  unfold resolve. destruct (assign s d v) as [[s1 cbs]| |] eqn:Ha; simpl; [|done..].
  intros Hrun. apply assign_extends in Ha as [Ha Hl].
  apply run_extends in Hrun as [Hrun Hl']. split; [by etrans|congruence].
Qed.

(** [resolve] on a resolved cell is fatal, whatever else the store holds. *)
Lemma resolve_resolved (s : store) (d : nat) (v w : value) :
  value_of s d = Some v → resolve s d w = Fatal (AlreadyResolved d).
Proof. intros H. unfold resolve. by rewrite (assign_resolved _ _ v). Qed.

End DeferredFacts.

(** ** The invariant of the deferred-value store *)

Module InvariantFacts.
Import Deferred Topology DeferredFacts.

Lemma gathered_slot_None (sl : list (option value)) (pos : nat) :
  sl !! pos = Some None → gathered sl = None.
Proof.
  intros H. apply mapM_None, Exists_exists. exists None.
  split; [by eapply list_elem_of_lookup_2|done].
Qed.

Lemma gathered_Some_slot (sl : list (option value)) (vs : list value)
    (pos : nat) (o : option value) :
  gathered sl = Some vs → sl !! pos = Some o → is_Some o.
Proof.
  intros H Hl. destruct o; [eauto|]. by rewrite (gathered_slot_None _ _ Hl) in H.
Qed.

(** The place a transformation writes to determines the cell it waits on. *)
Lemma owner_key (g : list origin) (cb cb' : callback) (d d' : nat) :
  owner g cb d → owner g cb' d' → key cb = key cb' → d = d'.
Proof.
  destruct cb as [f t|j pos], cb' as [f' t'|j' pos']; simpl; try done.
  - intros H1 H2 [= ->]. congruence.
  - intros (ds & H1 & H1') (ds' & H2 & H2') [= -> ->]. congruence.
Qed.

(** *** One assignment *)

Section assign.
Context (g : list origin) (s : store) (x : nat) (cx : cell) (w : value).
Context (Hx : cells s !! x = Some cx) (Hhx : held cx = None).

Let c' : cell := Cell (Some w) [] (slots cx).
Let cs' : list cell := <[x := c']> (cells s).
Let s' : store := Store cs' (trace s ++ [(x, w)]).

Lemma assign_lookup_ne (k : nat) : x ≠ k → cs' !! k = cells s !! k.
Proof. intros. by apply list_lookup_insert_ne. Qed.

Lemma assign_lookup_eq : cs' !! x = Some c'.
Proof. apply list_lookup_insert_eq. by eapply lookup_lt_Some. Qed.

Lemma assign_lookup (k : nat) (c : cell) :
  cs' !! k = Some c → (k = x ∧ c = c') ∨ (k ≠ x ∧ cells s !! k = Some c).
Proof.
  destruct (decide (x = k)) as [<-|Hne].
  - rewrite assign_lookup_eq. intros [= <-]. by left.
  - rewrite assign_lookup_ne by done. right. by split; [intros ->|].
Qed.

Lemma trace_ok_assign : trace_ok s → trace_ok s'.
Proof using Hx Hhx.
  intros [Hnd Hiff]. split; simpl.
  - rewrite fmap_app. apply NoDup_app. split; [done|].
    split; [|apply NoDup_singleton].
    intros k Hk Hk'. apply list_elem_of_singleton in Hk' as ->.
    apply list_elem_of_fmap in Hk as ([k v] & Heq & Hin). simpl in Heq. subst k.
    apply Hiff in Hin. rewrite (value_of_None _ _ _ Hx), Hhx in Hin. done.
  - intros d v. rewrite elem_of_app, list_elem_of_singleton.
    destruct (decide (x = d)) as [<-|Hne].
    + unfold s', cs'. rewrite value_of_insert_eq by (by eapply lookup_lt_Some).
      simpl. split.
      * intros [Hin|[= ->]]; [|done]. apply Hiff in Hin.
        rewrite (value_of_None _ _ _ Hx), Hhx in Hin. done.
      * intros [= ->]. by right.
    + rewrite (value_of_cells s' s d) by (by apply assign_lookup_ne).
      rewrite <- Hiff. split; [|by left]. intros [?|[= -> _]]; done.
Qed.

Lemma pending_ok_assign : pending_ok g (cells s) → pending_ok g cs'.
Proof using Hx.
  intros Hp d c [[-> ->]|[Hne Hc]]%assign_lookup.
  - simpl. split; [done|]. split; [apply NoDup_nil_2|]. by intros cb ?%elem_of_nil.
  - by apply Hp.
Qed.

Lemma order_ok_assign :
  trace_ok s → order_ok g (trace s) →
  (match g !! x with
   | Some (Map f p) => is_Some (value_of s p)
   | Some (All ds) => ∀ d, d ∈ ds → is_Some (value_of s d)
   | _ => True
   end) →
  order_ok g (trace s ++ [(x, w)]).
Proof.
  intros [_ Hiff] Ho Hsrc pre i y post Heq.
  destruct post as [|e post _] using rev_ind.
  - apply app_inj_tail in Heq as [<- [= <- <-]].
    destruct (g !! x) as [[|f p|ds]|]; try done.
    + destruct Hsrc as [v Hv]. apply Hiff in Hv.
      by apply (list_elem_of_fmap_2 fst) in Hv.
    + intros d Hd. destruct (Hsrc d Hd) as [v Hv]. apply Hiff in Hv.
      by apply (list_elem_of_fmap_2 fst) in Hv.
  - rewrite app_comm_cons, (assoc_L (++)) in Heq.
    apply app_inj_tail in Heq as [Heq _]. by eapply Ho.
Qed.

Context (rest : list (callback * value)).
Let work' : list (callback * value) := ((λ cb, (cb, w)) <$> pending cx) ++ rest.

Lemma fst_tagged (l : list callback) : ((λ cb, (cb, w)) <$> l).*1 = l.
Proof. induction l as [|cb l IH]; [done|]. cbn. by f_equal. Qed.

Lemma elem_of_tagged (l : list callback) (cb : callback) (v : value) :
  (cb, v) ∈ (λ cb, (cb, w)) <$> l ↔ cb ∈ l ∧ v = w.
Proof.
  rewrite list_elem_of_fmap. split.
  - by intros (cb' & [= -> ->] & ?).
  - intros [? ->]. eauto.
Qed.

Lemma cell_ok_assign (i : nat) (c : cell) :
  i ≠ x → cell_ok g (cells s) rest i c → cell_ok g cs' work' i c.
Proof using Hx Hhx.
  intros Hi. unfold cell_ok. destruct (g !! i) as [[|f p|ds]|]; [done| | |done].
  - intros (Hlt & cp & Hcp & Hm). split; [done|].
    destruct (decide (p = x)) as [->|Hp].
    + exists c'. split; [apply assign_lookup_eq|]. simpl.
      rewrite Hx in Hcp. injection Hcp as <-. rewrite Hhx in Hm.
      destruct Hm as [Hh Hin]. right. split; [done|].
      apply elem_of_app. left. by apply elem_of_tagged.
    + exists cp. split; [by rewrite assign_lookup_ne|].
      destruct (held cp); [|done]. destruct Hm as [?|[? ?]]; [by left|].
      right. split; [done|]. apply elem_of_app. by right.
  - intros (Hl & Hh & Hall). split; [done|]. split; [done|].
    intros pos d Hd. destruct (Hall pos d Hd) as (Hlt & cd & Hcd & Hm).
    split; [done|]. destruct (decide (d = x)) as [->|Hdx].
    + exists c'. split; [apply assign_lookup_eq|]. simpl.
      rewrite Hx in Hcd. injection Hcd as <-. rewrite Hhx in Hm.
      destruct Hm as [Hs Hin]. right. split; [done|].
      apply elem_of_app. left. by apply elem_of_tagged.
    + exists cd. split; [by rewrite assign_lookup_ne|].
      destruct (held cd); [|done]. destruct Hm as [?|[? ?]]; [by left|].
      right. split; [done|]. apply elem_of_app. by right.
Qed.

Lemma work_ok_assign :
  length g = length (cells s) →
  pending_ok g (cells s) →
  work_ok g (cells s) rest →
  (∀ i c, i ≠ x → cells s !! i = Some c → cell_ok g (cells s) rest i c) →
  (∀ cb v, (cb, v) ∈ rest → key cb ≠ (x, None)) →
  (∀ cb, cb ∈ pending cx → (key cb).1 ≠ x) →
  work_ok g cs' work'.
Proof using Hx Hhx.
  intros Hlen Hp [Hnd Hw] Hcells Hkey Hself.
  destruct (Hp x cx Hx) as (_ & Hndx & Hown).
  split.
  - unfold work'. rewrite !fmap_app, fst_tagged. apply NoDup_app.
    split; [done|]. split; [|done].
    intros k (cb & -> & Hcb)%list_elem_of_fmap (cb' & Hk & Hcb')%list_elem_of_fmap.
    apply list_elem_of_fmap in Hcb' as ([cb'' v'] & Heq & Hin). simpl in Heq. subst cb''.
    destruct (Hw cb' v' Hin) as (_ & d' & cd' & Hown' & Hcd' & Hheld').
    pose proof (owner_key g cb cb' x d' (Hown cb Hcb) Hown' Hk) as <-.
    congruence.
  - intros cb v [[Hcb ->]%elem_of_tagged|Hin]%elem_of_app.
    + pose proof (Hown cb Hcb) as Ho. pose proof (Hself cb Hcb) as Hs.
      split; [|exists x, c'; split; [done|]; split; [apply assign_lookup_eq|done]].
      destruct cb as [f t|j pos]; simpl in *.
      * assert (is_Some (cells s !! t)) as [ct Hct].
        { apply lookup_lt_is_Some. rewrite <- Hlen. by eapply lookup_lt_Some. }
        exists ct. split; [by rewrite assign_lookup_ne|].
        pose proof (Hcells t ct Hs Hct) as Hok. unfold cell_ok in Hok.
        rewrite Ho in Hok. destruct Hok as (_ & cp & Hcp & Hm).
        rewrite Hx in Hcp. injection Hcp as <-. rewrite Hhx in Hm. tauto.
      * destruct Ho as (ds & Hj & Hpos).
        assert (is_Some (cells s !! j)) as [cj Hcj].
        { apply lookup_lt_is_Some. rewrite <- Hlen. by eapply lookup_lt_Some. }
        exists cj. split; [by rewrite assign_lookup_ne|].
        pose proof (Hcells j cj Hs Hcj) as Hok. unfold cell_ok in Hok.
        rewrite Hj in Hok. destruct Hok as (_ & _ & Hall).
        destruct (Hall pos x Hpos) as (_ & cd & Hcd & Hm).
        rewrite Hx in Hcd. injection Hcd as <-. rewrite Hhx in Hm. tauto.
    + destruct (Hw cb v Hin) as (Hund & d & cd & Hown' & Hcd & Hheld).
      split.
      * destruct cb as [f t|j pos]; simpl in *.
        -- destruct Hund as (ct & Hct & Hh). exists ct. split; [|done].
           rewrite assign_lookup_ne; [done|]. intros <-.
           by apply (Hkey _ _ Hin).
        -- destruct Hund as (cj & Hcj & Hs).
           destruct (decide (j = x)) as [->|Hjx].
           ++ exists c'. split; [apply assign_lookup_eq|]. simpl. congruence.
           ++ exists cj. by rewrite assign_lookup_ne.
      * exists d, cd. split; [done|]. split; [|done].
        rewrite assign_lookup_ne; [done|]. intros <-. congruence.
Qed.

(** The cell [x] is resolved with [w] while everything else is in order:
    the transformations that waited on [x] become due, and the invariant
    holds again, provided [w] is what the origin of [x] prescribes. *)
Lemma coherent_assign :
  coherent_but (Some x) g s rest →
  (∀ cb v, (cb, v) ∈ rest → key cb ≠ (x, None)) →
  cell_ok g cs' work' x c' →
  coherent g s' work'.
Proof using Hx Hhx.
  intros [(Hlen & Htr & Hp & Hw & Ho) Hcells] Hkey Hokx.
  assert (∀ i c, i ≠ x → cells s !! i = Some c → cell_ok g (cells s) rest i c)
    as Hcells' by (intros i c Hi; apply Hcells; congruence).
  assert (∀ cb, cb ∈ pending cx → (key cb).1 ≠ x) as Hself.
  { intros cb Hcb Hk. destruct (Hp x cx Hx) as (_ & _ & Hown).
    specialize (Hown cb Hcb). unfold cell_ok in Hokx.
    destruct cb as [f t|j pos]; simpl in *; subst.
    - rewrite Hown in Hokx. destruct Hokx as [? _]. lia.
    - destruct Hown as (ds & Hj & Hpos). rewrite Hj in Hokx.
      destruct Hokx as (_ & _ & Hall). destruct (Hall pos x Hpos) as [? _]. lia. }
  split; [split; [|split; [|split; [|split]]]|].
  - simpl. unfold cs'. by rewrite length_insert.
  - by apply trace_ok_assign.
  - by apply pending_ok_assign.
  - by apply work_ok_assign.
  - apply order_ok_assign; [done..|].
    unfold cell_ok in Hokx. destruct (g !! x) as [[|f p|ds]|]; [done| | |done].
    + destruct Hokx as (Hlt & cp & Hcp & Hm).
      rewrite assign_lookup_ne in Hcp by lia.
      rewrite (value_of_None _ _ _ Hcp). destruct (held cp); [eauto|].
      by destruct Hm.
    + destruct Hokx as (_ & Hh & Hall). intros d (pos & Hpos)%list_elem_of_lookup_1.
      destruct (Hall pos d Hpos) as (Hlt & cd & Hcd & Hm).
      rewrite assign_lookup_ne in Hcd by lia.
      rewrite (value_of_None _ _ _ Hcd). destruct (held cd); [eauto|].
      destruct Hm as [Hs _]. simpl in *.
      by rewrite (gathered_slot_None _ _ Hs) in Hh.
  - intros i c _ [[-> ->]|[Hne Hc]]%assign_lookup; [done|].
    apply cell_ok_assign; [done|]. by apply Hcells'.
Qed.

End assign.

(** *** What [cell_ok] depends on *)

Lemma cell_ok_mono (g g' : list origin) (cs cs' : list cell)
    (work work' : list (callback * value)) (i : nat) (c c' : cell) :
  g' !! i = g !! i →
  held c' = held c → slots c' = slots c →
  (∀ k ck, cs !! k = Some ck →
     ∃ ck', cs' !! k = Some ck' ∧ held ck' = held ck ∧ pending ck ⊆ pending ck') →
  (∀ cb v, (key cb).1 = i → (cb, v) ∈ work → (cb, v) ∈ work') →
  cell_ok g cs work i c → cell_ok g' cs' work' i c'.
Proof.
  intros Hg Hhc Hsc Hcs Hwork. unfold cell_ok. rewrite Hg, Hhc, Hsc.
  destruct (g !! i) as [[|f p|ds]|]; [done| | |done].
  - intros (Hlt & cp & Hcp & Hm). split; [done|].
    destruct (Hcs p cp Hcp) as (cp' & Hcp' & Hheld & Hsub).
    exists cp'. split; [done|]. rewrite Hheld. destruct (held cp).
    + destruct Hm as [?|[? ?]]; [by left|]. right. split; [done|]. by apply Hwork.
    + destruct Hm as [? ?]. split; [done|]. by apply Hsub.
  - intros (Hl & Hh & Hall). split; [done|]. split; [done|].
    intros pos d Hd. destruct (Hall pos d Hd) as (Hlt & cd & Hcd & Hm).
    split; [done|]. destruct (Hcs d cd Hcd) as (cd' & Hcd' & Hheld & Hsub).
    exists cd'. split; [done|]. rewrite Hheld. destruct (held cd).
    + destruct Hm as [?|[? ?]]; [by left|]. right. split; [done|]. by apply Hwork.
    + destruct Hm as [? ?]. split; [done|]. by apply Hsub.
Qed.

(** The first transformation that is due is taken off the list. *)
Lemma coherent_tail (g : list origin) (s : store) (cb : callback) (v : value)
    (rest : list (callback * value)) :
  coherent g s ((cb, v) :: rest) →
  coherent_but (Some (key cb).1) g s rest
  ∧ (∀ cb' v', (cb', v') ∈ rest → key cb' ≠ key cb).
Proof.
  intros [(Hlen & Htr & Hp & [Hnd Hw] & Ho) Hcells].
  simpl in Hnd. apply NoDup_cons in Hnd as [Hnotin Hnd].
  split; [split; [split; [|split; [|split; [|split]]]|]|]; try done.
  - split; [done|]. intros cb' v' Hin. apply Hw. by right.
  - intros i c Hi Hc. eapply cell_ok_mono; [done..| | |by apply Hcells].
    + intros k ck Hk. by exists ck.
    + intros cb' v' Hk [[= -> ->]|Hin]%elem_of_cons; [congruence|done].
  - intros cb' v' Hin Hk. apply Hnotin. rewrite <- Hk.
    apply list_elem_of_fmap_2. by apply (list_elem_of_fmap_2 fst) in Hin.
Qed.

(** *** One delivery *)

Lemma deliver_transform_coherent (g : list origin) (s : store)
    (f : value → value) (t : nat) (v : value) (rest : list (callback * value)) :
  coherent g s ((Transform f t, v) :: rest) →
  ∃ s' new, deliver s (Transform f t) v = Ok (s', new)
            ∧ coherent g s' (new ++ rest)
            ∧ ∀ k, g !! k = Some Src → value_of s' k = value_of s k.
Proof.
  intros Hco. pose proof (coherent_tail _ _ _ _ _ Hco) as [Hbut Hkeys].
  destruct Hco as [(Hlen & Htr & Hp & [Hnd Hw] & Ho) Hcells].
  destruct (Hw (Transform f t) v) as (Hund & d & cd & Hown & Hcd & Hheld);
    [by left|]. simpl in Hund, Hown. destruct Hund as (ct & Hct & Hht).
  assert (d < t) as Hlt.
  { pose proof (Hcells t ct ltac:(done) Hct) as Hok. unfold cell_ok in Hok.
    rewrite Hown in Hok. by destruct Hok. }
  eexists _, _. split; [|split].
  - simpl. unfold assign. rewrite Hct, Hht. simpl. reflexivity.
  - apply (coherent_assign g s t ct (f v) Hct Hht rest); [done| |].
    + intros cb' v' Hin Hk. by apply (Hkeys cb' v' Hin).
    + unfold cell_ok. rewrite Hown. split; [done|].
      exists cd. split; [by rewrite list_lookup_insert_ne by lia|].
      rewrite Hheld. by left.
  - intros k Hk. apply value_of_cells. simpl.
    apply list_lookup_insert_ne. intros <-. congruence.
Qed.

(** A member's value is written to its position of the fan-in cell. *)
Section fill.
Context (g : list origin) (s : store) (j pos : nat) (cj : cell) (v : value).
Context (rest : list (callback * value)).
Context (Hj : cells s !! j = Some cj).

Let cj' : cell := Cell (held cj) (pending cj) (<[pos := Some v]> (slots cj)).
Let s1 : store := Store (<[j := cj']> (cells s)) (trace s).

Lemma fill_lookup (k : nat) (ck : cell) :
  cells s !! k = Some ck →
  ∃ ck', cells s1 !! k = Some ck' ∧ held ck' = held ck ∧ pending ck ⊆ pending ck'.
Proof using Hj.
  intros Hk. destruct (decide (j = k)) as [<-|Hne].
  - exists cj'. split; [apply list_lookup_insert_eq; by eapply lookup_lt_Some|].
    rewrite Hj in Hk. injection Hk as <-. done.
  - exists ck. split; [|done]. simpl. by rewrite list_lookup_insert_ne.
Qed.

Lemma fill_value_of (k : nat) : value_of s1 k = value_of s k.
Proof using Hj.
  unfold value_of. destruct (cells s !! k) as [ck|] eqn:Hk.
  - destruct (fill_lookup k ck Hk) as (ck' & -> & Hh & _). by simpl.
  - assert (cells s1 !! k = None) as ->; [|done].
    apply lookup_ge_None. simpl. rewrite length_insert. by apply lookup_ge_None.
Qed.

Lemma coherent_but_fill :
  coherent_but (Some j) g s rest →
  (∀ pos' v', (Member j pos', v') ∈ rest → pos' ≠ pos) →
  coherent_but (Some j) g s1 rest.
Proof using Hj.
  intros [(Hlen & [Hnd Hiff] & Hp & [Hndw Hw] & Ho) Hcells] Hpos.
  split; [split; [|split; [|split; [|split]]]|].
  - simpl. by rewrite length_insert.
  - split; [done|]. intros d u. rewrite fill_value_of. apply Hiff.
  - intros d c Hc. simpl in Hc.
    destruct (decide (j = d)) as [<-|Hne].
    + rewrite list_lookup_insert_eq in Hc by (by eapply lookup_lt_Some).
      injection Hc as <-. exact (Hp j cj Hj).
    + rewrite list_lookup_insert_ne in Hc by done. by apply Hp.
  - split; [done|]. intros cb u Hin.
    destruct (Hw cb u Hin) as (Hund & d & cd & Hown & Hcd & Hheld). split.
    + destruct cb as [f t|j' pos']; simpl in *.
      * destruct Hund as (ct & Hct & Hh).
        destruct (fill_lookup t ct Hct) as (ct' & ? & Hh' & _).
        exists ct'. split; [done|congruence].
      * destruct Hund as (c & Hc & Hs).
        destruct (decide (j = j')) as [<-|Hne].
        -- exists cj'. split; [apply list_lookup_insert_eq; by eapply lookup_lt_Some|].
           simpl. rewrite list_lookup_insert_ne by (intros ->; by eapply Hpos).
           congruence.
        -- exists c. by rewrite list_lookup_insert_ne.
    + destruct (fill_lookup d cd Hcd) as (cd' & ? & Hh' & _).
      exists d, cd'. split; [done|]. split; [done|congruence].
  - done.
  - intros i c Hi Hc. simpl in Hc.
    rewrite list_lookup_insert_ne in Hc by congruence.
    eapply cell_ok_mono; [done..|apply fill_lookup|done|by apply Hcells].
Qed.

End fill.

Lemma deliver_member_coherent (g : list origin) (s : store)
    (j pos : nat) (v : value) (rest : list (callback * value)) :
  coherent g s ((Member j pos, v) :: rest) →
  ∃ s' new, deliver s (Member j pos) v = Ok (s', new)
            ∧ coherent g s' (new ++ rest)
            ∧ ∀ k, g !! k = Some Src → value_of s' k = value_of s k.
Proof.
  intros Hco. pose proof (coherent_tail _ _ _ _ _ Hco) as [Hbut Hkeys].
  simpl in Hbut.
  destruct Hco as [(Hlen & Htr & Hp & [Hnd Hw] & Ho) Hcells].
  destruct (Hw (Member j pos) v) as (Hund & d & cd & Hown & Hcd & Hheld);
    [by left|]. simpl in Hund, Hown.
  destruct Hund as (cj & Hcj & Hslot). destruct Hown as (ds & Hgj & Hpos).
  pose proof (Hcells j cj ltac:(done) Hcj) as Hokj. unfold cell_ok in Hokj.
  rewrite Hgj in Hokj. destruct Hokj as (Hl & Hh & Hall).
  assert (held cj = None) as Hhj.
  { by rewrite Hh, (gathered_slot_None _ _ Hslot). }
  set (sl' := <[pos := Some v]> (slots cj)).
  set (cj' := Cell (held cj) (pending cj) sl').
  set (s1 := Store (<[j := cj']> (cells s)) (trace s)).
  assert (coherent_but (Some j) g s1 rest) as Hbut1.
  { apply coherent_but_fill; [done..|]. intros pos' v' Hin ->.
    by apply (Hkeys _ _ Hin). }
  assert (cells s1 !! j = Some cj') as Hcj1.
  { apply list_lookup_insert_eq. by eapply lookup_lt_Some. }
  assert (∀ pos' d', ds !! pos' = Some d' →
            d' < j ∧ ∃ cd', cells s1 !! d' = Some cd' ∧
              match held cd' with
              | None => sl' !! pos' = Some None ∧ Member j pos' ∈ pending cd'
              | Some v' =>
                  sl' !! pos' = Some (Some v')
                  ∨ (sl' !! pos' = Some None ∧ (Member j pos', v') ∈ rest)
              end) as Hslots.
  { intros pos' d' Hd'. destruct (Hall pos' d' Hd') as (Hlt & cd' & Hcd' & Hm).
    split; [done|]. exists cd'.
    split; [simpl; by rewrite list_lookup_insert_ne by lia|].
    destruct (decide (pos' = pos)) as [->|Hne].
    - assert (d' = d) as -> by congruence.
      rewrite Hcd in Hcd'. injection Hcd' as <-. rewrite Hheld. left.
      apply list_lookup_insert_eq. by eapply lookup_lt_Some.
    - unfold sl'. rewrite list_lookup_insert_ne by done.
      destruct (held cd'); [|done]. destruct Hm as [?|[? Hin]]; [by left|].
      right. split; [done|].
      apply elem_of_cons in Hin as [[= ? ?]|?]; [congruence|done]. }
  simpl deliver. rewrite Hcj. fold sl' cj' s1.
  destruct (gathered sl') as [vs|] eqn:Hg.
  - unfold assign. rewrite Hcj1. simpl held. rewrite Hhj. simpl.
    eexists _, _. split; [reflexivity|]. split.
    + apply (coherent_assign g s1 j cj' (VList vs) Hcj1 Hhj rest Hbut1).
      * intros cb' v' Hin Hk.
        destruct (Hw cb' v') as (_ & d0 & c0 & Hown0 & _); [by right|].
        destruct cb' as [f' t'|j' pos']; simpl in *; [|done].
        injection Hk as ->. congruence.
      * unfold cell_ok. rewrite Hgj. simpl.
        split; [unfold sl'; by rewrite length_insert|].
        split; [by rewrite Hg|].
        intros pos' d' Hd'. destruct (Hslots pos' d' Hd') as (Hlt & cd' & Hcd' & Hm).
        split; [done|]. exists cd'.
        split; [by rewrite list_lookup_insert_ne by lia|].
        destruct (held cd').
        -- destruct Hm as [?|[Hn _]]; [by left|].
           by rewrite (gathered_slot_None _ _ Hn) in Hg.
        -- destruct Hm as [Hn _]. by rewrite (gathered_slot_None _ _ Hn) in Hg.
    + intros k Hk. rewrite <- (fill_value_of s j pos cj v Hcj k).
      apply value_of_cells. simpl. apply list_lookup_insert_ne.
      intros <-. congruence.
  - eexists _, _. split; [reflexivity|]. split.
    + split; [apply Hbut1|]. intros i c _ Hc.
      destruct (decide (i = j)) as [->|Hne].
      * rewrite Hcj1 in Hc. injection Hc as <-. unfold cell_ok. rewrite Hgj.
        simpl. split; [unfold sl'; by rewrite length_insert|].
        split; [by rewrite Hg|]. exact Hslots.
      * apply Hbut1; [congruence|done].
    + intros k _. apply (fill_value_of s j pos cj v Hcj k).
Qed.

Lemma deliver_coherent (g : list origin) (s : store) (cb : callback)
    (v : value) (rest : list (callback * value)) :
  coherent g s ((cb, v) :: rest) →
  ∃ s' new, deliver s cb v = Ok (s', new)
            ∧ coherent g s' (new ++ rest)
            ∧ ∀ k, g !! k = Some Src → value_of s' k = value_of s k.
Proof.
  destruct cb; [apply deliver_transform_coherent|apply deliver_member_coherent].
Qed.

(** *** A whole run *)

Lemma run_coherent (g : list origin) (fuel : nat) :
  ∀ s work,
    coherent g s work → weight (cells s) + length work ≤ fuel →
    ∃ s', run fuel s work = Ok s' ∧ settled g s'
          ∧ ∀ k, g !! k = Some Src → value_of s' k = value_of s k.
Proof.
  induction fuel as [|fuel IH]; intros s [|[cb v] rest] Hco Hf.
  - by exists s.
  - simpl in Hf. lia.
  - by exists s.
  - destruct (deliver_coherent g s cb v rest Hco) as (s1 & new & Hd & Hco1 & Hsrc).
    destruct (IH s1 (new ++ rest) Hco1) as (s' & Hrun & Hset & Hsrc').
    { apply deliver_weight in Hd. rewrite length_app. simpl in Hf. lia. }
    exists s'. split; [simpl; by rewrite Hd|]. split; [done|].
    intros k Hk. by rewrite Hsrc', Hsrc.
Qed.

End InvariantFacts.

(** ** Settled stores: resolution and what the cells hold *)

Module SettledFacts.
Import Deferred Topology DeferredFacts InvariantFacts.

Lemma settled_cell (g : list origin) (s : store) (i : nat) :
  settled g s → i < length g → ∃ c, cells s !! i = Some c ∧ cell_ok g (cells s) [] i c.
Proof.
  intros [(Hlen & _) Hcells] Hi.
  destruct (lookup_lt_is_Some_2 (cells s) i) as [c Hc]; [lia|].
  exists c. split; [done|]. by apply Hcells.
Qed.

(** The engine resolves one of its cells: every transformation this sets
    off runs, none fails, and the store is settled again. *)
Lemma resolve_settled (g : list origin) (s : store) (d : nat) (v : value) :
  settled g s → g !! d = Some Src → value_of s d = None →
  ∃ s', resolve s d v = Ok s' ∧ settled g s'
        ∧ value_of s' d = Some v
        ∧ (∀ k, k ≠ d → g !! k = Some Src → value_of s' k = value_of s k)
        ∧ extends s s'.
Proof.
  intros Hset Hd Hv.
  destruct (settled_cell g s d Hset) as (cd & Hcd & _); [by eapply lookup_lt_Some|].
  assert (held cd = None) as Hh by (by rewrite <- (value_of_None s d cd Hcd)).
  pose proof (coherent_assign g s d cd v Hcd Hh []) as Hco.
  destruct (run_coherent g (weight (cells s))
              (Store (<[d := Cell (Some v) [] (slots cd)]> (cells s))
                     (trace s ++ [(d, v)]))
              (((λ cb, (cb, v)) <$> pending cd) ++ []))
    as (s' & Hrun & Hset' & Hsrc).
  { apply Hco.
    - destruct Hset as [Hb Hc]. split; [done|]. intros i c _. by apply Hc.
    - by intros cb v' ?%elem_of_nil.
    - unfold cell_ok. by rewrite Hd. }
  { simpl. rewrite app_nil_r, length_fmap.
    pose proof (weight_insert (cells s) d cd (Cell (Some v) [] (slots cd)) Hcd) as Hw.
    simpl in Hw. lia. }
  rewrite app_nil_r in Hrun.
  assert (resolve s d v = Ok s') as Hres.
  { unfold resolve, assign. rewrite Hcd, Hh. simpl. exact Hrun. }
  exists s'. split; [done|]. split; [done|].
  pose proof (resolve_extends s s' d v Hres) as [Hext _].
  pose proof (run_extends _ _ _ _ Hrun) as [(_ & _ & Hkeep) _].
  split; [|split; [|done]].
  - apply Hkeep. apply value_of_insert_eq. by eapply lookup_lt_Some.
  - intros k Hk Hsk. rewrite Hsrc by done. apply value_of_cells. simpl.
    by rewrite list_lookup_insert_ne.
Qed.

(** In a settled store the result of a transformation is resolved exactly
    when its source is, with the function applied to the source's value. *)
Lemma settled_map (g : list origin) (s : store) (t : nat) (f : value → value) (p : nat) :
  settled g s → g !! t = Some (Map f p) →
  p < t ∧ value_of s t = f <$> value_of s p.
Proof.
  intros Hset Ht.
  destruct (settled_cell g s t Hset) as (ct & Hct & Hok); [by eapply lookup_lt_Some|].
  unfold cell_ok in Hok. rewrite Ht in Hok. destruct Hok as (Hlt & cp & Hcp & Hm).
  split; [done|]. rewrite (value_of_None s t ct Hct), (value_of_None s p cp Hcp).
  destruct (held cp) as [v|]; simpl.
  - destruct Hm as [?|[_ []%elem_of_nil]]. done.
  - by destruct Hm.
Qed.

Lemma gathered_fmap {A} (f : A → option value) (l : list A) :
  gathered (f <$> l) = mapM f l.
Proof.
  unfold gathered. induction l as [|a l IH]; [done|].
  change (mapM id (f <$> a :: l))
    with (y ← f a; k ← mapM id (f <$> l); mret (y :: k)).
  by rewrite IH.
Qed.

(** A fan-in cell of a settled store is resolved exactly when all members
    are, with their values in member order. *)
Lemma settled_all (g : list origin) (s : store) (j : nat) (ds : list nat) :
  settled g s → g !! j = Some (All ds) →
  (∀ d, d ∈ ds → d < j) ∧ value_of s j = VList <$> mapM (value_of s) ds.
Proof.
  intros Hset Hj.
  destruct (settled_cell g s j Hset) as (cj & Hcj & Hok); [by eapply lookup_lt_Some|].
  unfold cell_ok in Hok. rewrite Hj in Hok. destruct Hok as (Hl & Hh & Hall).
  split.
  { intros d (pos & Hpos)%list_elem_of_lookup_1. by destruct (Hall pos d Hpos). }
  rewrite (value_of_None s j cj Hcj), Hh, <- gathered_fmap. do 2 f_equal.
  apply list_eq. intros pos. rewrite list_lookup_fmap.
  destruct (ds !! pos) as [d|] eqn:Hpos; simpl.
  - destruct (Hall pos d Hpos) as (_ & cd & Hcd & Hm).
    rewrite (value_of_None s d cd Hcd). destruct (held cd).
    + destruct Hm as [?|[_ []%elem_of_nil]]. done.
    + by destruct Hm.
  - apply lookup_ge_None. rewrite Hl. by apply lookup_ge_None.
Qed.

(** Every resolved cell is in the log exactly once. *)
Lemma settled_fired (g : list origin) (s : store) (d : nat) :
  settled g s → fired s d = match value_of s d with Some _ => 1 | None => 0 end.
Proof.
  intros [(_ & [Hnd Hiff] & _) _]. unfold fired.
  destruct (value_of s d) as [v|] eqn:Hv.
  - apply Hiff in Hv. apply list_elem_of_split in Hv as (l1 & l2 & Heq).
    rewrite Heq in Hnd |- *. rewrite fmap_app, fmap_cons in Hnd.
    apply NoDup_app in Hnd as (_ & Hl1 & Hl2). apply NoDup_cons in Hl2 as [Hl2 _].
    rewrite filter_app, filter_cons_True by done.
    rewrite length_app. simpl.
    assert (∀ l : list (nat * value), d ∉ l.*1 → filter (λ e, e.1 = d) l = []) as Hnone.
    { intros l Hl. induction l as [|e l IH]; [done|].
      rewrite fmap_cons in Hl. apply not_elem_of_cons in Hl as [? ?].
      rewrite filter_cons_False by done. by apply IH. }
    rewrite (Hnone l2 Hl2), (Hnone l1); [done|].
    intros Hin. apply (Hl1 d Hin). simpl. by left.
  - assert (∀ l : list (nat * value), (∀ v, (d, v) ∉ l) → filter (λ e, e.1 = d) l = []) as Hnone.
    { intros l Hl. induction l as [|[k u] l IH]; [done|].
      rewrite filter_cons_False.
      - apply IH. intros v Hin. apply (Hl v). by right.
      - simpl. intros ->. apply (Hl u). by left. }
    rewrite Hnone; [done|]. intros v Hin. apply Hiff in Hin. congruence.
Qed.

(** In the log, a result comes after its source, and a fan-in after every
    member. *)
Lemma settled_order (g : list origin) (s : store) (i : nat) (x : value)
    (pre post : list (nat * value)) :
  settled g s → trace s = pre ++ (i, x) :: post →
  match g !! i with
  | Some (Map f p) => p ∈ pre.*1
  | Some (All ds) => ∀ d, d ∈ ds → d ∈ pre.*1
  | _ => True
  end.
Proof. intros [(_ & _ & _ & _ & Ho) _] Heq. by eapply Ho. Qed.

End SettledFacts.

(** ** Building a store keeps it settled *)

Module GrowFacts.
Import Deferred Topology DeferredFacts InvariantFacts SettledFacts.

Lemma owner_grow (g : list origin) (o : origin) (cb : callback) (d : nat) :
  owner g cb d → owner (g ++ [o]) cb d.
Proof.
  destruct cb as [f t|j pos]; simpl.
  - apply lookup_app_l_Some.
  - intros (ds & Hj & Hpos). exists ds. split; [by apply lookup_app_l_Some|done].
Qed.

Lemma owner_target_lt (g : list origin) (cb : callback) (d : nat) :
  owner g cb d → (key cb).1 < length g.
Proof.
  destruct cb as [f t|j pos]; simpl.
  - apply lookup_lt_Some.
  - intros (ds & Hj & _). by eapply lookup_lt_Some.
Qed.

Lemma trace_ok_lt (s : store) (d : nat) :
  trace_ok s → d ∈ (trace s).*1 → d < length (cells s).
Proof.
  intros [_ Hiff] ([k v] & -> & Hin)%list_elem_of_fmap. simpl.
  apply Hiff, value_of_Some in Hin as (c & Hc & _). by eapply lookup_lt_Some.
Qed.

Lemma order_ok_grow (g : list origin) (o : origin) (tr : list (nat * value)) :
  order_ok g tr → (∀ i, i ∈ tr.*1 → i < length g) → order_ok (g ++ [o]) tr.
Proof.
  intros Ho Hlt pre i x post Heq. rewrite lookup_app_l.
  - by eapply Ho.
  - apply Hlt. rewrite Heq, fmap_app, fmap_cons. apply elem_of_app. right. by left.
Qed.

Lemma grown_refl (g' : list origin) (n : nat) (cs : list cell) : grown g' n cs cs.
Proof.
  split; [done|]. intros k [h p sl] Hk. exists []. simpl.
  rewrite app_nil_r. split; [done|]. split; [done|].
  split; [apply NoDup_nil_2|]. by intros cb ?%elem_of_nil.
Qed.

Lemma grown_value_of (g' : list origin) (n : nat) (cs cs1 : list cell)
    (cnew : cell) (tr tr' : list (nat * value)) (k : nat) :
  grown g' n cs cs1 → k < length cs →
  value_of (Store (cs1 ++ [cnew]) tr') k = value_of (Store cs tr) k.
Proof.
  intros [Hlen Hg] Hk. destruct (lookup_lt_is_Some_2 cs k Hk) as [ck Hck].
  destruct (Hg k ck Hck) as (extra & Hck' & _).
  unfold value_of. simpl. by rewrite (lookup_app_l_Some _ _ _ _ Hck'), Hck.
Qed.

Section grow.
Context (g : list origin) (s : store) (o : origin) (cs1 : list cell) (cnew : cell).
Context (Hset : settled g s).
Context (Hgrown : grown (g ++ [o]) (length (cells s)) (cells s) cs1).

Let n : nat := length (cells s).
Let g' : list origin := g ++ [o].

Lemma grow_trace_ok_same :
  held cnew = None → trace_ok (Store (cs1 ++ [cnew]) (trace s)).
Proof using Hset Hgrown.
  intros Hh. destruct Hset as [(Hlen & [Hnd Hiff] & _) _].
  split; [done|]. intros d v. simpl. rewrite Hiff.
  destruct (decide (d < n)) as [Hd|Hd].
  - by rewrite (grown_value_of g' n (cells s) cs1 cnew (trace s) (trace s) d Hgrown Hd).
  - assert (value_of s d = None) as ->.
    { unfold value_of. rewrite lookup_ge_None_2; [done|]. unfold n in Hd. lia. }
    assert (value_of (Store (cs1 ++ [cnew]) (trace s)) d = None) as ->; [|done].
    unfold value_of. simpl. destruct Hgrown as [Hl _].
    destruct (decide (d = n)) as [->|Hne].
    + rewrite lookup_app_r by (unfold n; lia).
      replace (n - length cs1) with 0 by (unfold n; lia). simpl. by rewrite Hh.
    + rewrite lookup_ge_None_2; [done|]. rewrite length_app. simpl. unfold n in *. lia.
Qed.

Lemma grow_trace_ok_snoc (w : value) :
  held cnew = Some w →
  trace_ok (Store (cs1 ++ [cnew]) (trace s ++ [(n, w)])).
Proof using Hset Hgrown.
  intros Hh. destruct Hset as [(Hlen & [Hnd Hiff] & _) _].
  assert (∀ v, (n, v) ∉ trace s) as Hfresh.
  { intros v Hin. apply Hiff, value_of_Some in Hin as (c & Hc & _).
    apply lookup_lt_Some in Hc. unfold n in Hc. lia. }
  destruct Hgrown as [Hl _].
  split; simpl.
  - rewrite fmap_app. apply NoDup_app. split; [done|].
    split; [|apply NoDup_singleton].
    intros k ([k' v] & Hk & Hin)%list_elem_of_fmap Hn%list_elem_of_singleton.
    simpl in Hk. subst. by apply (Hfresh v).
  - intros d v. rewrite elem_of_app, list_elem_of_singleton.
    destruct (decide (d < n)) as [Hd|Hd].
    + rewrite (grown_value_of g' n (cells s) cs1 cnew (trace s) _ d Hgrown Hd).
      rewrite Hiff. split; [intros [?|[= ? ?]]; [done|lia]|by left].
    + unfold value_of. simpl. destruct (decide (d = n)) as [->|Hne].
      * rewrite lookup_app_r by (unfold n; lia).
        replace (n - length cs1) with 0 by (unfold n; lia). simpl. rewrite Hh.
        split; [intros [Hin|[= ->]]; [by apply Hfresh in Hin|done]|].
        intros [= ->]. by right.
      * rewrite lookup_ge_None_2 by (rewrite length_app; simpl; unfold n in *; lia).
        simpl. split; [|done]. intros [Hin|[= ? ?]]; [|done].
        apply Hiff, value_of_Some in Hin as (c & Hc & _).
        apply lookup_lt_Some in Hc. unfold n in *. lia.
Qed.

(** The general step: a new cell at the end, transformations queued on
    old cells, the log possibly extended. *)
Lemma grow_settled (tr' : list (nat * value)) :
  pending cnew = [] →
  trace_ok (Store (cs1 ++ [cnew]) tr') →
  order_ok g' tr' →
  cell_ok g' (cs1 ++ [cnew]) [] n cnew →
  settled g' (Store (cs1 ++ [cnew]) tr').
Proof using Hset Hgrown.
  intros Hpn Htr' Ho' Hokn.
  destruct Hset as [(Hlen & Htr & Hp & Hw & Ho) Hcells].
  destruct Hgrown as [Hl Hg].
  assert (∀ k ck, cells s !! k = Some ck →
            ∃ ck', (cs1 ++ [cnew]) !! k = Some ck' ∧ held ck' = held ck
                   ∧ pending ck ⊆ pending ck') as Hsub.
  { intros k ck Hck. destruct (Hg k ck Hck) as (extra & Hck' & _).
    eexists. split; [by apply lookup_app_l_Some|]. simpl. split; [done|].
    intros cb Hcb. apply elem_of_app. by left. }
  split; [split; [|split; [|split; [|split]]]|]; simpl.
  - unfold g'. rewrite !length_app. simpl. lia.
  - done.
  - intros d c Hc. destruct (decide (d < n)) as [Hd|Hd].
    + destruct (lookup_lt_is_Some_2 (cells s) d Hd) as [cd Hcd].
      destruct (Hg d cd Hcd) as (extra & Hcd' & Hres & Hnd & Hown).
      rewrite (lookup_app_l_Some _ _ _ _ Hcd') in Hc. injection Hc as <-. simpl.
      destruct (Hp d cd Hcd) as (Hres0 & Hnd0 & Hown0).
      split; [|split].
      * intros Hh. by rewrite Hres0, Hres.
      * rewrite fmap_app. apply NoDup_app. split; [done|]. split; [|done].
        intros k (cb & -> & Hcb)%list_elem_of_fmap (cb' & Hk & Hcb')%list_elem_of_fmap.
        pose proof (owner_target_lt g cb d (Hown0 cb Hcb)) as Hlt.
        destruct (Hown cb' Hcb') as [Hn _]. rewrite Hk, Hn in Hlt.
        unfold n in Hlt. lia.
      * intros cb [Hcb|Hcb]%elem_of_app.
        -- apply owner_grow. by apply Hown0.
        -- by apply Hown.
    + apply lookup_lt_Some in Hc as Hc'. rewrite length_app in Hc'. simpl in Hc'.
      assert (d = n) as -> by (unfold n in *; lia).
      rewrite lookup_app_r in Hc by (unfold n; lia).
      replace (n - length cs1) with 0 in Hc by (unfold n; lia).
      injection Hc as <-. rewrite Hpn.
      split; [done|]. split; [apply NoDup_nil_2|]. by intros cb ?%elem_of_nil.
  - split; [apply NoDup_nil_2|]. by intros cb v ?%elem_of_nil.
  - done.
  - intros i c _ Hc. destruct (decide (i < n)) as [Hi|Hi].
    + destruct (lookup_lt_is_Some_2 (cells s) i Hi) as [ci Hci].
      destruct (Hg i ci Hci) as (extra & Hci' & _).
      rewrite (lookup_app_l_Some _ _ _ _ Hci') in Hc. injection Hc as <-.
      eapply (cell_ok_mono g g' (cells s)); [| | |exact Hsub| |by apply Hcells]; try done.
      unfold g'. apply lookup_app_l. unfold n in Hi. lia.
    + apply lookup_lt_Some in Hc as Hc'. rewrite length_app in Hc'. simpl in Hc'.
      assert (i = n) as -> by (unfold n in *; lia).
      rewrite lookup_app_r in Hc by (unfold n; lia).
      replace (n - length cs1) with 0 in Hc by (unfold n; lia).
      by injection Hc as <-.
Qed.

End grow.

(** *** [new_deferred] *)

Lemma new_deferred_settled (g : list origin) (s : store) :
  settled g s →
  settled (g ++ [Src]) (new_deferred s).1
  ∧ (new_deferred s).2 = length (cells s)
  ∧ extends s (new_deferred s).1.
Proof.
  intros Hset. pose proof Hset as [(Hlen & Htr & _ & _ & Ho) _].
  split; [|split; [done|]].
  - apply (grow_settled g s Src (cells s) (Cell None [] []) Hset (grown_refl _ _ _));
      [done| | |].
    + by apply (grow_trace_ok_same g s Src (cells s) _ Hset (grown_refl _ _ _)).
    + apply order_ok_grow; [done|]. intros i Hi. rewrite Hlen. by apply trace_ok_lt.
    + unfold cell_ok. rewrite lookup_app_r by lia.
      by replace (length (cells s) - length g) with 0 by lia.
  - split; [simpl; rewrite length_app; lia|]. split; [done|].
    intros k u (c & Hc & Hh)%value_of_Some. apply value_of_Some.
    exists c. split; [|done]. simpl. by apply lookup_app_l_Some.
Qed.

(** *** [transform] *)

Lemma transform_settled (g : list origin) (s : store) (d : nat) (f : value → value) :
  settled g s → d < length (cells s) →
  ∃ s', transform s d f = Ok (s', length (cells s))
        ∧ settled (g ++ [Map f d]) s'
        ∧ length (cells s') = S (length (cells s))
        ∧ (∀ k, k < length (cells s) → value_of s' k = value_of s k).
Proof.
  intros Hset Hd. pose proof Hset as [(Hlen & Htr & _ & _ & Ho) _].
  destruct (lookup_lt_is_Some_2 (cells s) d Hd) as [cd Hcd].
  assert (order_ok (g ++ [Map f d]) (trace s)) as Ho'.
  { apply order_ok_grow; [done|]. intros i Hi. rewrite Hlen. by apply trace_ok_lt. }
  assert ((g ++ [Map f d]) !! length (cells s) = Some (Map f d)) as Hn.
  { rewrite lookup_app_r by lia.
    by replace (length (cells s) - length g) with 0 by lia. }
  unfold transform. rewrite Hcd. destruct (held cd) as [v|] eqn:Hh.
  - eexists. split; [reflexivity|].
    pose proof (grown_refl (g ++ [Map f d]) (length (cells s)) (cells s)) as Hgr.
    split; [|split].
    + apply (grow_settled g s _ (cells s) _ Hset Hgr); [done| | |].
      * by apply (grow_trace_ok_snoc g s _ (cells s) _ Hset Hgr).
      * apply order_ok_assign; [done..|]. rewrite Hn.
        rewrite (value_of_None s d cd Hcd), Hh. eauto.
      * unfold cell_ok. rewrite Hn. split; [done|]. exists cd.
        split; [by apply lookup_app_l_Some|]. rewrite Hh. by left.
    + simpl. rewrite length_app. simpl. lia.
    + intros k Hk. unfold value_of. simpl. by rewrite lookup_app_l.
  - set (cs1 := <[d := Cell None (pending cd ++ [Transform f (length (cells s))]) (slots cd)]>
                  (cells s)).
    assert (grown (g ++ [Map f d]) (length (cells s)) (cells s) cs1) as Hgr.
    { split; [unfold cs1; by rewrite length_insert|]. intros k ck Hk.
      destruct (decide (k = d)) as [->|Hne].
      - rewrite Hcd in Hk. injection Hk as <-. eexists [_].
        split; [unfold cs1; rewrite list_lookup_insert_eq by done; by rewrite Hh|].
        split; [by rewrite Hh|]. split; [apply NoDup_singleton|].
        intros cb ->%list_elem_of_singleton. by simpl.
      - exists []. rewrite app_nil_r. destruct ck as [h p sl]. simpl.
        split; [unfold cs1; by rewrite list_lookup_insert_ne|].
        split; [done|]. split; [apply NoDup_nil_2|]. by intros cb ?%elem_of_nil. }
    eexists. split; [reflexivity|]. split; [|split].
    + apply (grow_settled g s _ cs1 _ Hset Hgr); [done| |done|].
      * by apply (grow_trace_ok_same g s _ cs1 _ Hset Hgr).
      * unfold cell_ok. rewrite Hn. split; [done|]. eexists.
        split; [apply lookup_app_l_Some; unfold cs1;
                by apply list_lookup_insert_eq|].
        simpl. split; [done|]. apply elem_of_app. right. by left.
    + simpl. rewrite length_app. unfold cs1. rewrite length_insert. simpl. lia.
    + intros k Hk.
      apply (grown_value_of _ _ (cells s) cs1 _ (trace s) (trace s) k Hgr Hk).
Qed.

(** *** [fan_in] *)

Lemma elem_of_member_callbacks (n k : nat) (ds : list nat) :
  ∀ pos cb, cb ∈ member_callbacks n pos k ds ↔
            ∃ i, cb = Member n (pos + i) ∧ ds !! i = Some k.
Proof.
  induction ds as [|d ds IH]; intros pos cb; simpl.
  - rewrite elem_of_nil. split; [done|]. by intros (i & _ & ?).
  - rewrite elem_of_app, IH. split.
    + intros [Hin|(i & -> & Hi)].
      * destruct (decide (d = k)) as [->|]; [|by apply elem_of_nil in Hin].
        apply list_elem_of_singleton in Hin as ->. exists 0.
        by rewrite Nat.add_0_r.
      * exists (S i). split; [f_equal; lia|done].
    + intros ([|i] & -> & Hi); simpl in Hi.
      * injection Hi as ->. left. rewrite decide_True by done.
        rewrite Nat.add_0_r. by left.
      * right. exists i. split; [f_equal; lia|done].
Qed.

Lemma NoDup_member_callbacks (n k : nat) (ds : list nat) :
  ∀ pos, NoDup (key <$> member_callbacks n pos k ds).
Proof.
  induction ds as [|d ds IH]; intros pos; simpl; [apply NoDup_nil_2|].
  rewrite fmap_app. apply NoDup_app. split; [|split; [|apply IH]].
  - destruct (decide (d = k)); [apply NoDup_singleton|apply NoDup_nil_2].
  - intros x Hx (cb & -> & Hcb)%list_elem_of_fmap.
    apply elem_of_member_callbacks in Hcb as (i & -> & _).
    destruct (decide (d = k)); [|by apply elem_of_nil in Hx].
    apply list_elem_of_singleton in Hx. simpl in Hx. injection Hx. lia.
Qed.

Lemma length_register (cb : callback) (d : nat) (cs : list cell) :
  length (register cb d cs) = length cs.
Proof.
  unfold register. destruct (cs !! d) as [c|]; [|done].
  destruct (held c); [done|]. by rewrite length_insert.
Qed.

Lemma length_register_members (n : nat) (ds : list nat) :
  ∀ pos cs, length (register_members n pos ds cs) = length cs.
Proof.
  induction ds as [|d ds IH]; intros pos cs; simpl; [done|].
  by rewrite IH, length_register.
Qed.

(** What [register_members] does to each cell. *)
Lemma register_members_lookup (n : nat) (ds : list nat) :
  ∀ pos cs k ck, cs !! k = Some ck →
    register_members n pos ds cs !! k
    = Some (match held ck with
            | None => Cell None (pending ck ++ member_callbacks n pos k ds) (slots ck)
            | Some _ => ck
            end).
Proof.
  induction ds as [|d ds IH]; intros pos cs k ck Hk; simpl.
  - rewrite app_nil_r, Hk. destruct ck as [[v|] p sl]; done.
  - unfold register at 1. destruct (decide (d = k)) as [->|Hne].
    + rewrite Hk. destruct (held ck) as [v|] eqn:Hh.
      * rewrite (IH _ _ _ _ Hk). by rewrite Hh.
      * erewrite IH; [|apply list_lookup_insert_eq; by eapply lookup_lt_Some].
        simpl. by rewrite <- (assoc_L (++)).
    + assert (register_members n (S pos) ds
                (match cs !! d with
                 | Some c =>
                     match held c with
                     | Some _ => cs
                     | None => <[d:=Cell None (pending c ++ [Member n pos]) (slots c)]> cs
                     end
                 | None => cs
                 end) !! k
              = Some (match held ck with
                      | None => Cell None (pending ck ++ member_callbacks n (S pos) k ds) (slots ck)
                      | Some _ => ck
                      end)) as ->; [|done].
      apply IH. destruct (cs !! d) as [c|]; [|done].
      destruct (held c); [done|]. by rewrite list_lookup_insert_ne.
Qed.

Lemma register_members_grown (g : list origin) (cs : list cell) (ds : list nat) :
  grown (g ++ [All ds]) (length g) cs (register_members (length g) 0 ds cs).
Proof.
  split; [apply length_register_members|]. intros k ck Hk.
  rewrite (register_members_lookup _ _ _ _ _ _ Hk).
  destruct (held ck) as [v|] eqn:Hh.
  - exists []. rewrite app_nil_r. destruct ck as [h p sl]. simpl in *. subst h.
    split; [done|]. split; [done|]. split; [apply NoDup_nil_2|].
    by intros cb ?%elem_of_nil.
  - eexists. split; [reflexivity|]. split; [done|].
    split; [apply NoDup_member_callbacks|].
    intros cb (i & -> & Hi)%elem_of_member_callbacks. simpl. split; [done|].
    exists ds. split; [|done]. rewrite lookup_app_r by done.
    by rewrite Nat.sub_diag.
Qed.

Lemma fan_in_settled (g : list origin) (s : store) (ds : list nat) :
  settled g s → (∀ d, d ∈ ds → d < length (cells s)) →
  ∃ s', fan_in s ds = Ok (s', length (cells s))
        ∧ settled (g ++ [All ds]) s'
        ∧ length (cells s') = S (length (cells s))
        ∧ (∀ k, k < length (cells s) → value_of s' k = value_of s k).
Proof.
  intros Hset Hds. pose proof Hset as [(Hlen & Htr & _ & _ & Ho) _].
  set (n := length (cells s)).
  assert (order_ok (g ++ [All ds]) (trace s)) as Ho'.
  { apply order_ok_grow; [done|]. intros i Hi. rewrite Hlen. by apply trace_ok_lt. }
  assert ((g ++ [All ds]) !! n = Some (All ds)) as Hn.
  { rewrite lookup_app_r by (unfold n; lia).
    by replace (n - length g) with 0 by (unfold n; lia). }
  pose proof (register_members_grown g (cells s) ds) as Hgr. rewrite Hlen in Hgr.
  fold n in Hgr.
  assert (list_find (λ d, cells s !! d = None) ds = None) as Hfind.
  { apply list_find_None, Forall_forall. intros d Hd Hnone.
    apply lookup_ge_None in Hnone. specialize (Hds d Hd). lia. }
  assert (∀ w, cell_ok (g ++ [All ds])
                 (register_members n 0 ds (cells s) ++ [Cell w [] (value_of s <$> ds)])
                 [] n (Cell w [] (value_of s <$> ds))
               ↔ w = VList <$> gathered (value_of s <$> ds)) as Hok.
  { intros w. unfold cell_ok. rewrite Hn. simpl. rewrite length_fmap.
    split; [by intros (_ & ? & _)|]. intros ->. split; [done|]. split; [done|].
    intros pos d Hpos. split; [apply Hds; by eapply list_elem_of_lookup_2|].
    destruct (lookup_lt_is_Some_2 (cells s) d) as [cd Hcd].
    { apply Hds. by eapply list_elem_of_lookup_2. }
    eexists. split.
    { apply lookup_app_l_Some. by apply register_members_lookup. }
    rewrite list_lookup_fmap, Hpos. simpl. rewrite (value_of_None s d cd Hcd).
    destruct (held cd) as [v|] eqn:Hh; [rewrite Hh; by left|]. simpl.
    split; [done|]. apply elem_of_app. right.
    apply elem_of_member_callbacks. by exists pos. }
  unfold fan_in. rewrite Hfind. fold n.
  destruct (gathered (value_of s <$> ds)) as [vs|] eqn:Hg.
  - eexists. split; [reflexivity|]. split; [|split].
    + apply (grow_settled g s _ _ _ Hset Hgr); [done| | |by apply Hok].
      * by apply (grow_trace_ok_snoc g s _ _ _ Hset Hgr).
      * apply order_ok_assign; [done..|]. rewrite Hn. intros d Hd.
        rewrite gathered_fmap in Hg.
        assert (is_Some (mapM (value_of s) ds)) as Hsome by eauto.
        apply mapM_is_Some in Hsome. rewrite Forall_forall in Hsome.
        by apply Hsome.
    + simpl. rewrite length_app, length_register_members. simpl. lia.
    + intros k Hk.
      apply (grown_value_of _ _ (cells s) _ _ (trace s) _ k Hgr Hk).
  - eexists. split; [reflexivity|]. split; [|split].
    + apply (grow_settled g s _ _ _ Hset Hgr); [done| |done|by apply Hok].
      by apply (grow_trace_ok_same g s _ _ _ Hset Hgr).
    + simpl. rewrite length_app, length_register_members. simpl. lia.
    + intros k Hk.
      apply (grown_value_of _ _ (cells s) _ _ (trace s) _ k Hgr Hk).
Qed.

End GrowFacts.

(** ** The pipeline as its users see it *)

Module PipelineFacts.
Import Deferred Topology DeferredFacts InvariantFacts SettledFacts GrowFacts.

Lemma settled_empty : settled [] empty.
Proof.
  split; [split; [|split; [|split; [|split]]]|]; simpl.
  - done.
  - split; [apply NoDup_nil_2|]. intros d v. unfold value_of. simpl.
    split; [by intros ?%elem_of_nil|done].
  - by intros d c ?.
  - split; [apply NoDup_nil_2|]. by intros cb v ?%elem_of_nil.
  - intros pre i x post Heq. by destruct pre.
  - by intros i c _ ?.
Qed.

(** *** Any schedule of the engine succeeds *)

Lemma resolve_all_settled (g : list origin) (events : list (nat * value)) :
  ∀ s, settled g s → schedule_ok g s events →
    ∃ s', resolve_all s events = Ok s' ∧ settled g s'
          ∧ (∀ d v, (d, v) ∈ events → value_of s' d = Some v)
          ∧ (∀ k, g !! k = Some Src → k ∉ events.*1 → value_of s' k = value_of s k)
          ∧ extends s s'.
Proof.
  induction events as [|[d v] events IH]; intros s Hset [Hnd Hev].
  - exists s. split; [done|]. split; [done|].
    split; [by intros d v ?%elem_of_nil|]. by split.
  - rewrite fmap_cons in Hnd. apply NoDup_cons in Hnd as [Hd Hnd].
    destruct (Hev d) as [Hsrc Hnone]; [rewrite fmap_cons; by left|].
    destruct (resolve_settled g s d v Hset Hsrc Hnone)
      as (s1 & Hres & Hset1 & Hv1 & Hsame1 & Hext1).
    destruct (IH s1 Hset1) as (s' & Hall & Hset' & Hv' & Hsame' & Hext').
    { split; [done|]. intros d' Hd'.
      destruct (Hev d') as [Hsrc' Hnone']; [rewrite fmap_cons; by right|].
      split; [done|]. rewrite Hsame1; [done| |done]. by intros ->. }
    exists s'. split; [simpl; by rewrite Hres|]. split; [done|].
    split; [|split].
    + intros d' v' [[= -> ->]|Hin]%elem_of_cons; [|by apply Hv'].
      destruct Hext' as (_ & _ & Hkeep). by apply Hkeep.
    + intros k Hk Hnotin. rewrite fmap_cons in Hnotin.
      apply not_elem_of_cons in Hnotin as [Hne Hnotin].
      rewrite Hsame' by done. by apply Hsame1.
    + by etrans.
Qed.

(** *** The values depend on the sources only *)

Lemma settled_determined (g : list origin) (s1 s2 : store) :
  settled g s1 → settled g s2 →
  (∀ k, g !! k = Some Src → value_of s1 k = value_of s2 k) →
  ∀ k, value_of s1 k = value_of s2 k.
Proof.
  intros Hs1 Hs2 Hsrc k.
  induction (lt_wf k) as [k _ IH].
  destruct (g !! k) as [[|f p|ds]|] eqn:Hk.
  - by apply Hsrc.
  - destruct (settled_map g s1 k f p Hs1 Hk) as [Hlt ->].
    destruct (settled_map g s2 k f p Hs2 Hk) as [_ ->].
    by rewrite (IH p Hlt).
  - destruct (settled_all g s1 k ds Hs1 Hk) as [Hlt ->].
    destruct (settled_all g s2 k ds Hs2 Hk) as [_ ->].
    f_equal. apply Forall_mapM_ext, Forall_forall. intros d Hd.
    apply IH. by apply Hlt.
  - apply lookup_ge_None in Hk.
    destruct Hs1 as [(Hl1 & _) _]. destruct Hs2 as [(Hl2 & _) _].
    unfold value_of. by rewrite !lookup_ge_None_2 by lia.
Qed.

(** Two schedules that deliver the same values, in whatever order, end in
    stores that hold the same values everywhere. *)
Lemma schedule_order_irrelevant (g : list origin) (s : store)
    (events1 events2 : list (nat * value)) :
  settled g s → schedule_ok g s events1 → events1 ≡ₚ events2 →
  ∃ s1 s2, resolve_all s events1 = Ok s1 ∧ resolve_all s events2 = Ok s2
           ∧ settled g s1 ∧ settled g s2
           ∧ ∀ k, value_of s1 k = value_of s2 k.
Proof.
  intros Hset Hok1 Hperm.
  assert (schedule_ok g s events2) as Hok2.
  { destruct Hok1 as [Hnd Hev]. split.
    - by rewrite <- Hperm.
    - intros d Hd. apply Hev. by rewrite Hperm. }
  destruct (resolve_all_settled g events1 s Hset Hok1)
    as (s1 & Hr1 & Hs1 & Hv1 & Hsame1 & _).
  destruct (resolve_all_settled g events2 s Hset Hok2)
    as (s2 & Hr2 & Hs2 & Hv2 & Hsame2 & _).
  exists s1, s2. do 4 (split; [done|]).
  apply (settled_determined g); [done..|]. intros k Hk.
  destruct (decide (k ∈ events1.*1)) as [Hin|Hnotin].
  - apply list_elem_of_fmap in Hin as ([k' v] & -> & Hin). simpl.
    rewrite (Hv1 k' v Hin). symmetry. apply Hv2. by rewrite <- Hperm.
  - rewrite Hsame1 by done. rewrite Hsame2; [done..|]. by rewrite <- Hperm.
Qed.

(** *** Nothing ever overwrites a value *)

Lemma transform_extends (s s' : store) (d t : nat) (f : value → value) :
  transform s d f = Ok (s', t) → extends s s'.
Proof.
  unfold transform. destruct (cells s !! d) as [cd|] eqn:Hcd; [|done].
  destruct (held cd) as [v|] eqn:Hh; intros [= <- <-].
  - split; [simpl; rewrite length_app; lia|]. split; [by apply prefix_app_r|].
    intros k u (c & Hc & Hu)%value_of_Some. apply value_of_Some.
    exists c. split; [|done]. simpl. by apply lookup_app_l_Some.
  - split; [simpl; rewrite length_app, length_insert; lia|]. split; [done|].
    intros k u (c & Hc & Hu)%value_of_Some. apply value_of_Some. simpl.
    destruct (decide (k = d)) as [->|Hne].
    + congruence.
    + exists c. split; [|done]. apply lookup_app_l_Some.
      by rewrite list_lookup_insert_ne.
Qed.

Lemma fan_in_extends (s s' : store) (ds : list nat) (j : nat) :
  fan_in s ds = Ok (s', j) → extends s s'.
Proof.
  unfold fan_in. destruct (list_find _ ds) as [[? ?]|]; [done|].
  assert (∀ cnew tr', trace s `prefix_of` tr' →
            extends s (Store (register_members (length (cells s)) 0 ds (cells s)
                              ++ [cnew]) tr')) as Hext.
  { intros cnew tr' Hpre.
    split; [simpl; rewrite length_app, length_register_members; lia|].
    split; [done|].
    intros k u (c & Hc & Hu)%value_of_Some. apply value_of_Some. simpl.
    eexists. split; [apply lookup_app_l_Some; by apply register_members_lookup|].
    by rewrite Hu. }
  destruct (gathered _) as [vs|]; intros [= <- <-]; apply Hext;
    [by apply prefix_app_r|done].
Qed.

Lemma perform_extends (s s' : store) (a : action) :
  perform s a = Ok s' → extends s s'.
Proof.
  destruct a as [|d v|d f|ds]; simpl.
  - intros [= <-]. split; [simpl; rewrite length_app; lia|]. split; [done|].
    intros k u (c & Hc & Hu)%value_of_Some. apply value_of_Some.
    exists c. split; [|done]. simpl. by apply lookup_app_l_Some.
  - intros H. by apply resolve_extends in H as [? _].
  - destruct (transform s d f) as [[s1 t]| |] eqn:Ht; simpl; [|done..].
    intros [= <-]. by eapply transform_extends.
  - destruct (fan_in s ds) as [[s1 j]| |] eqn:Hf; simpl; [|done..].
    intros [= <-]. by eapply fan_in_extends.
Qed.

Lemma perform_all_extends (acts : list action) :
  ∀ s s', perform_all s acts = Ok s' → extends s s'.
Proof.
  induction acts as [|a acts IH]; intros s s'; simpl.
  - by intros [= <-].
  - destruct (perform s a) as [s1| |] eqn:Hp; simpl; [|done..].
    intros H. etrans; [by eapply perform_extends|by apply IH].
Qed.

(** *** Building a store resolves nothing *)

Lemma blank_empty : blank empty.
Proof. by intros k. Qed.

Lemma blank_new_deferred (s : store) : blank s → blank (new_deferred s).1.
Proof.
  intros Hb k. destruct (value_of _ k) as [u|] eqn:Hk; [|done].
  apply value_of_Some in Hk as (c & Hc & Hh). simpl in Hc.
  apply lookup_app_Some in Hc as [Hc|[_ Hc]].
  - specialize (Hb k). by rewrite (value_of_None s k c Hc), Hh in Hb.
  - apply list_lookup_singleton_Some in Hc as [_ <-]. done.
Qed.

Lemma blank_transform (s s' : store) (d t : nat) (f : value → value) :
  blank s → transform s d f = Ok (s', t) → blank s'.
Proof.
  intros Hb Ht k. unfold transform in Ht.
  destruct (cells s !! d) as [cd|] eqn:Hcd; [|done].
  pose proof (Hb d) as Hd. rewrite (value_of_None s d cd Hcd) in Hd.
  rewrite Hd in Ht. injection Ht as <- <-.
  destruct (value_of _ k) as [u|] eqn:Hk; [|done].
  apply value_of_Some in Hk as (c & Hc & Hh). simpl in Hc.
  apply lookup_app_Some in Hc as [Hc|[_ Hc]].
  - destruct (decide (d = k)) as [->|Hne].
    + rewrite list_lookup_insert_eq in Hc by (by eapply lookup_lt_Some).
      injection Hc as <-. done.
    + rewrite list_lookup_insert_ne in Hc by done.
      specialize (Hb k). by rewrite (value_of_None s k c Hc), Hh in Hb.
  - apply list_lookup_singleton_Some in Hc as [_ <-]. done.
Qed.

Lemma blank_fan_in (s s' : store) (ds : list nat) (j : nat) :
  blank s → ds ≠ [] → fan_in s ds = Ok (s', j) → blank s'.
Proof.
  intros Hb Hds Hf k. unfold fan_in in Hf.
  destruct (list_find _ ds) as [[? ?]|]; [done|].
  assert (gathered (value_of s <$> ds) = None) as Hg.
  { destruct ds as [|d ds]; [done|]. apply (gathered_slot_None _ 0).
    simpl. by rewrite Hb. }
  rewrite Hg in Hf. injection Hf as <- <-.
  destruct (value_of _ k) as [u|] eqn:Hk; [|done].
  apply value_of_Some in Hk as (c & Hc & Hh). simpl in Hc.
  apply lookup_app_Some in Hc as [Hc|[_ Hc]].
  - destruct (lookup_lt_is_Some_2 (cells s) k) as [ck Hck].
    { apply lookup_lt_Some in Hc. by rewrite length_register_members in Hc. }
    rewrite (register_members_lookup _ _ _ _ _ _ Hck) in Hc.
    specialize (Hb k). rewrite (value_of_None s k ck Hck) in Hb.
    rewrite Hb in Hc. injection Hc as <-. done.
  - apply list_lookup_singleton_Some in Hc as [_ <-]. done.
Qed.

(** *** The three properties of the pipeline *)

(** C6. A deferred value is assigned once.  Resolving an unresolved cell of
    the engine succeeds and leaves it resolved with that value; whatever
    is done to the store afterwards, the cell keeps this value; and every
    further [resolve] on it is fatal: the error is the result, nothing runs
    after it and the rest of a schedule is not attempted. *)
Theorem single_assignment (g : list origin) (s : store) (d : nat) (v : value) :
  settled g s → g !! d = Some Src → value_of s d = None →
  ∃ s', resolve s d v = Ok s'
        ∧ value_of s' d = Some v
        ∧ (∀ acts s'', perform_all s' acts = Ok s'' →
             value_of s'' d = Some v
             ∧ ∀ w, resolve s'' d w = Fatal (AlreadyResolved d))
        ∧ (∀ w rest, resolve_all s' ((d, w) :: rest) = Fatal (AlreadyResolved d)).
Proof.
  intros Hset Hd Hnone.
  destruct (resolve_settled g s d v Hset Hd Hnone) as (s' & Hres & _ & Hv & _).
  exists s'. split; [done|]. split; [done|]. split.
  - intros acts s'' Hacts.
    apply perform_all_extends in Hacts as (_ & _ & Hkeep).
    split; [by apply Hkeep|]. intros w. apply (resolve_resolved _ _ v). by apply Hkeep.
  - intros w rest. simpl. by rewrite (resolve_resolved _ _ v).
Qed.

Lemma single_assignment_witness :
  ∃ s', resolve (new_deferred empty).1 0 (VStr "10.0.1.5") = Ok s'
        ∧ value_of s' 0 = Some (VStr "10.0.1.5")
        ∧ resolve s' 0 (VStr "10.0.1.6") = Fatal (AlreadyResolved 0).
Proof.
  destruct (single_assignment [Src] (new_deferred empty).1 0 (VStr "10.0.1.5"))
    as (s' & Hres & Hv & Hkeep & _).
  - apply (new_deferred_settled [] empty settled_empty).
  - reflexivity.
  - reflexivity.
  - exists s'. split; [exact Hres|]. split; [exact Hv|].
    apply (Hkeep [] s' eq_refl).
Defined.

Lemma weight_app (cs cs' : list cell) : weight (cs ++ cs') = weight cs + weight cs'.
Proof. unfold weight. apply sum_list_with_app. Qed.

(** The two orders side by side, for a cell the engine resolves: first
    [transform] then [resolve], and first [resolve] then [transform]. *)
Lemma transform_either_order (g : list origin) (s : store) (d : nat)
    (f : value → value) (v : value) :
  settled g s → g !! d = Some Src → value_of s d = None →
  (∃ s1 s2, transform s d f = Ok (s1, length (cells s))
            ∧ resolve s1 d v = Ok s2
            ∧ value_of s2 (length (cells s)) = Some (f v)
            ∧ fired s2 (length (cells s)) = 1)
  ∧ (∃ s1 s2, resolve s d v = Ok s1
              ∧ transform s1 d f = Ok (s2, length (cells s))
              ∧ value_of s2 (length (cells s)) = Some (f v)
              ∧ fired s2 (length (cells s)) = 1
              ∧ weight (cells s2) = weight (cells s1)).
Proof.
  intros Hset Hd Hnone.
  assert (d < length (cells s)) as Hlt.
  { destruct Hset as [(Hlen & _) _]. rewrite <- Hlen. by eapply lookup_lt_Some. }
  assert ((g ++ [Map f d]) !! length (cells s) = Some (Map f d)) as Hn.
  { destruct Hset as [(Hlen & _) _]. rewrite lookup_app_r by lia.
    by replace (length (cells s) - length g) with 0 by lia. }
  split.
  - destruct (transform_settled g s d f Hset Hlt) as (s1 & Ht & Hset1 & Hl1 & Hsame1).
    destruct (resolve_settled (g ++ [Map f d]) s1 d v Hset1)
      as (s2 & Hres & Hset2 & Hv2 & _).
    { by apply lookup_app_l_Some. }
    { by rewrite (Hsame1 d Hlt). }
    destruct (settled_map _ s2 _ f d Hset2 Hn) as [_ Hv2'].
    rewrite Hv2 in Hv2'. simpl in Hv2'.
    exists s1, s2. split; [done|]. split; [done|]. split; [done|].
    by rewrite (settled_fired _ _ _ Hset2), Hv2'.
  - destruct (resolve_settled g s d v Hset Hd Hnone)
      as (s1 & Hres & Hset1 & Hv1 & _ & Hext).
    pose proof (resolve_extends _ _ _ _ Hres) as [_ Hl1].
    destruct (transform_settled g s1 d f Hset1) as (s2 & Ht & Hset2 & Hl2 & Hsame2);
      [lia|]. rewrite Hl1 in Ht.
    destruct (settled_map _ s2 _ f d Hset2 Hn) as [_ Hv2].
    rewrite (Hsame2 d) in Hv2 by lia. rewrite Hv1 in Hv2. simpl in Hv2.
    exists s1, s2. split; [done|]. split; [done|]. split; [done|].
    split; [by rewrite (settled_fired _ _ _ Hset2), Hv2|].
    unfold transform in Ht.
    apply value_of_Some in Hv1 as (cd & Hcd & Hh). rewrite Hcd, Hh in Ht.
    injection Ht as <-. simpl. by rewrite weight_app, Nat.add_0_r.
Qed.

(** C5. For any function and any deferred value of a settled store,
    [transform] succeeds and returns the handle of the result cell.  If the
    value is known already, the function has run when [transform] returns:
    the result cell holds the function applied to the value, it was resolved
    once, and nothing was queued.  If not, the result is unresolved, and
    after any schedule of the engine it holds the function applied to the
    value exactly if the value has arrived, resolved once.  For a cell the
    engine resolves, registering before or after the resolution ends with
    the same value in the result cell, resolved once either way. *)
Theorem transform_before_or_after (g : list origin) (s : store) (d : nat)
    (f : value → value) :
  settled g s → d < length (cells s) →
  ∃ s1, transform s d f = Ok (s1, length (cells s))
    ∧ (∀ v, value_of s d = Some v →
         value_of s1 (length (cells s)) = Some (f v)
         ∧ fired s1 (length (cells s)) = 1
         ∧ weight (cells s1) = weight (cells s))
    ∧ (value_of s d = None →
         value_of s1 (length (cells s)) = None ∧ fired s1 (length (cells s)) = 0)
    ∧ (∀ events, schedule_ok (g ++ [Map f d]) s1 events →
         ∃ s2, resolve_all s1 events = Ok s2
               ∧ value_of s2 (length (cells s)) = f <$> value_of s2 d
               ∧ fired s2 (length (cells s))
                 = match value_of s2 d with Some _ => 1 | None => 0 end)
    ∧ (∀ v, g !! d = Some Src → value_of s d = None →
         ∃ sa sb sb',
           resolve s1 d v = Ok sa
           ∧ value_of sa (length (cells s)) = Some (f v)
           ∧ fired sa (length (cells s)) = 1
           ∧ resolve s d v = Ok sb
           ∧ transform sb d f = Ok (sb', length (cells s))
           ∧ value_of sb' (length (cells s)) = Some (f v)
           ∧ fired sb' (length (cells s)) = 1
           ∧ weight (cells sb') = weight (cells sb)).
Proof.
  intros Hset Hlt.
  destruct (transform_settled g s d f Hset Hlt) as (s1 & Ht & Hset1 & Hl1 & Hsame1).
  assert ((g ++ [Map f d]) !! length (cells s) = Some (Map f d)) as Hn.
  { destruct Hset as [(Hlen & _) _]. rewrite lookup_app_r by lia.
    by replace (length (cells s) - length g) with 0 by lia. }
  destruct (settled_map _ s1 _ f d Hset1 Hn) as [_ Hv1].
  rewrite (Hsame1 d Hlt) in Hv1.
  exists s1. split; [done|]. split; [|split; [|split]].
  - intros v Hv. rewrite Hv in Hv1. simpl in Hv1. split; [done|].
    split; [by rewrite (settled_fired _ _ _ Hset1), Hv1|].
    unfold transform in Ht.
    apply value_of_Some in Hv as (cd & Hcd & Hh). rewrite Hcd, Hh in Ht.
    injection Ht as <-. simpl. by rewrite weight_app, Nat.add_0_r.
  - intros Hnone. rewrite Hnone in Hv1. simpl in Hv1. split; [done|].
    by rewrite (settled_fired _ _ _ Hset1), Hv1.
  - intros events Hok.
    destruct (resolve_all_settled _ events s1 Hset1 Hok) as (s2 & Hr & Hset2 & _).
    destruct (settled_map _ s2 _ f d Hset2 Hn) as [_ Hv2].
    exists s2. split; [done|]. split; [done|].
    rewrite (settled_fired _ _ _ Hset2), Hv2. by destruct (value_of s2 d).
  - intros v Hd Hnone.
    destruct (transform_either_order g s d f v Hset Hd Hnone)
      as [(s1' & sa & Ht' & Hra & Hva & Hfa) (sb & sb' & Hrb & Htb & Hvb & Hfb & Hwb)].
    rewrite Ht in Ht'. injection Ht' as <-.
    by exists sa, sb, sb'.
Qed.

Lemma transform_before_or_after_witness :
  ∃ s1 sa sb sb',
    transform (new_deferred empty).1 0 (λ x, VList [x]) = Ok (s1, 1)
    ∧ resolve s1 0 (VStr "a") = Ok sa
    ∧ value_of sa 1 = Some (VList [VStr "a"])
    ∧ resolve (new_deferred empty).1 0 (VStr "a") = Ok sb
    ∧ transform sb 0 (λ x, VList [x]) = Ok (sb', 1)
    ∧ value_of sb' 1 = Some (VList [VStr "a"]).
Proof.
  destruct (transform_before_or_after [Src] (new_deferred empty).1 0 (λ x, VList [x]))
    as (s1 & Ht & _ & _ & _ & Hboth).
  - apply (new_deferred_settled [] empty settled_empty).
  - simpl. lia.
  - destruct (Hboth (VStr "a") eq_refl eq_refl)
      as (sa & sb & sb' & Hra & Hva & _ & Hrb & Htb & Hvb & _).
    exists s1, sa, sb, sb'.
    split; [exact Ht|]. split; [exact Hra|]. split; [exact Hva|].
    split; [exact Hrb|]. split; [exact Htb|exact Hvb].
Defined.

(** C4. The fan-in of any members, under any schedule of the engine: the
    result cell is resolved exactly when every member is, with the members'
    values in member order; it is resolved at most once, and exactly once
    when all members are resolved; and in the log its resolution comes
    after the resolution of each member. *)
Theorem fan_in_fires_once_when_complete (g : list origin) (s : store) (ds : list nat) :
  settled g s → (∀ d, d ∈ ds → d < length (cells s)) →
  ∃ s1, fan_in s ds = Ok (s1, length (cells s))
    ∧ ∀ events, schedule_ok (g ++ [All ds]) s1 events →
        ∃ s2, resolve_all s1 events = Ok s2
          ∧ value_of s2 (length (cells s)) = VList <$> mapM (value_of s2) ds
          ∧ (is_Some (value_of s2 (length (cells s)))
             ↔ ∀ d, d ∈ ds → is_Some (value_of s2 d))
          ∧ fired s2 (length (cells s))
            = match mapM (value_of s2) ds with Some _ => 1 | None => 0 end
          ∧ (∀ pre x post, trace s2 = pre ++ (length (cells s), x) :: post →
               ∀ d, d ∈ ds → d ∈ pre.*1).
Proof.
  intros Hset Hds.
  destruct (fan_in_settled g s ds Hset Hds) as (s1 & Hf & Hset1 & Hl1 & Hsame1).
  exists s1. split; [done|]. intros events Hok.
  destruct (resolve_all_settled _ events s1 Hset1 Hok) as (s2 & Hr & Hset2 & _).
  assert ((g ++ [All ds]) !! length (cells s) = Some (All ds)) as Hn.
  { destruct Hset as [(Hlen & _) _]. rewrite lookup_app_r by lia.
    by replace (length (cells s) - length g) with 0 by lia. }
  destruct (settled_all _ s2 _ ds Hset2 Hn) as [_ Hv].
  exists s2. split; [done|]. split; [done|]. split; [|split].
  - rewrite Hv, fmap_is_Some, mapM_is_Some, Forall_forall. done.
  - rewrite (settled_fired _ _ _ Hset2), Hv. by destruct (mapM _ ds).
  - intros pre x post Heq.
    pose proof (settled_order _ _ _ _ _ _ Hset2 Heq) as Ho. by rewrite Hn in Ho.
Qed.

Lemma fan_in_fires_once_when_complete_witness :
  ∃ s1 s2, fan_in (new_deferred (new_deferred empty).1).1 [0; 1] = Ok (s1, 2)
           ∧ resolve_all s1 [(1, VStr "b"); (0, VStr "a")] = Ok s2
           ∧ value_of s2 2 = Some (VList [VStr "a"; VStr "b"])
           ∧ fired s2 2 = 1.
Proof.
  destruct (fan_in_fires_once_when_complete [Src; Src]
              (new_deferred (new_deferred empty).1).1 [0; 1])
    as (s1 & Hf & Hsched).
  - apply (new_deferred_settled [Src] (new_deferred empty).1).
    apply (new_deferred_settled [] empty settled_empty).
  - intros d Hd. apply elem_of_cons in Hd as [->|Hd]; [simpl; lia|].
    apply list_elem_of_singleton in Hd as ->. simpl. lia.
  - assert (s1 = (Store [Cell None [Member 2 0] []; Cell None [Member 2 1] [];
                         Cell None [] [None; None]] [])) as Hs1.
    { vm_compute in Hf. by injection Hf. }
    destruct (Hsched [(1, VStr "b"); (0, VStr "a")]) as (s2 & Hr & Hv & _ & Hfired & _).
    + subst s1. split.
      * apply NoDup_cons. split; [|apply NoDup_singleton].
        intros Hin. apply list_elem_of_singleton in Hin. discriminate.
      * intros d Hd. apply elem_of_cons in Hd as [->|Hd]; [done|].
        apply list_elem_of_singleton in Hd as ->. done.
    + exists s1, s2. split; [exact Hf|]. split; [exact Hr|].
      assert (mapM (value_of s2) [0; 1] = Some [VStr "a"; VStr "b"]) as Hm.
      { subst s1. vm_compute in Hr. injection Hr as <-. reflexivity. }
      rewrite Hm in Hv, Hfired. split; [exact Hv|exact Hfired].
Defined.

End PipelineFacts.

(** ** The compute topology and the final artifact *)

Module ClusterFacts.
Import Text Deferred Topology Bootstrap AccessProfile Cluster.
Import DeferredFacts SettledFacts GrowFacts PipelineFacts BootstrapFacts AccessProfileFacts.

Lemma worker_wired_mono (g g' : list origin) (cfg : config) (m : instance)
    (i : nat) (w : instance) :
  g `prefix_of` g' → worker_wired g cfg m i w → worker_wired g' cfg m i w.
Proof.
  intros Hpre (Hn & Ht & Hd & (ud & Hud & Hg) & Hpriv & Hpub).
  split; [done|]. split; [done|]. split; [done|]. split; [|split].
  - exists ud. split; [done|]. by eapply prefix_lookup_Some.
  - by eapply prefix_lookup_Some.
  - by eapply prefix_lookup_Some.
Qed.

Lemma new_instance_settled (g : list origin) (e : engine) (cfg : config)
    (nm tag : string) (ud : payload) (deps : list string) :
  settled g (outputs e) →
  settled (g ++ [Src; Src]) (outputs (new_instance e cfg nm tag ud deps).1)
  ∧ private_ip (new_instance e cfg nm tag ud deps).2 = length g
  ∧ public_ip (new_instance e cfg nm tag ud deps).2 = S (length g).
Proof.
  intros Hset. pose proof Hset as [(Hlen & _) _].
  destruct (new_deferred_settled g (outputs e) Hset) as (Hs1 & Hh1 & _).
  pose proof Hs1 as [(Hlen1 & _) _].
  destruct (new_deferred_settled _ _ Hs1) as (Hs2 & Hh2 & _).
  rewrite <- (assoc_L (++)) in Hs2. split; [exact Hs2|]. simpl.
  split; [done|]. rewrite length_app. simpl. lia.
Qed.

Lemma new_instance_blank (e : engine) (cfg : config) (nm tag : string)
    (ud : payload) (deps : list string) :
  blank (outputs e) → blank (outputs (new_instance e cfg nm tag ud deps).1).
Proof.
  intros Hb.
  exact (blank_new_deferred _ (blank_new_deferred _ Hb)).
Qed.

Lemma worker_loop_spec (cfg : config) (m : instance) (indices : list nat) :
  ∀ e ws g,
    settled g (outputs e) → blank (outputs e) → private_ip m < length g →
    ∃ e' added g',
      worker_loop cfg m indices e ws = Ok (e', ws ++ added)
      ∧ settled g' (outputs e') ∧ g `prefix_of` g'
      ∧ Forall2 (worker_wired g' cfg m) indices added
      ∧ registered e' = registered e ++ (name <$> added)
      ∧ blank (outputs e').
Proof.
  induction indices as [|i indices IH]; intros e ws g Hset Hblank Hm.
  - exists e, [], g. simpl. rewrite !app_nil_r.
    split; [done|]. split; [done|]. split; [done|]. split; [constructor|done].
  - pose proof Hset as [(Hlen & _) _]. cbn [worker_loop].
    destruct (transform_settled g (outputs e) (private_ip m)
                (worker_userdata_of (k3s_token cfg) i) Hset)
      as (s1 & Ht & Hs1 & Hl1 & _); [lia|].
    pose proof (blank_transform _ _ _ _ _ Hblank Ht) as Hblank1.
    rewrite Ht. cbv beta iota zeta.
    set (r := new_instance (Engine s1 (registered e)) cfg
                ("worker" +:+ str i +:+ "-instance") ("k3s-worker" +:+ str i)
                (Pending (length (cells (outputs e)))) [name m]).
    destruct (new_instance_settled _ (Engine s1 (registered e)) cfg
                ("worker" +:+ str i +:+ "-instance") ("k3s-worker" +:+ str i)
                (Pending (length (cells (outputs e)))) [name m] Hs1)
      as (Hs2 & Hpriv & Hpub).
    fold r in Hs2, Hpriv, Hpub.
    destruct (IH r.1 (ws ++ [r.2]) _ Hs2)
      as (e' & added & g' & Hloop & Hs' & Hpre & Hall & Hreg & Hblank').
    { by apply (new_instance_blank (Engine s1 (registered e))). }
    { rewrite !length_app. simpl. lia. }
    exists e', (r.2 :: added), g'.
    split; [subst r; by rewrite Hloop, <- (assoc_L (++))|]. split; [done|].
    split; [|split; [|split; [|done]]].
    + etrans; [|exact Hpre]. rewrite <- (assoc_L (++)). by apply prefix_app_r.
    + constructor; [|done]. apply (worker_wired_mono _ _ _ _ _ _ Hpre).
      assert (∀ o : origin, length (g ++ [o]) = S (length g)) as Hg1.
      { intros o. rewrite length_app. simpl. lia. }
      rewrite Hg1 in Hpriv, Hpub.
      split; [done|]. split; [done|]. split; [done|]. split; [|split].
      * exists (length (cells (outputs e))). split; [done|]. rewrite <- Hlen.
        rewrite <- (assoc_L (++)). by apply list_lookup_middle.
      * rewrite Hpriv. rewrite <- (assoc_L (++)).
        rewrite lookup_app_r by lia.
        by replace (S (length g) - length g) with 1 by lia.
      * rewrite Hpub. rewrite <- (assoc_L (++)).
        rewrite lookup_app_r by lia.
        by replace (S (S (length g)) - length g) with 2 by lia.
    + rewrite Hreg. simpl. by rewrite <- (assoc_L (++)).
Qed.

Lemma provision_spec (cfg : config) (num_workers : nat) :
  ∃ c g, provision cfg num_workers = Ok c
         ∧ settled g (outputs (state c))
         ∧ blank (outputs (state c))
         ∧ wired g cfg num_workers c.
Proof.
  unfold provision.
  set (r := new_instance (Engine empty network_resources) cfg "master-instance"
              "k3s-master" (Literal (master_userdata (k3s_token cfg))) []).
  destruct (new_instance_settled [] (Engine empty network_resources) cfg
              "master-instance" "k3s-master"
              (Literal (master_userdata (k3s_token cfg))) [] settled_empty)
    as (Hs1 & _ & _).
  fold r in Hs1.
  assert (private_ip r.2 = 0) as Hpriv by done.
  assert (public_ip r.2 = 1) as Hpub by done.
  destruct (worker_loop_spec cfg r.2 (worker_indices num_workers) r.1 [] _ Hs1)
    as (e2 & added & g2 & Hloop & Hs2 & Hpre & Hall & Hreg & Hblank2).
  { apply new_instance_blank, blank_empty. }
  { rewrite Hpriv. simpl. lia. }
  rewrite Hloop. simpl app.
  pose proof Hs2 as [(Hlen2 & _) _].
  assert (g2 !! 0 = Some Src ∧ g2 !! 1 = Some Src) as [Hg0 Hg1].
  { split.
    - exact (prefix_lookup_Some [Src; Src] g2 0 Src eq_refl Hpre).
    - exact (prefix_lookup_Some [Src; Src] g2 1 Src eq_refl Hpre). }
  assert (length added = num_workers) as Hadded.
  { apply Forall2_length in Hall. unfold worker_indices in Hall.
    by rewrite length_seq in Hall. }
  set (ips := public_ip r.2 :: (public_ip <$> added)).
  destruct (fan_in_settled g2 (outputs e2) ips Hs2)
    as (s3 & Hf3 & Hs3 & Hl3 & _).
  { intros d [->|Hd]%elem_of_cons.
    - rewrite Hpub, <- Hlen2. by eapply lookup_lt_Some.
    - apply list_elem_of_fmap in Hd as (w & -> & Hw).
      apply list_elem_of_lookup_1 in Hw as (k & Hk).
      destruct (Forall2_lookup_r _ _ _ _ _ Hall Hk) as (i & _ & Hwi).
      destruct Hwi as (_ & _ & _ & _ & _ & Hp).
      rewrite <- Hlen2. by eapply lookup_lt_Some. }
  assert (ips ≠ []) as Hne by done.
  pose proof (blank_fan_in _ _ _ _ Hblank2 Hne Hf3) as Hblank3.
  rewrite Hf3.
  destruct (transform_settled _ s3 (length (cells (outputs e2)))
              (config_file_text (length added)) Hs3)
    as (s4 & Ht4 & Hs4 & _); [lia|].
  pose proof (blank_transform _ _ _ _ _ Hblank3 Ht4) as Hblank4.
  rewrite Ht4, Hl3.
  eexists _, _. split; [reflexivity|]. split; [exact Hs4|]. split; [exact Hblank4|].
  assert (g2 `prefix_of` (g2 ++ [All ips])
            ++ [Map (config_file_text (length added)) (length (cells (outputs e2)))])
    as Hpre2.
  { rewrite <- (assoc_L (++)). by apply prefix_app_r. }
  unfold wired. simpl.
  split; [done|]. split; [done|].
  split; [exact (prefix_lookup_Some _ _ _ _ Hg0 Hpre2)|].
  split; [exact (prefix_lookup_Some _ _ _ _ Hg1 Hpre2)|].
  split; [|split; [|split; [done|]]].
  - eapply Forall2_impl; [exact Hall|]. intros i w. by apply worker_wired_mono.
  - by rewrite Hreg.
  - exists (length (cells (outputs e2))). rewrite <- Hlen2, Hadded. split.
    + rewrite <- (assoc_L (++)). by apply list_lookup_middle.
    + apply list_lookup_middle. rewrite length_app. simpl. lia.
Qed.

Lemma worker_of_wired (g : list origin) (cfg : config) (n : nat) (c : cluster)
    (w : instance) :
  wired g cfg n c → w ∈ workers c →
  ∃ i, 1 ≤ i ≤ n ∧ worker_wired g cfg (master_instance c) i w.
Proof.
  intros (_ & _ & _ & _ & Hall & _) (k & Hk)%list_elem_of_lookup_1.
  destruct (Forall2_lookup_r _ _ _ _ _ Hall Hk) as (i & Hi & Hw).
  exists i. split; [|done]. unfold worker_indices in Hi.
  apply lookup_seq in Hi. lia.
Qed.

Lemma provider_cells_src (g : list origin) (cfg : config) (n : nat) (c : cluster)
    (d : nat) :
  wired g cfg n c → d ∈ provider_cells c → g !! d = Some Src.
Proof.
  intros Hw Hd. pose proof Hw as (_ & _ & Hpriv & Hpub & _).
  unfold provider_cells in Hd.
  apply elem_of_cons in Hd as [->|Hd]; [done|].
  apply elem_of_cons in Hd as [->|Hd]; [done|].
  apply list_elem_of_In, in_flat_map in Hd as (w & Hin & Hd).
  apply list_elem_of_In in Hin, Hd.
  destruct (worker_of_wired g cfg n c w Hw Hin) as (i & _ & Hwi).
  destruct Hwi as (_ & _ & _ & _ & Hp1 & Hp2).
  apply elem_of_cons in Hd as [->|Hd]; [done|].
  by apply list_elem_of_singleton in Hd as ->.
Qed.

Lemma delivery_schedule_ok (g : list origin) (cfg : config) (n : nat) (c : cluster)
    (events : list (nat * value)) :
  wired g cfg n c → blank (outputs (state c)) → delivery c events →
  schedule_ok g (outputs (state c)) events.
Proof.
  intros Hw Hb [Hnd Hev]. split; [done|]. intros d Hd.
  split; [|done]. eapply provider_cells_src; [done|]. by apply Hev.
Qed.

Lemma mapM_by_position {A B} (f : A → option B) (h : nat → B) (l : list A) :
  ∀ k, (∀ i a, l !! i = Some a → f a = Some (h (k + i))) →
       mapM f l = Some (h <$> seq k (length l)).
Proof.
  induction l as [|a l IH]; intros k Hl; [done|].
  change (mapM f (a :: l)) with (y ← f a; r ← mapM f l; mret (y :: r)).
  rewrite (Hl 0 a eq_refl), Nat.add_0_r. simpl.
  rewrite (IH (S k)); [done|]. intros i b Hi.
  rewrite (Hl (S i) b Hi). f_equal. f_equal. lia.
Qed.

Lemma hosts_host_at (n : nat) : hosts n = host_at <$> seq 0 (S n).
Proof.
  unfold hosts. simpl. f_equal. rewrite <- fmap_S_seq, <- list_fmap_compose.
  done.
Qed.

Lemma zip_fmap_same {A B C} (f : A → B) (h : A → C) (l : list A) :
  zip (f <$> l) (h <$> l) = (λ a, (f a, h a)) <$> l.
Proof. induction l as [|a l IH]; [done|]. simpl. by f_equal. Qed.

(** The text [create_config_file] writes for the addresses [addr 0] (the
    server) to [addr n] (the last worker). *)
Lemma config_content_by_position (n : nat) (addr : nat → string) :
  config_content n (addr <$> seq 0 (S n))
  = Some (join entry_gap ((λ i, entry (host_at i) (addr i)) <$> seq 0 (S n))
          +:+ nl +:+ nl).
Proof.
  rewrite config_content_shape by (by rewrite length_fmap, length_seq).
  rewrite hosts_host_at, zip_fmap_same.
  do 3 f_equal. by rewrite <- list_fmap_compose.
Qed.

(** C1. Provisioning with [num_workers] workers declares that many worker
    instances, each with user data that is a deferred value; once the
    private address [ip] of the server is delivered, in any order with the
    other addresses, these user data are the payloads of the workers 1 to
    [num_workers], in that order.  The payload of worker [i + 1] is the
    fixed head, the index and a tail built from the token and [ip] alone, so
    two payloads differ in the hostname suffix only (and do differ there);
    every payload carries the token setting and the join URL
    [https://ip:6443]. *)
Theorem worker_payloads_provisioned (cfg : config) (num_workers : nat) :
  ∃ c, provision cfg num_workers = Ok c
    ∧ length (workers c) = num_workers
    ∧ ∀ (events : list (nat * value)) (ip : string),
        delivery c events →
        (private_ip (master_instance c), VStr ip) ∈ events →
        ∃ s' payloads,
          resolve_all (outputs (state c)) events = Ok s'
          ∧ Forall2 (λ w p, ∃ ud, user_data w = Pending ud
                                  ∧ value_of s' ud = Some (VStr p))
                    (workers c) payloads
          ∧ payloads = worker_payloads (k3s_token cfg) ip num_workers
          ∧ length payloads = num_workers
          ∧ (∀ i, i < num_workers →
               payloads !! i
               = Some (payload_head +:+ str (i + 1)
                       +:+ payload_tail (k3s_token cfg) ip))
          ∧ (∀ p, p ∈ payloads →
               contains p (token_setting (k3s_token cfg))
               ∧ contains p (url_setting ip))
          ∧ (∀ i j p, payloads !! i = Some p → payloads !! j = Some p → i = j).
Proof.
  destruct (provision_spec cfg num_workers) as (c & g & Hprov & Hset & Hblank & Hw).
  exists c. split; [done|].
  pose proof Hw as (_ & _ & _ & _ & Hall & _).
  split.
  { apply Forall2_length in Hall. unfold worker_indices in Hall.
    by rewrite length_seq in Hall. }
  intros events ip Hdel Hip.
  pose proof (delivery_schedule_ok g cfg num_workers c _ Hw Hblank Hdel) as Hok.
  destruct (resolve_all_settled g events _ Hset Hok) as (s' & Hr & Hs' & Hv & _).
  exists s', (worker_payloads (k3s_token cfg) ip num_workers).
  split; [done|]. split.
  { unfold worker_payloads. apply Forall2_fmap_r, Forall2_flip.
    eapply Forall2_impl; [exact Hall|]. intros i w Hwi. simpl.
    destruct Hwi as (_ & _ & _ & (ud & Hud & Hg) & _).
    exists ud. split; [done|].
    destruct (settled_map g s' _ _ _ Hs' Hg) as [_ ->].
    by rewrite (Hv _ _ Hip). }
  split; [done|]. apply worker_payloads_shape.
Qed.

(** The scenario of two workers, token T and server address 10.0.1.5. *)
Lemma worker_payloads_provisioned_witness :
  ∃ c s' ud1 ud2 p1 p2,
    provision (Config "10.0.0.0/16" "10.0.1.0/24" "ap-southeast-1a"
                      "ami-060e277c0d4cce553" "T" "k3s-cluster") 2 = Ok c
    ∧ resolve_all (outputs (state c)) [(0, VStr "10.0.1.5")] = Ok s'
    ∧ user_data <$> workers c = [Pending ud1; Pending ud2]
    ∧ value_of s' ud1 = Some (VStr p1)
    ∧ value_of s' ud2 = Some (VStr p2)
    ∧ contains p1 ("K3S_TOKEN=" +:+ dq +:+ "T" +:+ dq)
    ∧ contains p1 "K3S_URL=https://10.0.1.5:6443"
    ∧ contains p2 ("K3S_TOKEN=" +:+ dq +:+ "T" +:+ dq)
    ∧ contains p2 "K3S_URL=https://10.0.1.5:6443".
Proof.
  destruct (worker_payloads_provisioned
              (Config "10.0.0.0/16" "10.0.1.0/24" "ap-southeast-1a"
                      "ami-060e277c0d4cce553" "T" "k3s-cluster") 2)
    as (c & Hprov & _ & H).
  assert (private_ip (master_instance c) = 0
          ∧ provider_cells c = [0; 1; 3; 4; 6; 7]
          ∧ user_data <$> workers c = [Pending 2; Pending 5]) as (Hm & Hcells & Hud).
  { vm_compute in Hprov. injection Hprov as <-. by vm_compute. }
  destruct (H [(0, VStr "10.0.1.5")] "10.0.1.5")
    as (s' & payloads & Hr & Hall & _ & _ & _ & Hin & _).
  - split; [apply NoDup_singleton|]. rewrite Hcells.
    intros d ->%list_elem_of_singleton. apply list_elem_of_here.
  - rewrite Hm. apply list_elem_of_here.
  - destruct (workers c) as [|w1 [|w2 [|w3 ws]]] eqn:Hws; try discriminate.
    apply Forall2_cons_inv_l in Hall as (p1 & rest & (u1 & Hw1 & Hv1) & Hall & ->).
    apply Forall2_cons_inv_l in Hall as (p2 & rest' & (u2 & Hw2 & Hv2) & Hall & ->).
    pose proof Hud as Hud0.
    injection Hud as Hud1 Hud2. rewrite Hw1 in Hud1. rewrite Hw2 in Hud2.
    injection Hud1 as ->. injection Hud2 as ->.
    exists c, s', 2, 5, p1, p2.
    destruct (Hin p1) as [Ht1 Hu1]; [apply list_elem_of_here|].
    destruct (Hin p2) as [Ht2 Hu2];
      [apply list_elem_of_further, list_elem_of_here|].
    split; [exact Hprov|]. split; [exact Hr|]. split; [by rewrite Hws|].
    split; [exact Hv1|]. split; [exact Hv2|].
    split; [exact Ht1|]. split; [exact Hu1|]. split; [exact Ht2|exact Hu2].
Defined.

(** C2. Whatever order the provider delivers the addresses in, once the
    public address of every instance is delivered the file holds the hosts
    in the order master, worker-1, ..., worker-N, each with the address of
    that instance: it is the file [create_config_file] writes for the list
    of addresses in that order.  Two deliveries of the same values in
    different orders leave the same file.  The text is the same whether or
    not the file can be opened; it is in the file when it can. *)
Theorem config_file_host_order (cfg : config) (num_workers : nat) :
  ∃ c, provision cfg num_workers = Ok c
    ∧ all_ips c = public_ip (master_instance c) :: (public_ip <$> workers c)
    ∧ length (workers c) = num_workers
    ∧ ∀ (addr : nat → string) (events1 events2 : list (nat * value))
        (home : string) (fs : gmap string node),
        delivery c events1 →
        events1 ≡ₚ events2 →
        (∀ i d, all_ips c !! i = Some d → (d, VStr (addr i)) ∈ events1) →
        ∃ s1 s2,
          resolve_all (outputs (state c)) events1 = Ok s1
          ∧ resolve_all (outputs (state c)) events2 = Ok s2
          ∧ files_after home fs c s2 = files_after home fs c s1
          ∧ create_config_file num_workers home fs (addr <$> seq 0 (S num_workers))
            = write_file fs (config_path home)
                (join entry_gap
                   ((λ i, entry (host_at i) (addr i)) <$> seq 0 (S num_workers))
                 +:+ nl +:+ nl)
          ∧ (can_write fs (config_path home) →
             create_config_file num_workers home fs (addr <$> seq 0 (S num_workers))
             = Returned (files_after home fs c s1)
             ∧ files_after home fs c s1 !! config_path home
               = Some (File (join entry_gap
                               ((λ i, entry (host_at i) (addr i))
                                  <$> seq 0 (S num_workers))
                             +:+ nl +:+ nl))).
Proof.
  destruct (provision_spec cfg num_workers) as (c & g & Hprov & Hset & Hblank & Hw).
  exists c. split; [done|].
  pose proof Hw as (_ & _ & _ & _ & Hall & _ & Hips & collected & Hcol & Hwritten).
  assert (length (workers c) = num_workers) as Hlen.
  { apply Forall2_length in Hall. unfold worker_indices in Hall.
    by rewrite length_seq in Hall. }
  split; [done|]. split; [done|].
  intros addr events1 events2 home fs Hdel Hperm Haddr.
  pose proof (delivery_schedule_ok g cfg num_workers c _ Hw Hblank Hdel) as Hok.
  destruct (schedule_order_irrelevant g _ events1 events2 Hset Hok Hperm)
    as (s1 & s2 & Hr1 & Hr2 & Hs1 & Hs2 & Hsame).
  destruct (resolve_all_settled g events1 _ Hset Hok) as (s1' & Hr1' & _ & Hv & _).
  rewrite Hr1 in Hr1'. injection Hr1' as <-.
  exists s1, s2. split; [done|]. split; [done|].
  assert (value_of s1 (config_written c)
          = Some (VStr (join entry_gap
                          ((λ i, entry (host_at i) (addr i)) <$> seq 0 (S num_workers))
                        +:+ nl +:+ nl))) as Hfile.
  { destruct (settled_map g s1 _ _ _ Hs1 Hwritten) as [_ ->].
    destruct (settled_all g s1 _ _ Hs1 Hcol) as [_ ->].
    rewrite (mapM_by_position (value_of s1) (λ i, VStr (addr i)) (all_ips c) 0).
    - rewrite Hips. simpl. rewrite length_fmap, Hlen.
      unfold config_file_text. simpl texts_of.
      rewrite <- list_fmap_compose.
      change (text_of ∘ (λ i, VStr (addr i))) with addr.
      change (addr 0 :: (addr <$> seq 1 num_workers)) with (addr <$> seq 0 (S num_workers)).
      by rewrite config_content_by_position.
    - intros i d Hi. apply Hv. by apply Haddr. }
  unfold files_after. rewrite <- Hsame, Hfile.
  split; [done|].
  assert (create_config_file num_workers home fs (addr <$> seq 0 (S num_workers))
          = write_file fs (config_path home)
              (join entry_gap
                 ((λ i, entry (host_at i) (addr i)) <$> seq 0 (S num_workers))
               +:+ nl +:+ nl)) as Hcreate.
  { unfold create_config_file. by rewrite config_content_by_position. }
  split; [done|]. intros Hcan. rewrite Hcreate.
  rewrite write_file_can_write by done.
  split; [done|]. apply lookup_insert_eq.
Qed.

Lemma config_file_host_order_witness :
  ∃ c s1, provision default_config 1 = Ok c
    ∧ resolve_all (outputs (state c)) [(4, VStr "5.6.7.8"); (1, VStr "1.2.3.4")] = Ok s1
    ∧ files_after "/home/ubuntu" (<["/home/ubuntu/.ssh" := Directory]> ∅) c s1
        !! "/home/ubuntu/.ssh/config"
      = Some (File (join entry_gap
                      [entry "master" "1.2.3.4"; entry "worker-1" "5.6.7.8"]
                    +:+ nl +:+ nl)).
Proof.
  destruct (config_file_host_order default_config 1) as (c & Hprov & Hips & _ & H).
  assert (all_ips c = [1; 4] ∧ provider_cells c = [0; 1; 3; 4]) as (Hall & Hcells).
  { vm_compute in Hprov. injection Hprov as <-. by vm_compute. }
  destruct (H (λ i, match i with 0 => "1.2.3.4" | _ => "5.6.7.8" end)
              [(4, VStr "5.6.7.8"); (1, VStr "1.2.3.4")]
              [(1, VStr "1.2.3.4"); (4, VStr "5.6.7.8")]
              "/home/ubuntu" (<["/home/ubuntu/.ssh" := Directory]> ∅))
    as (s1 & s2 & Hr1 & _ & _ & _ & Hfile).
  - split.
    + apply NoDup_cons. split; [|apply NoDup_singleton].
      intros Hin. apply list_elem_of_singleton in Hin. discriminate.
    + rewrite Hcells. intros d Hd. apply elem_of_cons in Hd as [->|Hd].
      * do 3 apply list_elem_of_further. apply list_elem_of_here.
      * apply list_elem_of_singleton in Hd as ->.
        apply list_elem_of_further, list_elem_of_here.
  - apply perm_swap.
  - rewrite Hall. intros [|[|i]] d Hd; simpl in Hd; [| |discriminate].
    + injection Hd as <-. apply list_elem_of_further, list_elem_of_here.
    + injection Hd as <-. apply list_elem_of_here.
  - exists c, s1. split; [exact Hprov|]. split; [exact Hr1|].
    apply Hfile. split; [by vm_compute|]. by vm_compute.
Defined.

(** C3. Every worker instance is declared after the server instance and
    with [depends_on] naming it, so in any order of creation requests that
    honours the declared dependencies the server's request comes first.
    Apart from that, the worker's user data is a deferred value computed
    from the server's private address: under any delivery it is resolved
    exactly when that address is. *)
Theorem workers_depend_on_master (cfg : config) (num_workers : nat) :
  ∃ c, provision cfg num_workers = Ok c
    ∧ length (workers c) = num_workers
    ∧ name (master_instance c) = "master-instance"
    ∧ (∀ w, w ∈ workers c →
         depends_on w = ["master-instance"]
         ∧ before "master-instance" (name w) (registered (state c))
         ∧ ∃ ud i, user_data w = Pending ud ∧
             ∀ events, delivery c events →
               ∃ s', resolve_all (outputs (state c)) events = Ok s'
                     ∧ value_of s' ud
                       = worker_userdata_of (k3s_token cfg) i
                           <$> value_of s' (private_ip (master_instance c)))
    ∧ (∀ order, honours (workers c) order →
         ∀ w, w ∈ workers c → name w ∈ order →
              before "master-instance" (name w) order).
Proof.
  destruct (provision_spec cfg num_workers) as (c & g & Hprov & Hset & Hblank & Hw).
  exists c. split; [done|].
  pose proof Hw as (Hname & _ & _ & _ & Hall & Hreg & _).
  split.
  { apply Forall2_length in Hall. unfold worker_indices in Hall.
    by rewrite length_seq in Hall. }
  split; [done|].
  assert (∀ w, w ∈ workers c → depends_on w = ["master-instance"]) as Hdeps.
  { intros w Hin. destruct (worker_of_wired g cfg _ c w Hw Hin) as (i & _ & Hwi).
    destruct Hwi as (_ & _ & Hd & _). by rewrite Hd, Hname. }
  split.
  - intros w Hin. split; [by apply Hdeps|]. split.
    + rewrite Hreg, Hname.
      apply (list_elem_of_fmap_2 name) in Hin.
      apply list_elem_of_split in Hin as (l1 & l2 & Heq).
      unfold before. exists network_resources, l1, l2. by rewrite Heq.
    + destruct (worker_of_wired g cfg _ c w Hw Hin) as (i & _ & Hwi).
      destruct Hwi as (_ & _ & _ & (ud & Hud & Hg) & _).
      exists ud, i. split; [done|]. intros events Hdel.
      pose proof (delivery_schedule_ok g cfg _ c _ Hw Hblank Hdel) as Hok.
      destruct (resolve_all_settled g events _ Hset Hok) as (s' & Hr & Hs' & _).
      exists s'. split; [done|]. by destruct (settled_map g s' _ _ _ Hs' Hg).
  - intros order Hhon w Hin Hord. apply (Hhon w); [done| |done].
    rewrite (Hdeps w Hin). apply list_elem_of_here.
Qed.

Lemma workers_depend_on_master_witness :
  ∃ c, provision default_config 2 = Ok c
    ∧ before "master-instance" "worker2-instance"
        ["my-vpc"; "master-instance"; "worker2-instance"; "worker1-instance"].
Proof.
  destruct (workers_depend_on_master default_config 2) as (c & Hprov & _ & _ & Hws & Hord).
  exists c. split; [exact Hprov|].
  assert (∃ w1 w2, workers c = [w1; w2]
                   ∧ name w1 = "worker1-instance" ∧ name w2 = "worker2-instance")
    as (w1 & w2 & Hwc & Hn1 & Hn2).
  { vm_compute in Hprov. injection Hprov as <-. eexists _, _.
    split; [reflexivity|]. split; reflexivity. }
  rewrite <- Hn2. apply Hord.
  - intros r dep Hr Hdep _. rewrite Hwc in Hr.
    destruct (Hws r) as (Hd & _); [by rewrite Hwc|]. rewrite Hd in Hdep.
    apply list_elem_of_singleton in Hdep as ->.
    apply elem_of_cons in Hr as [->|Hr].
    + rewrite Hn1, Hn2. unfold before.
      by exists ["my-vpc"], ["worker2-instance"], [].
    + apply list_elem_of_singleton in Hr as ->. rewrite Hn2.
      unfold before. by exists ["my-vpc"], [], ["worker1-instance"].
  - rewrite Hwc. apply list_elem_of_further, list_elem_of_here.
  - rewrite Hn2. do 2 apply list_elem_of_further. apply list_elem_of_here.
Defined.

End ClusterFacts.

(** ** Settings *)

Module SettingsFacts.
Import Cluster Settings.

Lemma get_or_nonempty (raw : gmap string string) (key default : string) :
  default ≠ EmptyString → get_or raw key default ≠ EmptyString.
Proof.
  intros Hd. unfold get_or. destruct (raw !! key) as [v|]; [|done].
  by destruct (decide (v = EmptyString)).
Qed.

(** X1. Whatever the configuration holds, no setting comes out empty: a
    value that is missing or empty gives way to the default, and a value
    that is present and not empty is taken as it is. *)
Theorem load_config_never_empty (raw : gmap string string) :
  (vpc_cidr (load_config raw) ≠ EmptyString
   ∧ public_subnet_cidr (load_config raw) ≠ EmptyString
   ∧ availability_zone (load_config raw) ≠ EmptyString
   ∧ ubuntu_ami_id (load_config raw) ≠ EmptyString
   ∧ k3s_token (load_config raw) ≠ EmptyString
   ∧ access_key (load_config raw) ≠ EmptyString)
  ∧ load_config (<["k3s_token" := EmptyString]> raw)
    = load_config (delete "k3s_token" raw)
  ∧ (∀ t, t ≠ EmptyString → k3s_token (load_config (<["k3s_token" := t]> raw)) = t).
Proof.
  split; [|split].
  - repeat split; by apply get_or_nonempty.
  - unfold load_config, get_or.
    rewrite lookup_insert_eq, lookup_delete_eq.
    rewrite !lookup_insert_ne, !lookup_delete_ne by done. done.
  - intros t Ht. unfold load_config, get_or. simpl.
    rewrite lookup_insert_eq. by destruct (decide (t = EmptyString)).
Qed.

Lemma load_config_never_empty_witness :
  k3s_token (load_config (<["k3s_token" := "T"]> ∅)) = "T".
Proof.
  destruct (load_config_never_empty ∅) as (_ & _ & H).
  apply H. discriminate.
Defined.

(** X2. The script reads six keys and nothing else: configurations that
    agree on them give the same settings.  The key pair name comes from
    the key [k3sCluster] and the image from [ami_id]. *)
Theorem load_config_reads_six_keys (raw raw' : gmap string string) :
  (∀ key, key ∈ config_keys → raw !! key = raw' !! key) →
  load_config raw = load_config raw'.
Proof.
  intros H. unfold load_config, get_or.
  rewrite !H; [done|unfold config_keys; set_solver..].
Qed.

Lemma load_config_reads_six_keys_witness :
  load_config (<["access_key" := "my-key"]> ∅) = load_config ∅.
Proof.
  apply load_config_reads_six_keys. intros key Hkey.
  rewrite lookup_insert_ne; [done|].
  intros <-. unfold config_keys in Hkey. set_solver.
Defined.

(** X3. With none of the six keys set, or set to the empty string, the
    script runs on its defaults. *)
Theorem load_config_defaults (raw : gmap string string) :
  (∀ key, key ∈ config_keys →
          raw !! key = None ∨ raw !! key = Some EmptyString) →
  load_config raw = default_config.
Proof.
  intros H. unfold load_config, default_config, get_or.
  assert (∀ key default, key ∈ config_keys →
            match raw !! key with
            | Some v => if decide (v = EmptyString) then default else v
            | None => default
            end = default) as Hget.
  { intros key default Hkey. by destruct (H key Hkey) as [-> | ->]. }
  rewrite !Hget; [done|unfold config_keys; set_solver..].
Qed.

Lemma load_config_defaults_witness :
  load_config (<["ami_id" := EmptyString]> (<["region" := "eu-west-1"]> ∅))
  = default_config.
Proof.
  apply load_config_defaults. intros key Hkey.
  destruct (decide (key = "ami_id")) as [->|Hne].
  - right. apply lookup_insert_eq.
  - left. rewrite lookup_insert_ne by done. rewrite lookup_insert_ne; [done|].
    intros <-. unfold config_keys in Hkey. set_solver.
Defined.

End SettingsFacts.

(** ** The security group, as a whole *)

Module SecurityMore.
Import SecurityPolicy.

(** X4. The whole ingress table in one line: a packet is let in exactly if
    its source lies in the subnet range, or it is TCP to port 22 or 80 from
    a source in the range 0.0.0.0/0.  Nothing else reaches a node. *)
Theorem ingress_allows_exactly {addr : Type} (in_cidr : string → addr → bool)
    (subnet_cidr : string) (proto : string) (port : Z) (src : addr) :
  allows in_cidr (ingress (k3s_security_group subnet_cidr)) proto port src
  = in_cidr subnet_cidr src
    || (in_cidr open_internet src
        && bool_decide (proto = "tcp")
        && bool_decide (port = 22 ∨ port = 80)%Z).
Proof.
  unfold allows, rule_allows, covers. cbn.
  destruct (in_cidr subnet_cidr src), (in_cidr open_internet src); cbn;
    rewrite ?andb_true_r, ?andb_false_r, ?orb_true_r, ?orb_false_r; try done.
  repeat case_bool_decide; subst; cbn; try done; try lia.
Qed.

(** X5. Outbound traffic is let out exactly if its destination lies in the
    range 0.0.0.0/0, whatever the protocol and the port. *)
Theorem egress_allows_exactly {addr : Type} (in_cidr : string → addr → bool)
    (subnet_cidr : string) (proto : string) (port : Z) (dst : addr) :
  allows in_cidr (egress (k3s_security_group subnet_cidr)) proto port dst
  = in_cidr open_internet dst.
Proof.
  unfold allows, rule_allows, covers. cbn.
  rewrite !orb_false_r. by rewrite bool_decide_true.
Qed.

End SecurityMore.

(** ** The ssh client configuration, further *)

Module AccessProfileMore.
Import Text TextFacts AccessProfile AccessProfileFacts.

Lemma worker_alias_inj (i j : nat) :
  "worker-" +:+ str (i + 1) = "worker-" +:+ str (j + 1) → i = j.
Proof.
  intros H. apply (inj (String.app "worker-")) in H.
  apply str_inj in H. lia.
Qed.

(** X6. The host aliases of the file are pairwise different, for every
    number of workers, and there is one per instance. *)
Theorem hosts_distinct (num_workers : nat) :
  NoDup (hosts num_workers) ∧ length (hosts num_workers) = S num_workers.
Proof.
  split; [|apply length_hosts]. unfold hosts. apply NoDup_cons. split.
  - intros (i & Hi & _)%list_elem_of_fmap. discriminate.
  - apply NoDup_fmap_2_strong; [|apply NoDup_seq].
    intros i j _ _. apply worker_alias_inj.
Qed.

Lemma config_content_None (num_workers : nat) (all_ips : list string) :
  config_content num_workers all_ips = None ↔ length all_ips ≤ num_workers.
Proof.
  split.
  - intros Hnone. destruct (decide (length all_ips ≤ num_workers)); [done|].
    rewrite config_content_defined in Hnone by lia. done.
  - intros Hlen. unfold config_content, enumerate.
    pose proof (config_loop_short (hosts num_workers) [] all_ips []) as H.
    change (length (@nil string)) with 0 in H.
    change ([] ++ all_ips) with all_ips in H.
    rewrite H; [done|]. rewrite length_hosts. lia.
Qed.

(** X7. [create_config_file] fails on the index, and writes nothing,
    exactly when it is given fewer addresses than there are hosts. *)
Theorem config_content_fails_iff_short (num_workers : nat) (all_ips : list string)
    (home : string) (fs : gmap string node) :
  (config_content num_workers all_ips = None ↔ length all_ips ≤ num_workers)
  ∧ (create_config_file num_workers home fs all_ips = Raised IndexError
     ↔ length all_ips ≤ num_workers).
Proof.
  split; [apply config_content_None|].
  unfold create_config_file. rewrite <- config_content_None.
  destruct (config_content num_workers all_ips) as [content|]; [|done].
  split; [|done]. unfold write_file.
  by repeat case_match.
Qed.

Lemma zip_take_r {A B} (l : list A) (k : list B) :
  zip l k = zip l (take (length l) k).
Proof.
  revert k. induction l as [|a l IH]; intros [|b k]; simpl; try done.
  by rewrite <- IH.
Qed.

(** X8. Addresses beyond the last host are not looked at: only the first
    [num_workers + 1] of them matter. *)
Theorem config_content_ignores_surplus (num_workers : nat) (all_ips : list string) :
  config_content num_workers all_ips
  = config_content num_workers (take (S num_workers) all_ips).
Proof.
  destruct (decide (S num_workers ≤ length all_ips)) as [Hlen|Hlen].
  - rewrite !config_content_defined by (rewrite ?length_take; lia).
    do 4 f_equal. rewrite (zip_take_r (hosts num_workers) all_ips).
    by rewrite length_hosts.
  - by rewrite take_ge by lia.
Qed.

(** X9. The layout of the file for every number of workers: the entries
    of the hosts in order, each with its four lines, three line feeds
    between two entries (two empty lines) and two line feeds at the end. *)
Theorem config_file_layout (num_workers : nat) (all_ips : list string) :
  S num_workers ≤ length all_ips →
  config_content num_workers all_ips
  = Some (join entry_gap (zip_with entry (hosts num_workers) all_ips)
          +:+ nl +:+ nl).
Proof.
  intros Hlen. rewrite config_content_shape by done.
  do 3 f_equal. generalize (hosts num_workers). intros hs. clear Hlen.
  revert all_ips. induction hs as [|h hs IH]; intros [|ip ips]; try done.
  simpl. f_equal. apply IH.
Qed.

Lemma config_file_layout_witness :
  config_content 1 ["1.2.3.4"; "5.6.7.8"]
  = Some (join entry_gap [entry "master" "1.2.3.4"; entry "worker-1" "5.6.7.8"]
          +:+ nl +:+ nl).
Proof. apply (config_file_layout 1 ["1.2.3.4"; "5.6.7.8"]). simpl. lia. Defined.



End AccessProfileMore.

(** ** Numbers inside rendered text *)

Module DigitsFacts.
Import Text TextFacts Digits.

Lemma pretty_N_char_digit (x : N) : is_digit (pretty_N_char x) = true.
Proof. unfold pretty_N_char. by repeat case_match. Qed.

Lemma pretty_N_go_digits (x : N) (s : string) :
  all_digits s = true → all_digits (pretty_N_go x s) = true.
Proof.
  revert s. induction (N.lt_wf_0 x) as [x _ IH]; intros s Hs.
  assert (x = 0 ∨ 0 < x)%N as [->|Hpos] by lia.
  - by rewrite pretty_N_go_0.
  - rewrite pretty_N_go_step by done. apply IH; [by apply N.div_lt|].
    simpl. by rewrite pretty_N_char_digit, Hs.
Qed.

(** [str(n)] consists of decimal digits. *)
Lemma str_digits (n : nat) : all_digits (str n) = true.
Proof.
  unfold str, pretty, pretty_nat, pretty, pretty_N.
  case_decide; [done|]. by apply pretty_N_go_digits.
Qed.

(** A run of digits followed by text that starts with something else can
    be read back in one way only. *)
Lemma digits_split (a b t1 t2 : string) :
  all_digits a = true → all_digits b = true →
  starts_plain t1 = true → starts_plain t2 = true →
  a +:+ t1 = b +:+ t2 → a = b ∧ t1 = t2.
Proof.
  revert b. induction a as [|x a IH]; intros [|y b] Ha Hb H1 H2 Heq.
  - done.
  - rewrite sapp_cons in Heq. change (EmptyString +:+ t1) with t1 in Heq.
    subst t1. simpl in H1, Hb. apply andb_true_iff in Hb as [Hy _].
    rewrite Hy in H1. done.
  - rewrite sapp_cons in Heq. change (EmptyString +:+ t2) with t2 in Heq.
    subst t2. simpl in H2, Ha. apply andb_true_iff in Ha as [Hx _].
    rewrite Hx in H2. done.
  - rewrite !sapp_cons in Heq. injection Heq as -> Heq.
    simpl in Ha, Hb. apply andb_true_iff in Ha as [_ Ha].
    apply andb_true_iff in Hb as [_ Hb].
    destruct (IH b Ha Hb H1 H2 Heq) as [-> ->]. done.
Qed.

(** [prefix{i}suffix] names: the number can be read back, and so can the
    suffix, when the suffix does not start with a digit. *)
Lemma numbered_inj (pre : string) (i j : nat) (t1 t2 : string) :
  starts_plain t1 = true → starts_plain t2 = true →
  pre +:+ str i +:+ t1 = pre +:+ str j +:+ t2 → i = j ∧ t1 = t2.
Proof.
  intros H1 H2 Heq. apply (inj (String.app pre)) in Heq.
  apply digits_split in Heq as [Heq ->]; [|apply str_digits..|done|done].
  split; [by apply str_inj|done].
Qed.

End DigitsFacts.

(** ** The worker payload, further *)

Module BootstrapMore.
Import Text TextFacts Bootstrap BootstrapFacts Digits DigitsFacts.

(** X11. A payload tells which worker it is for and which server it
    joins: for a given token, two payloads are equal only if both the
    index and the address are. *)
Theorem make_worker_userdata_reads_back (k3s_token ip ip' : string) (i j : nat) :
  make_worker_userdata k3s_token ip i = make_worker_userdata k3s_token ip' j
  ↔ i = j ∧ ip = ip'.
Proof.
  split; [|by intros [-> ->]].
  rewrite !make_worker_userdata_split. intros Heq.
  apply numbered_inj in Heq as [-> Heq]; [|done..]. split; [done|].
  unfold payload_tail in Heq.
  repeat (apply (inj (String.app _)) in Heq).
  by apply sapp_inj_r in Heq.
Qed.

End BootstrapMore.

(** ** The instances the script declares, further *)

Module ClusterMore.
Import Text TextFacts Deferred Bootstrap BootstrapFacts AccessProfile.
Import AccessProfileFacts Cluster ClusterFacts Digits DigitsFacts Hostnames.

(** The server instance, as declared. *)
Lemma provision_master (cfg : config) (num_workers : nat) (c : cluster) :
  provision cfg num_workers = Ok c →
  master_instance c
  = Instance "master-instance" "t3.small" (ubuntu_ami_id cfg) (access_key cfg) true
             (Literal (master_userdata (k3s_token cfg))) "k3s-master" [] 0 1.
Proof.
  unfold provision. intros H.
  repeat (case_match; try discriminate). by injection H as <-.
Qed.

(** The arguments every pass of the loop gives to the instance. *)
Lemma worker_loop_uniform (cfg : config) (m : instance) (indices : list nat) :
  ∀ e ws e' ws',
    worker_loop cfg m indices e ws = Ok (e', ws') →
    ∃ added, ws' = ws ++ added
      ∧ Forall (λ w, instance_type w = "t3.small"
                     ∧ ami w = ubuntu_ami_id cfg
                     ∧ key_name w = access_key cfg
                     ∧ associate_public_ip_address w = true) added.
Proof.
  induction indices as [|i indices IH]; intros e ws e' ws' H.
  - injection H as <- <-. exists []. by rewrite app_nil_r.
  - cbn [worker_loop] in H.
    destruct (transform (outputs e) (private_ip m)
                (worker_userdata_of (k3s_token cfg) i)) as [[s1 ud]| |]; try done.
    apply IH in H as (added & -> & Hall).
    eexists (_ :: added). rewrite <- (assoc_L (++)). split; [reflexivity|].
    by constructor.
Qed.

Lemma provision_workers (cfg : config) (num_workers : nat) (c : cluster) :
  provision cfg num_workers = Ok c →
  ∃ e, worker_loop cfg (master_instance c) (worker_indices num_workers)
         (new_instance (Engine empty network_resources) cfg "master-instance"
            "k3s-master" (Literal (master_userdata (k3s_token cfg))) []).1 []
       = Ok (e, workers c).
Proof.
  intros H. pose proof (provision_master _ _ _ H) as Hm. revert H Hm.
  unfold provision. intros H.
  repeat (case_match; try discriminate). injection H as <-. simpl.
  intros _. subst. by eexists.
Qed.

Lemma Forall2_fmap_eq {A B C} (f : A → C) (h : B → C) (l : list A) (k : list B) :
  Forall2 (λ a b, h b = f a) l k → h <$> k = f <$> l.
Proof. induction 1 as [|a b l k Hab _ IH]; [done|]. csimpl. by rewrite Hab, IH. Qed.

Lemma worker_names (g : list Topology.origin) (cfg : config) (n : nat) (c : cluster) :
  wired g cfg n c →
  name <$> workers c = (λ i, "worker" +:+ str i +:+ "-instance") <$> seq 1 n
  ∧ tag_name <$> workers c = (λ i, "k3s-worker" +:+ str i) <$> seq 1 n
  ∧ length (workers c) = n.
Proof.
  intros (_ & _ & _ & _ & Hall & _). unfold worker_indices in Hall.
  split; [|split].
  - apply Forall2_fmap_eq. eapply Forall2_impl; [exact Hall|].
    by intros i w (Hn & _).
  - apply Forall2_fmap_eq. eapply Forall2_impl; [exact Hall|].
    by intros i w (_ & Ht & _).
  - apply Forall2_length in Hall. by rewrite length_seq in Hall.
Qed.



(** X14. All nodes are alike: the server and every worker are declared
    with the same instance type, the machine image and the key pair of the
    configuration, and a public address. *)
Theorem nodes_uniform (cfg : config) (num_workers : nat) :
  ∃ c, provision cfg num_workers = Ok c
    ∧ Forall (λ i, instance_type i = "t3.small"
                   ∧ ami i = ubuntu_ami_id cfg
                   ∧ key_name i = access_key cfg
                   ∧ associate_public_ip_address i = true)
             (master_instance c :: workers c).
Proof.
  destruct (provision_spec cfg num_workers) as (c & g & Hprov & _ & _ & Hw).
  exists c. split; [done|]. constructor.
  - by rewrite (provision_master _ _ _ Hprov).
  - destruct (provision_workers _ _ _ Hprov) as (e & Hloop).
    apply worker_loop_uniform in Hloop as (added & Heq & Hall).
    by rewrite Heq.
Qed.

Lemma worker_name_inj (i j : nat) :
  "worker" +:+ str i +:+ "-instance" = "worker" +:+ str j +:+ "-instance" → i = j.
Proof. intros H. by apply numbered_inj in H as [-> _]. Qed.

(** X15. No two resources of the script have the same name, however many
    workers there are: the engine is given eight names and one more per
    worker, all different. *)
Theorem resource_names_distinct (cfg : config) (num_workers : nat) :
  ∃ c, provision cfg num_workers = Ok c
    ∧ NoDup (registered (state c))
    ∧ length (registered (state c)) = 8 + num_workers.
Proof.
  destruct (provision_spec cfg num_workers) as (c & g & Hprov & _ & _ & Hw).
  exists c. split; [done|].
  destruct (worker_names g cfg num_workers c Hw) as (Hnames & _ & Hlen).
  destruct Hw as (Hm & _ & _ & _ & _ & -> & _). rewrite Hm, Hnames. split.
  - apply NoDup_app. split; [|split].
    + apply (bool_decide_unpack _). by vm_compute.
    + intros x Hx [Hin|Hin]%elem_of_cons.
      * subst x. revert Hx. apply (bool_decide_unpack _). by vm_compute.
      * apply list_elem_of_fmap in Hin as (i & -> & _).
        unfold network_resources in Hx.
        repeat (apply elem_of_cons in Hx as [Hx|Hx]; [discriminate|]).
        by apply elem_of_nil in Hx.
    + apply NoDup_cons. split.
      * intros (i & Hi & _)%list_elem_of_fmap. discriminate.
      * apply NoDup_fmap_2_strong; [|apply NoDup_seq].
        intros i j _ _. apply worker_name_inj.
  - rewrite length_app. simpl. by rewrite length_fmap, length_seq.
Qed.

(** X16. The list of addresses always has one address per alias, so the
    indexing in [create_config_file] does not fail in the script: for the
    workers the loop declared, any list as long as the one given to
    [Output.all] yields a file. *)
Theorem config_file_never_short (cfg : config) (num_workers : nat) :
  ∃ c, provision cfg num_workers = Ok c
    ∧ length (all_ips c) = length (hosts (length (workers c)))
    ∧ ∀ ips, length ips = length (all_ips c) →
             is_Some (config_content (length (workers c)) ips).
Proof.
  destruct (provision_spec cfg num_workers) as (c & g & Hprov & _ & _ & Hw).
  exists c. split; [done|].
  destruct Hw as (_ & _ & _ & _ & _ & _ & Hips & _).
  assert (length (all_ips c) = S (length (workers c))) as Hlen.
  { rewrite Hips. simpl. by rewrite length_fmap. }
  split; [by rewrite length_hosts|].
  intros ips Hl. rewrite config_content_defined by lia. by eexists.
Qed.

End ClusterMore.

(** ** The order of the declarations *)

Module DeclarationsFacts.
Import Text Deferred Cluster ClusterFacts ClusterMore Declarations.

Lemma declarations_names (c : cluster) :
  dname <$> declarations c
  = network_resources ++ name (master_instance c) :: (name <$> workers c).
Proof.
  unfold declarations. rewrite fmap_app, fmap_cons, <- list_fmap_compose. done.
Qed.

Ltac earlier j := exists j; split; [simpl; lia | reflexivity].

(** X17. Every resource is declared after the resources it refers to,
    through an argument or through [depends_on]; the declarations are the
    names the engine got, in that order. *)
Theorem declarations_in_dependency_order (cfg : config) (num_workers : nat) :
  ∃ c, provision cfg num_workers = Ok c
    ∧ dname <$> declarations c = registered (state c)
    ∧ declared_before_use (declarations c).
Proof.
  destruct (provision_spec cfg num_workers) as (c & g & Hprov & _ & _ & Hw).
  exists c. split; [done|].
  pose proof Hw as (Hm & Hmd & _ & _ & Hall & Hreg & _).
  split; [by rewrite declarations_names, Hreg|].
  intros i d r Hd Hr. unfold declarations in *.
  destruct (decide (i < 7)) as [Hi|Hi].
  - do 7 (destruct i as [|i]; [injection Hd as <-; simpl in Hr;
      repeat (apply elem_of_cons in Hr as [->|Hr]);
      first [by apply elem_of_nil in Hr | earlier 0 | earlier 1 | earlier 2
            | earlier 3 | earlier 4 | earlier 5]|]).
    lia.
  - rewrite lookup_app_r in Hd by (simpl; lia).
    change (length network_declarations) with 7 in Hd.
    destruct (i - 7) as [|k] eqn:Hk.
    + injection Hd as <-. simpl in Hr. rewrite Hmd in Hr.
      replace i with 7 by lia.
      repeat (apply elem_of_cons in Hr as [->|Hr]);
        first [by apply elem_of_nil in Hr | earlier 6 | earlier 1].
    + simpl in Hd. rewrite list_lookup_fmap in Hd.
      destruct (workers c !! k) as [w|] eqn:Hwk; [|done].
      injection Hd as <-. simpl in Hr.
      destruct (Forall2_lookup_r _ _ _ _ _ Hall Hwk) as (idx & _ & Hwi).
      destruct Hwi as (_ & _ & Hdep & _). rewrite Hdep in Hr.
      assert (7 < i) by lia.
      repeat (apply elem_of_cons in Hr as [->|Hr]);
        first [by apply elem_of_nil in Hr
              | exists 6; split; [lia|reflexivity]
              | exists 1; split; [lia|reflexivity]
              | exists 7; split; [lia|reflexivity] ].
Qed.

End DeclarationsFacts.

(** ** Stack outputs *)

Module ExportsFacts.
Import Text TextFacts Deferred Bootstrap AccessProfile AccessProfileFacts.
Import Cluster ClusterFacts ClusterMore Digits DigitsFacts Exports.

Lemma worker_exports_names (p : nat * instance) :
  (worker_exports p).*1 = export_names p.1.
Proof. done. Qed.

Lemma enumerate_from_names {A} (f : nat * A → list (string * exported))
    (h : nat → list string) (l : list A) :
  (∀ p, (f p).*1 = h p.1) →
  ∀ k, (enumerate_from k l ≫= f).*1 = seq k (length l) ≫= h.
Proof.
  intros Hf. unfold enumerate_from.
  induction l as [|a l IH]; intros k; [done|].
  csimpl. rewrite fmap_app, Hf, IH. done.
Qed.

Lemma export_names_inj (i j : nat) (x : string) :
  x ∈ export_names i → x ∈ export_names j → i = j.
Proof.
  unfold export_names. intros Hi Hj.
  repeat (apply elem_of_cons in Hi as [->|Hi]);
    repeat (apply elem_of_cons in Hj as [Hj|Hj]);
    try (by apply elem_of_nil in Hi); try (by apply elem_of_nil in Hj);
    by apply numbered_inj in Hj as [-> _].
Qed.

Lemma export_names_NoDup (i : nat) : NoDup (export_names i).
Proof.
  unfold export_names.
  repeat (apply NoDup_cons; split);
    [| |by intros ?%elem_of_nil|apply NoDup_nil_2];
    intros Hin;
    repeat (apply elem_of_cons in Hin as [Hin|Hin]);
    try (by apply elem_of_nil in Hin);
    by apply numbered_inj in Hin as [_ ?].
Qed.

Lemma exports_names (c : cluster) :
  (exports c).*1
  = [ "vpc_id"; "public_subnet_id"; "igw_id"; "public_route_table_id";
      "master_instance_id"; "master_instance_public_ip"; "master_private_ip" ]
    ++ (seq 1 (length (workers c)) ≫= export_names).
Proof.
  unfold exports. rewrite fmap_app. f_equal.
  apply enumerate_from_names, worker_exports_names.
Qed.

Lemma exports_NoDup (c : cluster) : NoDup (exports c).*1.
Proof.
  rewrite exports_names. apply NoDup_app. split; [|split].
  - apply (bool_decide_unpack _). by vm_compute.
  - intros x Hx (i & Hin & _)%list_elem_of_bind. unfold export_names in Hin.
    repeat (apply elem_of_cons in Hx as [->|Hx]);
      try (by apply elem_of_nil in Hx);
      repeat (apply elem_of_cons in Hin as [Hin|Hin]);
      try (by apply elem_of_nil in Hin); discriminate.
  - apply NoDup_bind; [|intros; apply export_names_NoDup|apply NoDup_seq].
    intros i j x _ _. apply export_names_inj.
Qed.

Lemma length_worker_exports (l : list instance) :
  ∀ k, length (enumerate_from k l ≫= worker_exports) = 3 * length l.
Proof.
  unfold enumerate_from. induction l as [|w ws IH]; intros k; [done|].
  csimpl. rewrite IH. simpl. lia.
Qed.

Lemma length_exports (c : cluster) : length (exports c) = 7 + 3 * length (workers c).
Proof.
  unfold exports. rewrite length_app, length_worker_exports. done.
Qed.

Lemma exports_reverse_NoDup (c : cluster) : NoDup (reverse (exports c)).*1.
Proof. rewrite fmap_reverse, reverse_Permutation. apply exports_NoDup. Qed.

Lemma stack_outputs_lookup (c : cluster) (key : string) (v : exported) :
  (key, v) ∈ exports c → stack_outputs c !! key = Some v.
Proof.
  intros Hin. unfold stack_outputs. apply elem_of_list_to_map_1.
  - apply exports_reverse_NoDup.
  - by apply elem_of_reverse.
Qed.

(** X18. No export replaces another: the names given to [pulumi.export]
    are pairwise different, so the stack has seven outputs and three more
    per worker. *)
Theorem export_names_distinct (cfg : config) (num_workers : nat) :
  ∃ c, provision cfg num_workers = Ok c
    ∧ NoDup (exports c).*1
    ∧ size (stack_outputs c) = 7 + 3 * num_workers.
Proof.
  destruct (provision_spec cfg num_workers) as (c & g & Hprov & _ & _ & Hw).
  exists c. split; [done|]. split; [apply exports_NoDup|].
  destruct (worker_names g cfg num_workers c Hw) as (_ & _ & Hlen).
  unfold stack_outputs. rewrite map_size_list_to_map.
  - by rewrite length_reverse, length_exports, Hlen.
  - apply exports_reverse_NoDup.
Qed.

(** X19. The script numbers the workers in four places (the loop that
    declares them, the loop that exports them, the aliases of the ssh
    configuration and the list of addresses), and the four agree: the
    [k]-th worker is the instance [worker{k+1}-instance] tagged
    [k3s-worker{k+1}], its address is the one listed for the alias
    [worker-{k+1}], and the outputs [worker{k+1}_...] are its id and its
    two addresses. *)
Theorem numbering_consistent (cfg : config) (num_workers : nat) :
  ∃ c, provision cfg num_workers = Ok c
    ∧ ∀ k w, workers c !! k = Some w →
        name w = "worker" +:+ str (k + 1) +:+ "-instance"
        ∧ tag_name w = "k3s-worker" +:+ str (k + 1)
        ∧ hosts (length (workers c)) !! S k = Some ("worker-" +:+ str (k + 1))
        ∧ all_ips c !! S k = Some (public_ip w)
        ∧ stack_outputs c !! ("worker" +:+ str (k + 1) +:+ "_instance_id")
          = Some (ResourceId (name w))
        ∧ stack_outputs c !! ("worker" +:+ str (k + 1) +:+ "_instance_public_ip")
          = Some (Attribute (public_ip w))
        ∧ stack_outputs c !! ("worker" +:+ str (k + 1) +:+ "_private_ip")
          = Some (Attribute (private_ip w)).
Proof.
  destruct (provision_spec cfg num_workers) as (c & g & Hprov & _ & _ & Hw).
  exists c. split; [done|]. intros k w Hk.
  pose proof Hw as (_ & _ & _ & _ & Hall & _ & Hips & _).
  destruct (Forall2_lookup_r _ _ _ _ _ Hall Hk) as (i & Hi & Hwi).
  unfold worker_indices in Hi. apply lookup_seq in Hi as [-> Hlt].
  destruct Hwi as (Hn & Ht & _).
  pose proof (lookup_lt_Some _ _ _ Hk) as Hlen.
  replace (1 + k) with (k + 1) in * by lia.
  split; [done|]. split; [done|]. split; [by apply hosts_lookup_worker|].
  split; [by rewrite Hips; simpl; rewrite list_lookup_fmap, Hk|].
  assert ((k + 1, w) ∈ enumerate_from 1 (workers c)) as Hin.
  { apply (list_elem_of_lookup_2 _ k). unfold enumerate_from.
    rewrite lookup_zip_with, lookup_seq_lt by lia. simpl. rewrite Hk. simpl.
    do 2 f_equal. lia. }
  assert (∀ kv, kv ∈ worker_exports (k + 1, w) →
                stack_outputs c !! kv.1 = Some kv.2) as Hout.
  { intros [key v] Hkv. apply stack_outputs_lookup. unfold exports.
    apply elem_of_app. right. apply list_elem_of_bind. by eexists. }
  split; [|split].
  - apply (Hout (_, _)). apply list_elem_of_here.
  - apply (Hout (_, _)). apply list_elem_of_further, list_elem_of_here.
  - apply (Hout (_, _)). do 2 apply list_elem_of_further. apply list_elem_of_here.
Qed.

End ExportsFacts.

(** ** The deferred values of the cluster under delivery *)

Module DeliveryFacts.
Import Text Deferred Topology Bootstrap AccessProfile Cluster.
Import DeferredFacts SettledFacts GrowFacts PipelineFacts AccessProfileFacts ClusterFacts.

(** X20. What the worker loop computes is [worker_payloads], each closure
    with the index of its own pass: once the private
    address of the server is delivered, the user data of the workers are
    exactly these payloads, in worker order. *)
Theorem worker_payloads_delivered (cfg : config) (num_workers : nat) :
  ∃ c, provision cfg num_workers = Ok c
    ∧ ∀ (events : list (nat * value)) (ip : string),
        delivery c events →
        (private_ip (master_instance c), VStr ip) ∈ events →
        ∃ s', resolve_all (outputs (state c)) events = Ok s'
              ∧ Forall2 (λ w p, ∃ ud, user_data w = Pending ud
                                      ∧ value_of s' ud = Some (VStr p))
                        (workers c)
                        (worker_payloads (k3s_token cfg) ip num_workers).
Proof.
  destruct (provision_spec cfg num_workers) as (c & g & Hprov & Hset & Hblank & Hw).
  exists c. split; [done|]. intros events ip Hdel Hip.
  pose proof Hw as (_ & _ & _ & _ & Hall & _).
  pose proof (delivery_schedule_ok g cfg num_workers c _ Hw Hblank Hdel) as Hok.
  destruct (resolve_all_settled g events _ Hset Hok) as (s' & Hr & Hs' & Hv & _).
  exists s'. split; [done|]. unfold worker_payloads.
  apply Forall2_fmap_r, Forall2_flip.
  eapply Forall2_impl; [exact Hall|]. intros i w Hwi. simpl.
  destruct Hwi as (_ & _ & _ & (ud & Hud & Hg) & _).
  exists ud. split; [done|].
  destruct (settled_map g s' _ _ _ Hs' Hg) as [_ ->].
  by rewrite (Hv _ _ Hip).
Qed.

Lemma worker_payloads_delivered_witness :
  ∃ c s' ud, provision default_config 1 = Ok c
    ∧ resolve_all (outputs (state c)) [(0, VStr "10.0.1.5")] = Ok s'
    ∧ user_data <$> workers c = [Pending ud]
    ∧ value_of s' ud
      = Some (VStr (make_worker_userdata "super-secret-token" "10.0.1.5" 1)).
Proof.
  destruct (worker_payloads_delivered default_config 1) as (c & Hprov & H).
  assert (private_ip (master_instance c) = 0
          ∧ provider_cells c = [0; 1; 3; 4]
          ∧ user_data <$> workers c = [Pending 2]) as (Hm & Hcells & Hud).
  { vm_compute in Hprov. injection Hprov as <-. by vm_compute. }
  destruct (H [(0, VStr "10.0.1.5")] "10.0.1.5") as (s' & Hr & Hall).
  - split; [apply NoDup_singleton|]. rewrite Hcells.
    intros d ->%list_elem_of_singleton. apply list_elem_of_here.
  - rewrite Hm. apply list_elem_of_here.
  - exists c, s', 2. split; [exact Hprov|]. split; [exact Hr|]. split; [exact Hud|].
    destruct (workers c) as [|w [|w' ws]]; try discriminate.
    apply Forall2_cons_1 in Hall as [(ud & Hw & Hv) _].
    injection Hud as Hud. rewrite Hw in Hud. injection Hud as ->. exact Hv.
Defined.

(** X21. No file before the last address: as long as the public address of some
    instance is missing, nothing is written. *)
Theorem no_file_before_all_addresses (cfg : config) (num_workers : nat) :
  ∃ c, provision cfg num_workers = Ok c
    ∧ ∀ (events : list (nat * value)) (home : string) (fs : gmap string node) (d : nat),
        delivery c events →
        d ∈ all_ips c → d ∉ events.*1 →
        ∃ s', resolve_all (outputs (state c)) events = Ok s'
              ∧ files_after home fs c s' = fs.
Proof.
  destruct (provision_spec cfg num_workers) as (c & g & Hprov & Hset & Hblank & Hw).
  exists c. split; [done|]. intros events home fs d Hdel Hd Hnot.
  pose proof Hw as (_ & _ & _ & Hpub & Hall & _ & Hips & collected & Hcol & Hwritten).
  pose proof (delivery_schedule_ok g cfg num_workers c _ Hw Hblank Hdel) as Hok.
  destruct (resolve_all_settled g events _ Hset Hok) as (s' & Hr & Hs' & _ & Hsame & _).
  exists s'. split; [done|].
  assert (g !! d = Some Src) as Hsrc.
  { apply (provider_cells_src g cfg num_workers c d Hw).
    rewrite Hips in Hd. unfold provider_cells.
    apply elem_of_cons in Hd as [->|Hd].
    - apply list_elem_of_further, list_elem_of_here.
    - do 2 apply list_elem_of_further.
      apply list_elem_of_fmap in Hd as (w & -> & Hin).
      apply list_elem_of_In, in_flat_map. exists w.
      split; [by apply list_elem_of_In|]. right. by left. }
  assert (value_of s' d = None) as Hnone by (by rewrite (Hsame d Hsrc Hnot)).
  unfold files_after.
  destruct (settled_map g s' _ _ _ Hs' Hwritten) as [_ ->].
  destruct (settled_all g s' _ _ Hs' Hcol) as [_ ->].
  assert (mapM (value_of s') (all_ips c) = None) as ->; [|done].
  apply mapM_None, Exists_exists. by exists d.
Qed.

Lemma no_file_before_all_addresses_witness :
  ∃ c s', provision default_config 1 = Ok c
    ∧ resolve_all (outputs (state c)) [(1, VStr "1.2.3.4"); (0, VStr "10.0.1.5")]
      = Ok s'
    ∧ files_after "/home/ubuntu" ∅ c s' = ∅.
Proof.
  destruct (no_file_before_all_addresses default_config 1) as (c & Hprov & H).
  assert (all_ips c = [1; 4] ∧ provider_cells c = [0; 1; 3; 4]) as (Hall & Hcells).
  { vm_compute in Hprov. injection Hprov as <-. by vm_compute. }
  destruct (H [(1, VStr "1.2.3.4"); (0, VStr "10.0.1.5")] "/home/ubuntu" ∅ 4)
    as (s' & Hr & Hfs).
  - split.
    + apply NoDup_cons. split; [|apply NoDup_singleton].
      intros Hin. apply list_elem_of_singleton in Hin. discriminate.
    + rewrite Hcells. intros d Hd. apply elem_of_cons in Hd as [->|Hd].
      * apply list_elem_of_further, list_elem_of_here.
      * apply list_elem_of_singleton in Hd as ->. apply list_elem_of_here.
  - rewrite Hall. apply list_elem_of_further, list_elem_of_here.
  - intros Hin. apply elem_of_cons in Hin as [Hin|Hin]; [discriminate|].
    apply list_elem_of_singleton in Hin. discriminate.
  - exists c, s'. split; [exact Hprov|]. split; [exact Hr|exact Hfs].
Defined.

End DeliveryFacts.
